(** * Tick-to-trade ingest core: packet sequencing, SPSC ring, ingest loop

    A shallow embedding of [packet_manager.hpp], [spsc_queue.hpp],
    [types.hpp], [udp_receiver.hpp] and [feed_handler_impl.hpp], with the
    properties of the natural-language specification stated and settled
    against it, followed by further properties of the same code, of
    [trading_engine.hpp], of [memory_pool.hpp] and of the packets of
    [test_feed_generator.cpp].

    Conventions.
    - A [uint64_t] is a [Z] whose arithmetic is written with [wrap64];
      a [uint8_t] with [wrap8].
    - [std::unordered_set] is a [gset Z], [std::map] a [gmap Z _] (the
      ordered iteration of [std::map] is only used by [erase(begin())],
      modelled by [erase_begin]), [std::deque] and [std::vector] are lists.
    - A [(const uint8_t* data, size_t data_size)] pair is an
      [option (list byte)]: [None] is the null pointer, [Some bs] a pointer
      to [data_size = length bs] readable bytes.
    - [std::function] callbacks are effects: every invocation is appended
      to a trace carried next to the object state. *)

From Stdlib Require Import ZArith Lia String.
From Stdlib.Strings Require Import Byte.
From stdpp Require Import gmap list.

Local Open Scope Z_scope.

(** ** Fixed-width integers *)

Definition wrap64 (z : Z) : Z := z mod 2 ^ 64.
Definition wrap8 (z : Z) : Z := z mod 2 ^ 8.
Definition UINT64_MAX : Z := 2 ^ 64 - 1.

Definition is_u64 (z : Z) : Prop := 0 <= z < 2 ^ 64.

Lemma wrap64_range z : 0 <= wrap64 z < 2 ^ 64.
Proof. unfold wrap64. apply Z.mod_pos_bound. lia. Qed.

Lemma wrap64_small z : 0 <= z < 2 ^ 64 -> wrap64 z = z.
Proof. intros H. unfold wrap64. apply Z.mod_small. exact H. Qed.

(** ** packet_manager.hpp *)

Module PacketManager.

Inductive FeedState : Type := INITIAL | RECOVERING | LIVE | STALE.

#[global] Instance FeedState_eq_dec : EqDecision FeedState.
Proof. solve_decision. Defined.

Record GapFillRequest : Type := {
  start_seq : Z;
  end_seq : Z;
  request_time_ns : Z;
  retry_count : Z
}.

Record Stats : Type := {
  total_packets : Z;
  duplicates : Z;
  gaps_detected : Z;
  gaps_filled : Z;
  out_of_order : Z;
  resequenced : Z;
  dropped_overflow : Z
}.

(** One invocation of [gap_fill_callback_]: the request handed over and the
    value of [state_] the callee observes through [get_state()]. *)
Definition CallbackCall : Type := (GapFillRequest * FeedState)%type.

(** The private members of [class PacketManager].  [gap_fill_callback_] is
    [true] when a callable has been installed; [callback_trace] lists the
    invocations made so far, oldest first. *)
Record Mgr : Type := {
  state_ : FeedState;
  next_expected_seq_ : Z;
  highest_seq_seen_ : Z;
  recent_sequences_ : list Z;
  recent_seq_set_ : gset Z;
  resequence_buffer_ : gmap Z (list byte);
  pending_gaps_ : list GapFillRequest;
  stats_ : Stats;
  gap_fill_callback_ : bool;
  callback_trace : list CallbackCall
}.

Definition DUPLICATE_WINDOW_SIZE : Z := 10000.
Definition MAX_RESEQUENCE_BUFFER_SIZE : Z := 1000.
Definition MAX_GAP_SIZE : Z := 1000.
Definition GAP_TIMEOUT_NS : Z := 1000000000.
Definition MAX_RETRIES : Z := 3.

Definition stats0 : Stats :=
  {| total_packets := 0; duplicates := 0; gaps_detected := 0;
     gaps_filled := 0; out_of_order := 0; resequenced := 0;
     dropped_overflow := 0 |}.

(** [PacketManager() = default], followed by [set_gap_fill_callback] when
    [cb] is [true]. *)
Definition init (cb : bool) : Mgr :=
  {| state_ := INITIAL; next_expected_seq_ := 0; highest_seq_seen_ := 0;
     recent_sequences_ := []; recent_seq_set_ := ∅;
     resequence_buffer_ := ∅; pending_gaps_ := []; stats_ := stats0;
     gap_fill_callback_ := cb; callback_trace := [] |}.

(** *** Field updates *)

Definition set_state (v : FeedState) (m : Mgr) : Mgr :=
  {| state_ := v; next_expected_seq_ := next_expected_seq_ m;
     highest_seq_seen_ := highest_seq_seen_ m;
     recent_sequences_ := recent_sequences_ m;
     recent_seq_set_ := recent_seq_set_ m;
     resequence_buffer_ := resequence_buffer_ m;
     pending_gaps_ := pending_gaps_ m; stats_ := stats_ m;
     gap_fill_callback_ := gap_fill_callback_ m;
     callback_trace := callback_trace m |}.

Definition set_next_expected (v : Z) (m : Mgr) : Mgr :=
  {| state_ := state_ m; next_expected_seq_ := v;
     highest_seq_seen_ := highest_seq_seen_ m;
     recent_sequences_ := recent_sequences_ m;
     recent_seq_set_ := recent_seq_set_ m;
     resequence_buffer_ := resequence_buffer_ m;
     pending_gaps_ := pending_gaps_ m; stats_ := stats_ m;
     gap_fill_callback_ := gap_fill_callback_ m;
     callback_trace := callback_trace m |}.

Definition set_highest (v : Z) (m : Mgr) : Mgr :=
  {| state_ := state_ m; next_expected_seq_ := next_expected_seq_ m;
     highest_seq_seen_ := v;
     recent_sequences_ := recent_sequences_ m;
     recent_seq_set_ := recent_seq_set_ m;
     resequence_buffer_ := resequence_buffer_ m;
     pending_gaps_ := pending_gaps_ m; stats_ := stats_ m;
     gap_fill_callback_ := gap_fill_callback_ m;
     callback_trace := callback_trace m |}.

Definition set_window (dq : list Z) (s : gset Z) (m : Mgr) : Mgr :=
  {| state_ := state_ m; next_expected_seq_ := next_expected_seq_ m;
     highest_seq_seen_ := highest_seq_seen_ m;
     recent_sequences_ := dq;
     recent_seq_set_ := s;
     resequence_buffer_ := resequence_buffer_ m;
     pending_gaps_ := pending_gaps_ m; stats_ := stats_ m;
     gap_fill_callback_ := gap_fill_callback_ m;
     callback_trace := callback_trace m |}.

Definition set_buffer (b : gmap Z (list byte)) (m : Mgr) : Mgr :=
  {| state_ := state_ m; next_expected_seq_ := next_expected_seq_ m;
     highest_seq_seen_ := highest_seq_seen_ m;
     recent_sequences_ := recent_sequences_ m;
     recent_seq_set_ := recent_seq_set_ m;
     resequence_buffer_ := b;
     pending_gaps_ := pending_gaps_ m; stats_ := stats_ m;
     gap_fill_callback_ := gap_fill_callback_ m;
     callback_trace := callback_trace m |}.

Definition set_pending (g : list GapFillRequest) (m : Mgr) : Mgr :=
  {| state_ := state_ m; next_expected_seq_ := next_expected_seq_ m;
     highest_seq_seen_ := highest_seq_seen_ m;
     recent_sequences_ := recent_sequences_ m;
     recent_seq_set_ := recent_seq_set_ m;
     resequence_buffer_ := resequence_buffer_ m;
     pending_gaps_ := g; stats_ := stats_ m;
     gap_fill_callback_ := gap_fill_callback_ m;
     callback_trace := callback_trace m |}.

Definition set_stats (s : Stats) (m : Mgr) : Mgr :=
  {| state_ := state_ m; next_expected_seq_ := next_expected_seq_ m;
     highest_seq_seen_ := highest_seq_seen_ m;
     recent_sequences_ := recent_sequences_ m;
     recent_seq_set_ := recent_seq_set_ m;
     resequence_buffer_ := resequence_buffer_ m;
     pending_gaps_ := pending_gaps_ m; stats_ := s;
     gap_fill_callback_ := gap_fill_callback_ m;
     callback_trace := callback_trace m |}.

Definition set_trace (t : list CallbackCall) (m : Mgr) : Mgr :=
  {| state_ := state_ m; next_expected_seq_ := next_expected_seq_ m;
     highest_seq_seen_ := highest_seq_seen_ m;
     recent_sequences_ := recent_sequences_ m;
     recent_seq_set_ := recent_seq_set_ m;
     resequence_buffer_ := resequence_buffer_ m;
     pending_gaps_ := pending_gaps_ m; stats_ := stats_ m;
     gap_fill_callback_ := gap_fill_callback_ m;
     callback_trace := t |}.

(** [stats_.<counter>++] *)
Definition inc_total_packets (s : Stats) : Stats :=
  {| total_packets := wrap64 (total_packets s + 1); duplicates := duplicates s;
     gaps_detected := gaps_detected s; gaps_filled := gaps_filled s;
     out_of_order := out_of_order s; resequenced := resequenced s;
     dropped_overflow := dropped_overflow s |}.

Definition inc_duplicates (s : Stats) : Stats :=
  {| total_packets := total_packets s; duplicates := wrap64 (duplicates s + 1);
     gaps_detected := gaps_detected s; gaps_filled := gaps_filled s;
     out_of_order := out_of_order s; resequenced := resequenced s;
     dropped_overflow := dropped_overflow s |}.

Definition inc_gaps_detected (s : Stats) : Stats :=
  {| total_packets := total_packets s; duplicates := duplicates s;
     gaps_detected := wrap64 (gaps_detected s + 1); gaps_filled := gaps_filled s;
     out_of_order := out_of_order s; resequenced := resequenced s;
     dropped_overflow := dropped_overflow s |}.

Definition inc_gaps_filled (s : Stats) : Stats :=
  {| total_packets := total_packets s; duplicates := duplicates s;
     gaps_detected := gaps_detected s; gaps_filled := wrap64 (gaps_filled s + 1);
     out_of_order := out_of_order s; resequenced := resequenced s;
     dropped_overflow := dropped_overflow s |}.

Definition inc_out_of_order (s : Stats) : Stats :=
  {| total_packets := total_packets s; duplicates := duplicates s;
     gaps_detected := gaps_detected s; gaps_filled := gaps_filled s;
     out_of_order := wrap64 (out_of_order s + 1); resequenced := resequenced s;
     dropped_overflow := dropped_overflow s |}.

Definition inc_resequenced (s : Stats) : Stats :=
  {| total_packets := total_packets s; duplicates := duplicates s;
     gaps_detected := gaps_detected s; gaps_filled := gaps_filled s;
     out_of_order := out_of_order s; resequenced := wrap64 (resequenced s + 1);
     dropped_overflow := dropped_overflow s |}.

Definition inc_dropped_overflow (s : Stats) : Stats :=
  {| total_packets := total_packets s; duplicates := duplicates s;
     gaps_detected := gaps_detected s; gaps_filled := gaps_filled s;
     out_of_order := out_of_order s; resequenced := resequenced s;
     dropped_overflow := wrap64 (dropped_overflow s + 1) |}.

Definition bump (f : Stats -> Stats) (m : Mgr) : Mgr := set_stats (f (stats_ m)) m.

(** [if (gap_fill_callback_) gap_fill_callback_(req);] *)
Definition invoke_callback (req : GapFillRequest) (m : Mgr) : Mgr :=
  if gap_fill_callback_ m
  then set_trace (callback_trace m ++ [(req, state_ m)]) m
  else m.

(** *** Duplicate window *)

Definition is_duplicate (m : Mgr) (sequence : Z) : bool :=
  bool_decide (sequence ∈ recent_seq_set_ m).

Definition mark_seen (sequence : Z) (m : Mgr) : Mgr :=
  let s1 := {[sequence]} ∪ recent_seq_set_ m in
  let dq1 := recent_sequences_ m ++ [sequence] in
  if DUPLICATE_WINDOW_SIZE <? Z.of_nat (length dq1) then
    match dq1 with
    | old_seq :: dq2 => set_window dq2 (s1 ∖ {[old_seq]}) m
    | [] => set_window dq1 s1 m
    end
  else set_window dq1 s1 m.

(** *** Resequence buffer *)

(** Key of [resequence_buffer_.begin()]: the least key of the ordered map. *)
Definition min_key (b : gmap Z (list byte)) : option Z :=
  map_fold (fun k _ acc => Some (match acc with Some j => Z.min k j | None => k end))
           None b.

(** [resequence_buffer_.erase(resequence_buffer_.begin())] *)
Definition erase_begin (b : gmap Z (list byte)) : gmap Z (list byte) :=
  match min_key b with
  | Some k => delete k b
  | None => b
  end.

Definition buffer_packet (sequence : Z) (data : list byte) (m : Mgr) : Mgr :=
  let m1 :=
    if MAX_RESEQUENCE_BUFFER_SIZE <=? Z.of_nat (size (resequence_buffer_ m))
    then bump inc_dropped_overflow
              (set_buffer (erase_begin (resequence_buffer_ m)) m)
    else m in
  set_buffer (<[sequence := data]> (resequence_buffer_ m1)) m1.

(** [if (data && data_size > 0) { buffer_packet(...); stats_.out_of_order++; }] *)
Definition buffer_if_data (sequence : Z) (data : option (list byte)) (m : Mgr) : Mgr :=
  match data with
  | Some (b :: bs) => bump inc_out_of_order (buffer_packet sequence (b :: bs) m)
  | _ => m
  end.

(** *** Gap fill *)

Definition same_range (s e : Z) (req : GapFillRequest) : bool :=
  (start_seq req =? s) && (end_seq req =? e).

Definition process_gap_fill (s e : Z) (m : Mgr) : Mgr :=
  let m1 := set_pending (List.filter (fun req => negb (same_range s e req))
                                     (pending_gaps_ m)) m in
  let m2 := bump inc_gaps_filled m1 in
  match pending_gaps_ m2, state_ m2 with
  | [], RECOVERING => set_state LIVE m2
  | _, _ => m2
  end.

(** *** State handlers *)

Definition handle_initial_state (sequence : Z) (m : Mgr) : bool * Mgr :=
  (true, set_state LIVE (set_next_expected (wrap64 (sequence + 1)) m)).

Definition handle_live_state (sequence : Z) (data : option (list byte))
    (timestamp : Z) (m : Mgr) : bool * Mgr :=
  if sequence =? next_expected_seq_ m then
    (true, set_next_expected (wrap64 (next_expected_seq_ m + 1)) m)
  else if sequence <? next_expected_seq_ m then
    (false, m)
  else
    let gap_size := wrap64 (sequence - next_expected_seq_ m) in
    let m1 := bump inc_gaps_detected m in
    if MAX_GAP_SIZE <? gap_size then
      (false, set_state STALE m1)
    else
      let gap_req := {| start_seq := next_expected_seq_ m1;
                        end_seq := wrap64 (sequence - 1);
                        request_time_ns := timestamp;
                        retry_count := 0 |} in
      let m2 := set_pending (pending_gaps_ m1 ++ [gap_req]) m1 in
      let m3 := invoke_callback gap_req m2 in
      let m4 := set_state RECOVERING m3 in
      (false, buffer_if_data sequence data m4).

(** The first pending request whose range contains [sequence]. *)
Fixpoint find_gap (sequence : Z) (gaps : list GapFillRequest) : option GapFillRequest :=
  match gaps with
  | [] => None
  | g :: rest =>
      if (start_seq g <=? sequence) && (sequence <=? end_seq g)
      then Some g
      else find_gap sequence rest
  end.

Definition handle_recovering_state (sequence : Z) (data : option (list byte))
    (m : Mgr) : bool * Mgr :=
  if sequence =? next_expected_seq_ m then
    let m1 := set_next_expected (wrap64 (next_expected_seq_ m + 1)) m in
    (true, match pending_gaps_ m1 with
           | [] => set_state LIVE m1
           | _ => m1
           end)
  else if next_expected_seq_ m <? sequence then
    (false, buffer_if_data sequence data m)
  else
    match find_gap sequence (pending_gaps_ m) with
    | Some g =>
        (true, if sequence =? end_seq g
               then process_gap_fill (start_seq g) (end_seq g) m
               else m)
    | None => (false, m)
    end.

(** *** Public operations *)

Definition process_packet (sequence : Z) (data : option (list byte))
    (timestamp : Z) (m : Mgr) : bool * Mgr :=
  let m1 := bump inc_total_packets m in
  let m2 := if highest_seq_seen_ m1 <? sequence then set_highest sequence m1 else m1 in
  if is_duplicate m2 sequence then
    (false, bump inc_duplicates m2)
  else
    let m3 := mark_seen sequence m2 in
    match state_ m3 with
    | INITIAL => handle_initial_state sequence m3
    | LIVE => handle_live_state sequence data timestamp m3
    | RECOVERING => handle_recovering_state sequence data m3
    | STALE => (false, m3)
    end.

(** The [while] loop of [get_ready_packets].  Every iteration that does not
    leave the loop erases one entry, so [size resequence_buffer_] iterations
    are enough: [fuel] is an upper bound on the number of iterations, and
    [drain_loop_exit] below shows that the loop has left through its own
    exit test when called with that bound. *)
Fixpoint drain_loop (fuel : nat) (m : Mgr) (ready : list (list byte))
    : list (list byte) * Mgr :=
  match fuel with
  | O => (ready, m)
  | S fuel' =>
      if bool_decide (resequence_buffer_ m = ∅) then (ready, m)
      else
        match resequence_buffer_ m !! next_expected_seq_ m with
        | None => (ready, m)
        | Some pkt =>
            let m1 := set_buffer (delete (next_expected_seq_ m) (resequence_buffer_ m)) m in
            let m2 := set_next_expected (wrap64 (next_expected_seq_ m1 + 1)) m1 in
            let m3 := bump inc_resequenced m2 in
            drain_loop fuel' m3 (ready ++ [pkt])
        end
  end.

Definition get_ready_packets (m : Mgr) : list (list byte) * Mgr :=
  drain_loop (size (resequence_buffer_ m)) m [].

(** The body of the range-for in [periodic_maintenance], applied to the
    pending requests from left to right; the requests are updated in place. *)
Fixpoint maintenance_loop (current_time_ns : Z) (gaps : list GapFillRequest)
    (m : Mgr) : list GapFillRequest * Mgr :=
  match gaps with
  | [] => ([], m)
  | gap :: rest =>
      if GAP_TIMEOUT_NS <? wrap64 (current_time_ns - request_time_ns gap) then
        if retry_count gap <? MAX_RETRIES then
          let gap' := {| start_seq := start_seq gap; end_seq := end_seq gap;
                         request_time_ns := current_time_ns;
                         retry_count := wrap8 (retry_count gap + 1) |} in
          let m1 := invoke_callback gap' m in
          let '(rest', m2) := maintenance_loop current_time_ns rest m1 in
          (gap' :: rest', m2)
        else
          let m1 := set_state STALE m in
          let '(rest', m2) := maintenance_loop current_time_ns rest m1 in
          (gap :: rest', m2)
      else
        let '(rest', m2) := maintenance_loop current_time_ns rest m in
        (gap :: rest', m2)
  end.

Definition periodic_maintenance (current_time_ns : Z) (m : Mgr) : Mgr :=
  let '(gaps, m1) := maintenance_loop current_time_ns (pending_gaps_ m) m in
  set_pending gaps m1.

Definition trigger_resync (m : Mgr) : Mgr :=
  set_window [] ∅ (set_pending [] (set_buffer ∅ (set_state INITIAL m))).

Definition get_state (m : Mgr) : FeedState := state_ m.
Definition get_stats (m : Mgr) : Stats := stats_ m.
Definition get_next_expected (m : Mgr) : Z := next_expected_seq_ m.

(** The bookkeeping at the head of [process_packet] for a sequence that is
    not a duplicate: the packet count, the highest sequence seen and the
    duplicate window. *)
Definition seen (s : Z) (m : Mgr) : Mgr :=
  mark_seen s (if highest_seq_seen_ m <? s
               then set_highest s (bump inc_total_packets m)
               else bump inc_total_packets m).

(** The set and the deque of the duplicate window describe the same
    sequences, none of them twice, and no more than the window size. *)
Definition window_ok (m : Mgr) : Prop :=
  NoDup (recent_sequences_ m) /\
  (forall x, x ∈ recent_seq_set_ m <-> x ∈ recent_sequences_ m) /\
  Z.of_nat (length (recent_sequences_ m)) <= DUPLICATE_WINDOW_SIZE.

(** A request after one retry at time [t]. *)
Definition retried (t : Z) (g : GapFillRequest) : GapFillRequest :=
  {| start_seq := start_seq g; end_seq := end_seq g;
     request_time_ns := t; retry_count := retry_count g + 1 |}.

(** *** Vocabulary for the drain loop *)

(** [next_expected_seq_] and the [resequenced] counter hold 64-bit values
    and sequence 0 is not buffered. *)
Definition drain_ready (m : Mgr) : Prop :=
  is_u64 (next_expected_seq_ m) /\
  is_u64 (resequenced (stats_ m)) /\
  resequence_buffer_ m !! 0 = None.

(** The keys the loop looks up, in order: [nx], [nx+1], ... in 64-bit
    arithmetic. *)
Fixpoint run_keys (nx : Z) (n : nat) : list Z :=
  match n with
  | O => []
  | S n' => nx :: run_keys (wrap64 (nx + 1)) n'
  end.

(** What a run of the drain loop from [m] to [m'] that returned [pkts]
    has done. *)
Record drain_post (m m' : Mgr) (pkts : list (list byte)) : Prop := {
  dp_found :
    Forall2 (fun k pkt => resequence_buffer_ m !! k = Some pkt)
            (run_keys (next_expected_seq_ m) (length pkts)) pkts;
  dp_stop : resequence_buffer_ m' !! next_expected_seq_ m' = None;
  dp_rest : forall k,
    resequence_buffer_ m' !! k =
      if bool_decide (k ∈ run_keys (next_expected_seq_ m) (length pkts))
      then None else resequence_buffer_ m !! k;
  dp_next :
    next_expected_seq_ m' =
      wrap64 (next_expected_seq_ m + Z.of_nat (length pkts));
  dp_count :
    resequenced (stats_ m') =
      wrap64 (resequenced (stats_ m) + Z.of_nat (length pkts));
  dp_frame :
    state_ m' = state_ m /\ highest_seq_seen_ m' = highest_seq_seen_ m /\
    recent_sequences_ m' = recent_sequences_ m /\
    recent_seq_set_ m' = recent_seq_set_ m /\
    pending_gaps_ m' = pending_gaps_ m /\
    gap_fill_callback_ m' = gap_fill_callback_ m /\
    callback_trace m' = callback_trace m /\
    total_packets (stats_ m') = total_packets (stats_ m) /\
    duplicates (stats_ m') = duplicates (stats_ m) /\
    gaps_detected (stats_ m') = gaps_detected (stats_ m) /\
    gaps_filled (stats_ m') = gaps_filled (stats_ m) /\
    out_of_order (stats_ m') = out_of_order (stats_ m) /\
    dropped_overflow (stats_ m') = dropped_overflow (stats_ m)
}.

(** While the feed is Recovering some request is pending. *)
Definition recovering_has_request (m : Mgr) : Prop :=
  state_ m = RECOVERING -> pending_gaps_ m <> [].

(** *** Sequences of calls *)

(** One call of a public member function. *)
Inductive Op : Type :=
  | OpPacket (sequence : Z) (data : option (list byte)) (timestamp : Z)
  | OpDrain
  | OpGapFill (s e : Z)
  | OpMaintenance (current_time_ns : Z)
  | OpResync.

Definition apply_op (op : Op) (m : Mgr) : Mgr :=
  match op with
  | OpPacket sequence data timestamp => (process_packet sequence data timestamp m).2
  | OpDrain => (get_ready_packets m).2
  | OpGapFill s e => process_gap_fill s e m
  | OpMaintenance t => periodic_maintenance t m
  | OpResync => trigger_resync m
  end.

Definition run_ops (ops : list Op) (m : Mgr) : Mgr :=
  fold_left (fun acc op => apply_op op acc) ops m.

Definition is_resync (op : Op) : bool :=
  match op with OpResync => true | _ => false end.

Definition is_packet (op : Op) : bool :=
  match op with OpPacket _ _ _ => true | _ => false end.

(** [process_packet] on each sequence of a list in turn, the packet of
    sequence [x] carrying [data x] and stamped [ts x]: the results of the
    calls, in order, and the final manager. *)
Fixpoint process_all (data : Z -> option (list byte)) (ts : Z -> Z)
    (seqs : list Z) (m : Mgr) : list bool * Mgr :=
  match seqs with
  | [] => ([], m)
  | x :: rest =>
      let '(ok, m1) := process_packet x (data x) (ts x) m in
      let '(oks, m2) := process_all data ts rest m1 in
      (ok :: oks, m2)
  end.

(** The consecutive sequences [s], [s+1], ..., [s+n-1]. *)
Definition consecutive (s : Z) (n : nat) : list Z :=
  (fun i => s + Z.of_nat i) <$> seq 0 n.


(** [s] is in the deque of the duplicate window, with at most [j] entries
    after it. *)
Definition within (j : nat) (s : Z) (m : Mgr) : Prop :=
  exists pre post,
    recent_sequences_ m = pre ++ s :: post /\ (length post <= j)%nat.

(** [periodic_maintenance] at each of the given times, in order. *)
Definition ticks (ts : list Z) (m : Mgr) : Mgr :=
  fold_left (fun acc t => periodic_maintenance t acc) ts m.

End PacketManager.

(** ** types.hpp: wire format *)

Module Wire.

(** [enum class MessageType : uint8_t] *)
Definition TRADE : Z := 1.
Definition QUOTE : Z := 2.
Definition ORDER_ADD : Z := 3.
Definition ORDER_DELETE : Z := 4.
Definition ORDER_MODIFY : Z := 5.
Definition HEARTBEAT : Z := 255.

(** Sizes of the packed structs: the sum of the member sizes, and for the
    payload union the largest member. *)
Definition sizeof_TradeMessage : Z := 8 + 8 + 4 + 4 + 8 + 4 + 1 + 3.
Definition sizeof_QuoteMessage : Z := 8 + 8 + 4 + 8 + 8 + 4 + 4 + 1 + 7.
Definition sizeof_raw_data : Z := 256.
Definition sizeof_payload : Z :=
  Z.max sizeof_TradeMessage (Z.max sizeof_QuoteMessage sizeof_raw_data).
Definition sizeof_header : Z := 1 + 1 + 2 + 8.
Definition sizeof_MarketDataPacket : Z := sizeof_header + sizeof_payload.

Definition byte_val (b : byte) : Z := Z.of_N (Byte.to_N b).

Definition byte_of_Z (z : Z) : byte :=
  match Byte.of_N (Z.to_N (z mod 256)) with
  | Some b => b
  | None => x00
  end.

(** Little-endian integers, as x86-64 reads them in place. *)
Fixpoint decode_le (bs : list byte) : Z :=
  match bs with
  | [] => 0
  | b :: rest => byte_val b + 256 * decode_le rest
  end.

Fixpoint encode_le (n : nat) (z : Z) : list byte :=
  match n with
  | O => []
  | S n' => byte_of_Z z :: encode_le n' (z / 256)
  end.

(** The integer of [len] bytes at byte offset [off] of a datagram. *)
Definition field (off len : nat) (data : list byte) : Z :=
  decode_le (take len (drop off data)).

(** Members of [MarketDataPacket], read through the [reinterpret_cast]. *)
Definition msg_type (d : list byte) : Z := field 0 1 d.
Definition version (d : list byte) : Z := field 1 1 d.
Definition payload_size (d : list byte) : Z := field 2 2 d.
Definition packet_sequence (d : list byte) : Z := field 4 8 d.

(** Members of [payload.trade]. *)
Definition trade_timestamp_ns (d : list byte) : Z := field 12 8 d.
Definition trade_sequence_num (d : list byte) : Z := field 20 8 d.
Definition trade_symbol_id (d : list byte) : Z := field 28 4 d.
Definition trade_trade_id (d : list byte) : Z := field 32 4 d.
Definition trade_price (d : list byte) : Z := field 36 8 d.
Definition trade_quantity (d : list byte) : Z := field 44 4 d.
Definition trade_side (d : list byte) : Z := field 48 1 d.

(** Members of [payload.quote]. *)
Definition quote_timestamp_ns (d : list byte) : Z := field 12 8 d.
Definition quote_sequence_num (d : list byte) : Z := field 20 8 d.
Definition quote_symbol_id (d : list byte) : Z := field 28 4 d.
Definition quote_bid_price (d : list byte) : Z := field 32 8 d.
Definition quote_ask_price (d : list byte) : Z := field 40 8 d.
Definition quote_bid_size (d : list byte) : Z := field 48 4 d.
Definition quote_ask_size (d : list byte) : Z := field 52 4 d.
Definition quote_num_levels (d : list byte) : Z := field 56 1 d.

(** A full-size datagram: header, then [payload] padded with zero bytes to
    the size of the union. *)
Definition packet (ty ver : Z) (sequence : Z) (payload : list byte) : list byte :=
  encode_le 1 ty ++ encode_le 1 ver ++ encode_le 2 (Z.of_nat (length payload))
    ++ encode_le 8 sequence
    ++ take 256 (payload ++ replicate 256 x00).

(** A header-complete datagram whose payload is cut to [payload] exactly. *)
Definition short_packet (ty ver : Z) (sequence : Z) (payload : list byte) : list byte :=
  encode_le 1 ty ++ encode_le 1 ver ++ encode_le 2 (Z.of_nat (length payload))
    ++ encode_le 8 sequence ++ payload.

Definition trade_payload (ts sequence symbol trade_id price qty side : Z) : list byte :=
  encode_le 8 ts ++ encode_le 8 sequence ++ encode_le 4 symbol
    ++ encode_le 4 trade_id ++ encode_le 8 price ++ encode_le 4 qty
    ++ encode_le 1 side ++ replicate 3 x00.

(** A trade packet carrying sequence [sequence] in header and echo. *)
Definition trade_packet (sequence : Z) : list byte :=
  packet TRADE 1 sequence (trade_payload 0 sequence 7 sequence 1000000 100 66).

End Wire.

(** ** Driving the packet manager with datagrams *)

Module Scenario.

Import PacketManager.

(** One datagram through the manager: [process_packet] on the header
    sequence with the bytes offered for buffering; on "deliver", the
    datagram itself followed by what [get_ready_packets] hands back. *)
Definition deliver (timestamp : Z) (pkt : list byte) (m : Mgr)
    : list (list byte) * Mgr :=
  let '(ok, m1) := process_packet (Wire.packet_sequence pkt) (Some pkt) timestamp m in
  if ok then
    let '(ready, m2) := get_ready_packets m1 in (pkt :: ready, m2)
  else ([], m1).

(** The ingest loop's variant, which drains after every received datagram
    whether or not it was delivered. *)
Definition deliver_drain_always (timestamp : Z) (pkt : list byte) (m : Mgr)
    : list (list byte) * Mgr :=
  let '(ok, m1) := process_packet (Wire.packet_sequence pkt) (Some pkt) timestamp m in
  let '(ready, m2) := get_ready_packets m1 in
  ((if ok then [pkt] else []) ++ ready, m2).

(** A stream of datagrams, all stamped [timestamp]; the packets handed on,
    in order, and the final manager. *)
Fixpoint feed (step : Z -> list byte -> Mgr -> list (list byte) * Mgr)
    (timestamp : Z) (pkts : list (list byte)) (m : Mgr)
    : list (list byte) * Mgr :=
  match pkts with
  | [] => ([], m)
  | pkt :: rest =>
      let '(out1, m1) := step timestamp pkt m in
      let '(out2, m2) := feed step timestamp rest m1 in
      (out1 ++ out2, m2)
  end.

(** The sequences of the trade packets [feed] hands on for the given input
    sequences, starting from a fresh manager with a callback installed. *)
Definition delivered (step : Z -> list byte -> Mgr -> list (list byte) * Mgr)
    (seqs : list Z) : list Z * Mgr :=
  let '(out, m) := feed step 100 (Wire.trade_packet <$> seqs) (init true) in
  (Wire.packet_sequence <$> out, m).

End Scenario.

(** ** spsc_queue.hpp *)

Module SPSCQueue.

Section Queue.

Context {T : Type} `{Inhabited T}.

(** The template parameter [Size]. *)
Variable Size : Z.

(** [static_assert((Size & (Size - 1)) == 0)] *)
Definition size_is_power_of_2 : Prop := Z.land Size (Size - 1) = 0.

Record Queue : Type := {
  buffer_ : list T;
  write_pos_ : Z;
  read_pos_ : Z;
  cached_read_pos_ : Z;
  cached_write_pos_ : Z
}.

Definition SIZE_MASK : Z := Size - 1.

(** A default-constructed queue; the slots hold indeterminate values. *)
Definition empty_queue : Queue :=
  {| buffer_ := replicate (Z.to_nat Size) inhabitant;
     write_pos_ := 0; read_pos_ := 0;
     cached_read_pos_ := 0; cached_write_pos_ := 0 |}.

Definition slot (pos : Z) : nat := Z.to_nat (Z.land pos SIZE_MASK).

(** [buffer_[current_write & SIZE_MASK] = item; write_pos_.store(next_write)] *)
Definition store (item : T) (q : Queue) : Queue :=
  {| buffer_ := <[slot (write_pos_ q) := item]> (buffer_ q);
     write_pos_ := wrap64 (write_pos_ q + 1);
     read_pos_ := read_pos_ q;
     cached_read_pos_ := cached_read_pos_ q;
     cached_write_pos_ := cached_write_pos_ q |}.

Definition set_cached_read_pos (v : Z) (q : Queue) : Queue :=
  {| buffer_ := buffer_ q; write_pos_ := write_pos_ q; read_pos_ := read_pos_ q;
     cached_read_pos_ := v; cached_write_pos_ := cached_write_pos_ q |}.

Definition set_cached_write_pos (v : Z) (q : Queue) : Queue :=
  {| buffer_ := buffer_ q; write_pos_ := write_pos_ q; read_pos_ := read_pos_ q;
     cached_read_pos_ := cached_read_pos_ q; cached_write_pos_ := v |}.

Definition try_push (item : T) (q : Queue) : bool * Queue :=
  let current_write := write_pos_ q in
  let next_write := wrap64 (current_write + 1) in
  if Size <? wrap64 (next_write - cached_read_pos_ q) then
    let q1 := set_cached_read_pos (read_pos_ q) q in
    if Size <? wrap64 (next_write - cached_read_pos_ q1) then (false, q1)
    else (true, store item q1)
  else (true, store item q).

(** [item = buffer_[current_read & SIZE_MASK]; read_pos_.store(current_read + 1)] *)
Definition load (q : Queue) : option T * Queue :=
  (Some (buffer_ q !!! slot (read_pos_ q)),
   {| buffer_ := buffer_ q; write_pos_ := write_pos_ q;
      read_pos_ := wrap64 (read_pos_ q + 1);
      cached_read_pos_ := cached_read_pos_ q;
      cached_write_pos_ := cached_write_pos_ q |}).

(** [try_pop(T& item)]: [Some item] for [true], [None] for [false]. *)
Definition try_pop (q : Queue) : option T * Queue :=
  let current_read := read_pos_ q in
  if cached_write_pos_ q <=? current_read then
    let q1 := set_cached_write_pos (write_pos_ q) q in
    if cached_write_pos_ q1 <=? current_read then (None, q1)
    else load q1
  else load q.

Definition size (q : Queue) : Z := wrap64 (write_pos_ q - read_pos_ q).
Definition empty (q : Queue) : bool := write_pos_ q <=? read_pos_ q.
Definition capacity : Z := Size.

(** Pushing the items of a list one after the other; the results of the
    calls, in order, and the final queue. *)
Fixpoint push_all (items : list T) (q : Queue) : list bool * Queue :=
  match items with
  | [] => ([], q)
  | x :: rest =>
      let '(ok, q1) := try_push x q in
      let '(oks, q2) := push_all rest q1 in
      (ok :: oks, q2)
  end.

(** A call made by the producer or by the consumer. *)
Inductive QOp : Type := Push (item : T) | Pop.

Definition apply_qop (op : QOp) (q : Queue) : Queue :=
  match op with
  | Push item => (try_push item q).2
  | Pop => (try_pop q).2
  end.

Definition run_qops (ops : list QOp) (q : Queue) : Queue :=
  fold_left (fun acc op => apply_qop op acc) ops q.

(** The positions of a queue in use: the read position is between the
    producer's cached copy and the write position, at most [Size] behind
    the latter; the consumer's cached copy is not ahead of the write
    position; the 64-bit write position has not wrapped; and the storage
    has [Size] slots. *)
Definition ring_inv (q : Queue) : Prop :=
  0 <= cached_read_pos_ q <= read_pos_ q /\
  read_pos_ q <= write_pos_ q <= read_pos_ q + Size /\
  cached_write_pos_ q <= write_pos_ q /\
  write_pos_ q + 1 < 2 ^ 64 /\
  length (buffer_ q) = Z.to_nat Size.

(** The items waiting in the queue, oldest first: the slots of the
    positions [read_pos_], ..., [write_pos_ - 1]. *)
Definition contents (q : Queue) : list T :=
  (fun i => buffer_ q !!! slot (read_pos_ q + Z.of_nat i))
    <$> seq 0 (Z.to_nat (write_pos_ q - read_pos_ q)).

(** A run of producer and consumer calls: the items whose push returned
    [true], the items popped, both in call order, and the final queue. *)
Fixpoint run_log (ops : list QOp) (q : Queue) : list T * list T * Queue :=
  match ops with
  | [] => ([], [], q)
  | Push item :: rest =>
      let '(ok, q1) := try_push item q in
      let '(pushed, popped, q2) := run_log rest q1 in
      ((if ok then item :: pushed else pushed), popped, q2)
  | Pop :: rest =>
      let '(r, q1) := try_pop q in
      let '(pushed, popped, q2) := run_log rest q1 in
      (pushed, (match r with Some x => x :: popped | None => popped end), q2)
  end.

End Queue.

Arguments Queue : clear implicits.

End SPSCQueue.

(** ** udp_receiver.hpp *)

Module UDPReceiver.

(** What [recvfrom(..., MSG_DONTWAIT, ...)] finds on the socket. *)
Inductive Received : Type :=
  | Datagram (bytes : list byte)
  | WouldBlock
  | RecvError.

Definition RECV_BUFFER_SIZE : nat := Z.to_nat 65536.

(** [receive]: the number of bytes, 0 if the call would block, -1 on error;
    with the bytes now in the buffer. *)
Definition receive (max_size : nat) (r : Received) : Z * list byte :=
  match r with
  | Datagram bytes => (Z.of_nat (length (take max_size bytes)), take max_size bytes)
  | WouldBlock => (0, [])
  | RecvError => (-1, [])
  end.

(** [receive_internal]: [buffer_ptr] is set only when bytes were received. *)
Definition receive_internal (r : Received) : Z * option (list byte) :=
  let '(bytes, buf) := receive RECV_BUFFER_SIZE r in
  (bytes, if 0 <? bytes then Some buf else None).

End UDPReceiver.

(** ** feed_handler_impl.hpp *)

Module FeedHandler.

Import PacketManager.

(** The [data] union of [MarketEvent]; [NoData] is the zero-initialised
    union of [MarketEvent event{}]. *)
Inductive EventData : Type :=
  | NoData
  | TradeData (price quantity side : Z)
  | QuoteData (bid_price ask_price bid_size ask_size : Z).

Record MarketEvent : Type := {
  recv_timestamp_ns : Z;
  exchange_timestamp_ns : Z;
  symbol_id : Z;
  type : Z;
  data : EventData
}.

#[global] Instance MarketEvent_inhabited : Inhabited MarketEvent :=
  populate {| recv_timestamp_ns := 0; exchange_timestamp_ns := 0;
              symbol_id := 0; type := 0; data := NoData |}.

Record FeedHandlerStats : Type := {
  packets_received : Z;
  packets_processed : Z;
  packets_dropped : Z;
  sequence_gaps : Z;
  total_latency_ns : Z;
  min_latency_ns : Z;
  max_latency_ns : Z
}.

Definition fh_stats0 : FeedHandlerStats :=
  {| packets_received := 0; packets_processed := 0; packets_dropped := 0;
     sequence_gaps := 0; total_latency_ns := 0;
     min_latency_ns := UINT64_MAX; max_latency_ns := 0 |}.

Definition update_latency (latency_ns : Z) (s : FeedHandlerStats) : FeedHandlerStats :=
  {| packets_received := packets_received s;
     packets_processed := packets_processed s;
     packets_dropped := packets_dropped s;
     sequence_gaps := sequence_gaps s;
     total_latency_ns := wrap64 (total_latency_ns s + latency_ns);
     min_latency_ns := if latency_ns <? min_latency_ns s then latency_ns else min_latency_ns s;
     max_latency_ns := if max_latency_ns s <? latency_ns then latency_ns else max_latency_ns s |}.

Definition add_received (s : FeedHandlerStats) : FeedHandlerStats :=
  {| packets_received := wrap64 (packets_received s + 1);
     packets_processed := packets_processed s;
     packets_dropped := packets_dropped s;
     sequence_gaps := sequence_gaps s;
     total_latency_ns := total_latency_ns s;
     min_latency_ns := min_latency_ns s; max_latency_ns := max_latency_ns s |}.

Definition add_processed (s : FeedHandlerStats) : FeedHandlerStats :=
  {| packets_received := packets_received s;
     packets_processed := wrap64 (packets_processed s + 1);
     packets_dropped := packets_dropped s;
     sequence_gaps := sequence_gaps s;
     total_latency_ns := total_latency_ns s;
     min_latency_ns := min_latency_ns s; max_latency_ns := max_latency_ns s |}.

Definition add_dropped (s : FeedHandlerStats) : FeedHandlerStats :=
  {| packets_received := packets_received s;
     packets_processed := packets_processed s;
     packets_dropped := wrap64 (packets_dropped s + 1);
     sequence_gaps := sequence_gaps s;
     total_latency_ns := total_latency_ns s;
     min_latency_ns := min_latency_ns s; max_latency_ns := max_latency_ns s |}.

Definition add_sequence_gaps (n : Z) (s : FeedHandlerStats) : FeedHandlerStats :=
  {| packets_received := packets_received s;
     packets_processed := packets_processed s;
     packets_dropped := packets_dropped s;
     sequence_gaps := wrap64 (sequence_gaps s + n);
     total_latency_ns := total_latency_ns s;
     min_latency_ns := min_latency_ns s; max_latency_ns := max_latency_ns s |}.

(** The capacity of [SPSCQueue<MarketEvent, 65536>]. *)
Definition QUEUE_SIZE : Z := 65536.

Definition MAINTENANCE_INTERVAL_NS : Z := 100000000.
Definition LOG_INTERVAL_NS : Z := 5000000000.
Definition STATS_INTERVAL : Z := 1000000.

(** The members of [class FeedHandler] that the loop reads or writes, the
    number of time-stamp-counter reads made so far, and what has been
    written to [std::cerr].  Output to [std::cout] and to the asynchronous
    logger is not modelled. *)
Record Handler : Type := {
  event_queue_ : SPSCQueue.Queue MarketEvent;
  stats_ : FeedHandlerStats;
  packet_manager_ : Mgr;
  last_maintenance_time_ : Z;
  last_log_time_ : Z;
  tsc_reads : nat;
  cerr : list string
}.

Definition set_queue (q : SPSCQueue.Queue MarketEvent) (h : Handler) : Handler :=
  {| event_queue_ := q; stats_ := stats_ h; packet_manager_ := packet_manager_ h;
     last_maintenance_time_ := last_maintenance_time_ h;
     last_log_time_ := last_log_time_ h; tsc_reads := tsc_reads h; cerr := cerr h |}.

Definition set_fh_stats (s : FeedHandlerStats) (h : Handler) : Handler :=
  {| event_queue_ := event_queue_ h; stats_ := s; packet_manager_ := packet_manager_ h;
     last_maintenance_time_ := last_maintenance_time_ h;
     last_log_time_ := last_log_time_ h; tsc_reads := tsc_reads h; cerr := cerr h |}.

Definition set_manager (m : Mgr) (h : Handler) : Handler :=
  {| event_queue_ := event_queue_ h; stats_ := stats_ h; packet_manager_ := m;
     last_maintenance_time_ := last_maintenance_time_ h;
     last_log_time_ := last_log_time_ h; tsc_reads := tsc_reads h; cerr := cerr h |}.

Definition set_last_maintenance (t : Z) (h : Handler) : Handler :=
  {| event_queue_ := event_queue_ h; stats_ := stats_ h;
     packet_manager_ := packet_manager_ h;
     last_maintenance_time_ := t;
     last_log_time_ := last_log_time_ h; tsc_reads := tsc_reads h; cerr := cerr h |}.

Definition set_last_log (t : Z) (h : Handler) : Handler :=
  {| event_queue_ := event_queue_ h; stats_ := stats_ h;
     packet_manager_ := packet_manager_ h;
     last_maintenance_time_ := last_maintenance_time_ h;
     last_log_time_ := t; tsc_reads := tsc_reads h; cerr := cerr h |}.

Definition write_cerr (line : string) (h : Handler) : Handler :=
  {| event_queue_ := event_queue_ h; stats_ := stats_ h;
     packet_manager_ := packet_manager_ h;
     last_maintenance_time_ := last_maintenance_time_ h;
     last_log_time_ := last_log_time_ h; tsc_reads := tsc_reads h;
     cerr := cerr h ++ [line] |}.

(** The constructor: a fresh packet manager with the gap-fill callback
    installed. *)
Definition new (queue : SPSCQueue.Queue MarketEvent) (stats : FeedHandlerStats) : Handler :=
  {| event_queue_ := queue; stats_ := stats; packet_manager_ := init true;
     last_maintenance_time_ := 0; last_log_time_ := 0; tsc_reads := O;
     cerr := [] |}.

(** Calls made on [recovery_manager_]. *)
Inductive RecoveryCall : Type :=
  | request_retransmission (start_seq end_seq : Z)
  | request_snapshot.

(** [handle_gap_fill_request], the callback installed by the constructor:
    the calls it makes on the recovery manager. *)
Definition handle_gap_fill_request (call : CallbackCall) : list RecoveryCall :=
  let '(req, st) := call in
  request_retransmission (start_seq req) (end_seq req)
    :: match st with
       | STALE => [request_snapshot]
       | _ => []
       end.

(** All calls made on the recovery manager so far. *)
Definition recovery_calls (h : Handler) : list RecoveryCall :=
  concat (handle_gap_fill_request <$> callback_trace (packet_manager_ h)).

Section Loop.

(** The time-stamp counter: [rdtsc k] is the value returned by the [k]-th
    read ([rdtsc()] or [rdtscp()]) since the handler was constructed. *)
Variable rdtsc : nat -> Z.

(** [LatencyTracker::tsc_to_ns], a floating-point division. *)
Variable tsc_to_ns : Z -> Z.

Definition read_tsc (h : Handler) : Z * Handler :=
  (rdtsc (tsc_reads h),
   {| event_queue_ := event_queue_ h; stats_ := stats_ h;
      packet_manager_ := packet_manager_ h;
      last_maintenance_time_ := last_maintenance_time_ h;
      last_log_time_ := last_log_time_ h; tsc_reads := S (tsc_reads h);
      cerr := cerr h |}).

(** The [switch] of [parse_and_queue_packet]: the normalised event, or
    [None] for a heartbeat or an unknown message type. *)
Definition normalize (packet : list byte) (recv_tsc : Z) : option MarketEvent :=
  let ty := Wire.msg_type packet in
  if ty =? Wire.TRADE then
    Some {| recv_timestamp_ns := recv_tsc;
            exchange_timestamp_ns := Wire.trade_timestamp_ns packet;
            symbol_id := Wire.trade_symbol_id packet;
            type := ty;
            data := TradeData (Wire.trade_price packet)
                              (Wire.trade_quantity packet)
                              (Wire.trade_side packet) |}
  else if ty =? Wire.QUOTE then
    Some {| recv_timestamp_ns := recv_tsc;
            exchange_timestamp_ns := Wire.quote_timestamp_ns packet;
            symbol_id := Wire.quote_symbol_id packet;
            type := ty;
            data := QuoteData (Wire.quote_bid_price packet)
                              (Wire.quote_ask_price packet)
                              (Wire.quote_bid_size packet)
                              (Wire.quote_ask_size packet) |}
  else None.

Definition parse_and_queue_packet (packet : list byte) (recv_tsc : Z)
    (h : Handler) : Handler :=
  match normalize packet recv_tsc with
  | None => h
  | Some event =>
      let '(ok, q) := SPSCQueue.try_push QUEUE_SIZE event (event_queue_ h) in
      let h1 := set_queue q h in
      if ok then
        let '(process_tsc, h2) := read_tsc h1 in
        let latency_ticks := wrap64 (process_tsc - recv_tsc) in
        let latency_ns := tsc_to_ns latency_ticks in
        set_fh_stats (update_latency latency_ns (add_processed (stats_ h2))) h2
      else
        set_fh_stats (add_dropped (stats_ h1)) h1
  end.

Definition process_packet (data : list byte) (recv_tsc : Z) (h : Handler) : Handler :=
  if Z.of_nat (length data) <? Wire.sizeof_MarketDataPacket then h
  else
    let '(should_process, m) :=
      PacketManager.process_packet (Wire.packet_sequence data) (Some data)
                                   recv_tsc (packet_manager_ h) in
    let h1 := set_manager m h in
    let pm_stats := get_stats (packet_manager_ h1) in
    let h2 := if 0 <? duplicates pm_stats
              then set_fh_stats (add_sequence_gaps (duplicates pm_stats) (stats_ h1)) h1
              else h1 in
    if should_process then parse_and_queue_packet data recv_tsc h2 else h2.

Definition process_buffered_packet (data : list byte) (recv_tsc : Z)
    (h : Handler) : Handler :=
  if Z.of_nat (length data) <? Wire.sizeof_MarketDataPacket then h
  else parse_and_queue_packet data recv_tsc h.

(** The periodic-maintenance block at the head of the loop body. *)
Definition maintenance (current_time : Z) (h : Handler) : Handler :=
  if MAINTENANCE_INTERVAL_NS <? wrap64 (current_time - last_maintenance_time_ h) then
    let h1 := set_manager (periodic_maintenance current_time (packet_manager_ h)) h in
    let h2 := set_last_maintenance current_time h1 in
    if LOG_INTERVAL_NS <? wrap64 (current_time - last_log_time_ h2)
    then set_last_log current_time h2
    else h2
  else h.

(** The [bytes_received > 0] branch. *)
Definition on_datagram (buffer : list byte) (h : Handler) : Handler :=
  let '(recv_tsc, h1) := read_tsc h in
  let h2 := set_fh_stats (add_received (stats_ h1)) h1 in
  let h3 := process_packet buffer recv_tsc h2 in
  let '(ready_packets, m) := get_ready_packets (packet_manager_ h3) in
  let h4 := set_manager m h3 in
  fold_left (fun acc packet_data => process_buffered_packet packet_data recv_tsc acc)
            ready_packets h4.

(** How the [while] loop of [run] was left. *)
Inductive Exit : Type :=
  | RunningCleared   (* the loop test found [g_running] false *)
  | ReceiveErrorBreak (* the [break] of the error branch *).

(** One input per iteration: the value [g_running.load()] returns at the
    loop test and what the socket holds at [receive_internal]. *)
Definition LoopInput : Type := (bool * UDPReceiver.Received)%type.

(** An input on which the loop goes round again: [g_running] is set and
    the receive does not fail. *)
Definition continues (i : LoopInput) : Prop :=
  i.1 = true /\ i.2 <> UDPReceiver.RecvError.

(** The [while] loop of [run].  [spin_count] is the local of that name.
    The result is [Some e] when the loop was left, and [None] when the
    inputs ran out with the loop still iterating. *)
Fixpoint run_loop (inputs : list LoopInput) (spin_count : Z) (h : Handler)
    : option Exit * Handler :=
  match inputs with
  | [] => (None, h)
  | (g_running, r) :: rest =>
      if negb g_running then (Some RunningCleared, h)
      else
        let '(current_time, h1) := read_tsc h in
        let h2 := maintenance current_time h1 in
        let '(bytes_received, buffer_ptr) := UDPReceiver.receive_internal r in
        if 0 <? bytes_received then
          run_loop rest spin_count (on_datagram (default [] buffer_ptr) h2)
        else if bytes_received =? 0 then
          run_loop rest (wrap64 (spin_count + 1)) h2
        else
          (Some ReceiveErrorBreak, write_cerr "[FeedHandler] Receive error" h2)
  end.

(** [run]: the two initial clock assignments, then the loop. *)
Definition run (inputs : list LoopInput) (h : Handler) : option Exit * Handler :=
  let '(t, h1) := read_tsc h in
  let h2 := set_last_log t (set_last_maintenance t h1) in
  run_loop inputs 0 h2.

End Loop.

(** The latency statistics after the latencies [ls], oldest first. *)
Definition update_latencies (ls : list Z) (s : FeedHandlerStats) : FeedHandlerStats :=
  fold_left (fun acc latency_ns => update_latency latency_ns acc) ls s.

(** A handler that has so far been fed datagrams in sequence only, the
    next of which is [s], with nobody popping from the queue: [evs] are
    the events queued. *)
Definition in_order_inv (s : Z) (evs : list MarketEvent) (h : Handler) : Prop :=
  let m := packet_manager_ h in
  let q := event_queue_ h in
  (state_ m = INITIAL \/ (state_ m = LIVE /\ next_expected_seq_ m = s)) /\
  pending_gaps_ m = [] /\
  resequence_buffer_ m = ∅ /\
  (forall x, x ∈ recent_seq_set_ m -> x < s) /\
  duplicates (PacketManager.stats_ m) = 0 /\
  callback_trace m = [] /\
  SPSCQueue.ring_inv QUEUE_SIZE q /\
  SPSCQueue.contents QUEUE_SIZE q = evs /\
  SPSCQueue.read_pos_ q = 0 /\
  packets_received (stats_ h) = Z.of_nat (length evs) /\
  packets_processed (stats_ h) = Z.of_nat (length evs) /\
  packets_dropped (stats_ h) = 0 /\
  sequence_gaps (stats_ h) = 0.

End FeedHandler.

(** ** trading_engine.hpp *)

Module TradingEngine.

(** The members of [class TradingEngine] that the loop reads or writes.
    Output to [std::cout] and the latency computed for it are not
    modelled. *)
Record Engine : Type := {
  event_queue_ : SPSCQueue.Queue FeedHandler.MarketEvent;
  last_bid_ : Z;
  last_ask_ : Z
}.

Definition set_queue (q : SPSCQueue.Queue FeedHandler.MarketEvent) (e : Engine) : Engine :=
  {| event_queue_ := q; last_bid_ := last_bid_ e; last_ask_ := last_ask_ e |}.

(** The handlers read one member of the [data] union.  The result is
    [None] when that member is not the one the event was built with. *)
Definition handle_trade (event : FeedHandler.MarketEvent) (e : Engine) : option Engine :=
  match FeedHandler.data event with
  | FeedHandler.TradeData _ _ _ => Some e
  | _ => None
  end.

Definition handle_quote (event : FeedHandler.MarketEvent) (e : Engine) : option Engine :=
  match FeedHandler.data event with
  | FeedHandler.QuoteData bid_price ask_price _ _ =>
      Some {| event_queue_ := event_queue_ e;
              last_bid_ := bid_price; last_ask_ := ask_price |}
  | _ => None
  end.

Definition process_event (event : FeedHandler.MarketEvent) (e : Engine) : option Engine :=
  if FeedHandler.type event =? Wire.TRADE then handle_trade event e
  else if FeedHandler.type event =? Wire.QUOTE then handle_quote event e
  else Some e.

(** How far the [while] loop of [run] has come: left because [g_running]
    was found false, still iterating when the inputs ran out, or stuck in
    a handler that read the wrong member of the union.  The number is the
    local [events_processed]. *)
Inductive Outcome : Type :=
  | Stopped (events_processed : Z) (e : Engine)
  | Iterating (events_processed : Z) (e : Engine)
  | WrongMember.

(** The [while] loop of [run]; one value of [g_running.load()] per
    iteration. *)
Fixpoint run_loop (running : list bool) (events_processed : Z) (e : Engine) : Outcome :=
  match running with
  | [] => Iterating events_processed e
  | g_running :: rest =>
      if negb g_running then Stopped events_processed e
      else
        let '(popped, q) := SPSCQueue.try_pop FeedHandler.QUEUE_SIZE (event_queue_ e) in
        let e1 := set_queue q e in
        match popped with
        | Some event =>
            match process_event event e1 with
            | Some e2 => run_loop rest (wrap64 (events_processed + 1)) e2
            | None => WrongMember
            end
        | None => run_loop rest events_processed e1
        end
  end.

Definition run (running : list bool) (e : Engine) : Outcome := run_loop running 0 e.

(** An event whose [data] is the member that goes with its [type]. *)
Definition well_typed (event : FeedHandler.MarketEvent) : Prop :=
  (FeedHandler.type event = Wire.TRADE ->
     exists price quantity side,
       FeedHandler.data event = FeedHandler.TradeData price quantity side) /\
  (FeedHandler.type event = Wire.QUOTE ->
     exists bid ask bid_size ask_size,
       FeedHandler.data event = FeedHandler.QuoteData bid ask bid_size ask_size).

Definition is_quote (event : FeedHandler.MarketEvent) : bool :=
  FeedHandler.type event =? Wire.QUOTE.

(** Bid and ask of a quote event. *)
Definition quote_prices (event : FeedHandler.MarketEvent) : Z * Z :=
  match FeedHandler.data event with
  | FeedHandler.QuoteData bid ask _ _ => (bid, ask)
  | _ => (0, 0)
  end.

(** The prices of the last quote among [evs], or [start] when there is
    none. *)
Definition last_quote (evs : list FeedHandler.MarketEvent) (start : Z * Z) : Z * Z :=
  match last (List.filter is_quote evs) with
  | Some event => quote_prices event
  | None => start
  end.

End TradingEngine.

(** ** memory_pool.hpp *)

Module MemoryPool.

(** A pointer is its address, [nullptr] is 0.  [memory] holds the
    pointer-sized word at the start of each block that has been written:
    the [next] member of the [FreeNode] embedded there, or the first word
    of the object a client has constructed in the block. *)
Definition nullptr : Z := 0.

Record Pool : Type := {
  memory_block_ : Z;
  free_list_ : Z;
  memory : gmap Z Z;
  allocations_ : Z;
  deallocations_ : Z;
  alloc_failures_ : Z;
  object_size_ : Z;
  aligned_size_ : Z;
  total_size_ : Z
}.

Record Stats : Type := {
  allocations : Z;
  deallocations : Z;
  failures : Z;
  in_use : Z
}.

Definition sizeof_FreeNode : Z := 8.

(** [align_size]: [(size + alignment - 1) & ~(alignment - 1)] in
    [size_t]. *)
Definition alignment : Z := 64.

Definition align_size (size : Z) : Z :=
  Z.land (wrap64 (size + alignment - 1)) (wrap64 (Z.lnot (alignment - 1))).

Definition set_free_list (head : Z) (p : Pool) : Pool :=
  {| memory_block_ := memory_block_ p; free_list_ := head; memory := memory p;
     allocations_ := allocations_ p; deallocations_ := deallocations_ p;
     alloc_failures_ := alloc_failures_ p; object_size_ := object_size_ p;
     aligned_size_ := aligned_size_ p; total_size_ := total_size_ p |}.

(** A store of the word [v] at address [ptr]. *)
Definition store (ptr v : Z) (p : Pool) : Pool :=
  {| memory_block_ := memory_block_ p; free_list_ := free_list_ p;
     memory := <[ptr := v]> (memory p);
     allocations_ := allocations_ p; deallocations_ := deallocations_ p;
     alloc_failures_ := alloc_failures_ p; object_size_ := object_size_ p;
     aligned_size_ := aligned_size_ p; total_size_ := total_size_ p |}.

(** A load of the word at [ptr]; memory never written reads as 0. *)
Definition load (ptr : Z) (p : Pool) : Z := default 0 (memory p !! ptr).

Definition inc_allocations (p : Pool) : Pool :=
  {| memory_block_ := memory_block_ p; free_list_ := free_list_ p; memory := memory p;
     allocations_ := wrap64 (allocations_ p + 1); deallocations_ := deallocations_ p;
     alloc_failures_ := alloc_failures_ p; object_size_ := object_size_ p;
     aligned_size_ := aligned_size_ p; total_size_ := total_size_ p |}.

Definition inc_deallocations (p : Pool) : Pool :=
  {| memory_block_ := memory_block_ p; free_list_ := free_list_ p; memory := memory p;
     allocations_ := allocations_ p; deallocations_ := wrap64 (deallocations_ p + 1);
     alloc_failures_ := alloc_failures_ p; object_size_ := object_size_ p;
     aligned_size_ := aligned_size_ p; total_size_ := total_size_ p |}.

Definition inc_alloc_failures (p : Pool) : Pool :=
  {| memory_block_ := memory_block_ p; free_list_ := free_list_ p; memory := memory p;
     allocations_ := allocations_ p; deallocations_ := deallocations_ p;
     alloc_failures_ := wrap64 (alloc_failures_ p + 1); object_size_ := object_size_ p;
     aligned_size_ := aligned_size_ p; total_size_ := total_size_ p |}.

(** The loop of [initialize_free_list], [i] counting down from
    [PoolSize]: the head of the list and the memory after it. *)
Fixpoint link_blocks (i : nat) (block aligned head : Z) (mem : gmap Z Z)
    : Z * gmap Z Z :=
  match i with
  | O => (head, mem)
  | S i' =>
      let node := block + wrap64 (Z.of_nat i' * aligned) in
      link_blocks i' block aligned node (<[node := head]> mem)
  end.

Section Pool.

(** [sizeof(T)] and the template parameter [PoolSize]. *)
Variable sizeof_T : Z.
Variable PoolSize : nat.

(** The constructor; [block] is the address that [allocate_normal] or
    [allocate_huge_pages] has obtained for [memory_block_]. *)
Definition init (block : Z) : Pool :=
  let aligned := align_size (Z.max sizeof_T sizeof_FreeNode) in
  let '(head, mem) := link_blocks PoolSize block aligned nullptr ∅ in
  {| memory_block_ := block; free_list_ := head; memory := mem;
     allocations_ := 0; deallocations_ := 0; alloc_failures_ := 0;
     object_size_ := sizeof_T; aligned_size_ := aligned;
     total_size_ := wrap64 (aligned * Z.of_nat PoolSize) |}.

End Pool.

(** [allocate], called from one thread: the compare-and-swap finds the
    head it has just loaded. *)
Definition allocate (p : Pool) : Z * Pool :=
  let p1 := inc_allocations p in
  let old_head := free_list_ p1 in
  if old_head =? nullptr then (nullptr, inc_alloc_failures p1)
  else
    let new_head := load old_head p1 in
    (old_head, set_free_list new_head p1).

(** [construct]: the placement new writes the object into the block; [v]
    is the first word of the object. *)
Definition construct (v : Z) (p : Pool) : Z * Pool :=
  let '(ptr, p1) := allocate p in
  if ptr =? nullptr then (nullptr, p1)
  else (ptr, store ptr v p1).

Definition deallocate (ptr : Z) (p : Pool) : Pool :=
  if ptr =? nullptr then p
  else
    let p1 := inc_deallocations p in
    let old_head := free_list_ p1 in
    set_free_list ptr (store ptr old_head p1).

(** [destroy], for a [T] whose destructor does nothing. *)
Definition destroy (ptr : Z) (p : Pool) : Pool :=
  if ptr =? nullptr then p else deallocate ptr p.

Definition get_stats (p : Pool) : Stats :=
  {| allocations := allocations_ p;
     deallocations := deallocations_ p;
     failures := alloc_failures_ p;
     in_use := wrap64 (allocations_ p - deallocations_ p) |}.

Definition owns (ptr : Z) (p : Pool) : bool :=
  (memory_block_ p <=? ptr) && (ptr <? memory_block_ p + total_size_ p).

(** The addresses of the blocks [i], ..., [i + n - 1]. *)
Definition blocks (block aligned : Z) (i n : nat) : list Z :=
  (fun j => block + Z.of_nat j * aligned) <$> seq i n.

(** The free list as a list of addresses: [head], [head->next], ... up
    to the null pointer. *)
Fixpoint chain (mem : gmap Z Z) (head : Z) (l : list Z) : Prop :=
  match l with
  | [] => head = nullptr
  | a :: l' => head = a /\ a <> nullptr /\ chain mem (default 0 (mem !! a)) l'
  end.

(** A call made by a client that returns only blocks it holds:
    [Release i] hands the [i]-th of the pointers it holds, newest first,
    to [destroy]. *)
Inductive Call : Type :=
  | Allocate
  | Construct (v : Z)
  | Release (i : nat).

(** The pool and the pointers the client holds. *)
Definition step (c : Call) (st : Pool * list Z) : Pool * list Z :=
  let '(p, held) := st in
  match c with
  | Allocate =>
      let '(ptr, p') := allocate p in
      (p', if ptr =? nullptr then held else ptr :: held)
  | Construct v =>
      let '(ptr, p') := construct v p in
      (p', if ptr =? nullptr then held else ptr :: held)
  | Release i =>
      match held !! i with
      | Some ptr => (destroy ptr p, delete i held)
      | None => (p, held)
      end
  end.

Definition run (cs : list Call) (st : Pool * list Z) : Pool * list Z :=
  fold_left (fun acc c => step c acc) cs st.

(** The invariant of a pool and the pointers handed out: the free list
    and the pointers held are, together, the blocks of the pool, each
    once; and the counters count. *)
Definition pool_inv (PoolSize : nat) (calls : Z) (st : Pool * list Z) : Prop :=
  let '(p, held) := st in
  exists free,
    chain (memory p) (free_list_ p) free /\
    free ++ held ≡ₚ blocks (memory_block_ p) (aligned_size_ p) 0 PoolSize /\
    0 <= alloc_failures_ p /\ 0 <= deallocations_ p /\
    allocations_ p <= calls /\
    allocations_ p - alloc_failures_ p - deallocations_ p = Z.of_nat (length held).

End MemoryPool.

(** ** test_feed_generator.cpp *)

Module TestFeedGenerator.

(** [create_market_packet], as the bytes [send_packet] puts on the wire
    ([sizeof(packet)] bytes of the struct).  [tsc] is the value read from
    the time-stamp counter, and [r1], [r2], [r3] are the three values
    drawn from [rng_], in order.  'B' is 66 and 'S' is 83. *)
Definition create_market_packet (seq tsc r1 r2 r3 : Z) : list byte :=
  Wire.packet Wire.TRADE 1 seq
    (Wire.trade_payload tsc seq 12345 seq
       (1500000 + r1 mod 10000)
       (100 + r2 mod 1000)
       (if r3 mod 2 =? 0 then 66 else 83)).

End TestFeedGenerator.

(** ** Example states *)

Module Examples.

Import PacketManager.

(** Live, [next_expected] = 3. *)
Definition live_after_1_2 : Mgr :=
  run_ops [OpPacket 1 None 0; OpPacket 2 None 0] (init true).

(** Recovering, the request (3,4) pending, 5 seen but not buffered. *)
Definition recovering_after_1_2_5 : Mgr :=
  run_ops [OpPacket 1 None 0; OpPacket 2 None 0; OpPacket 5 None 0] (init true).

(** 1,2,5,6,8,3,4 without draining: the packets of 5, 6 and 8 are buffered
    and [next_expected] = 5. *)
Definition buffered_5_6_8 : Mgr :=
  run_ops ((fun s => OpPacket s (Some (Wire.trade_packet s)) 100)
             <$> [1; 2; 5; 6; 8; 3; 4])
          (init true).

(** The sequences 1, 2, ..., 10000. *)
Definition ten_thousand_more : list Z :=
  Z.of_nat <$> seq 1 (Z.to_nat DUPLICATE_WINDOW_SIZE).

(** A trade datagram cut off right after its 40-byte payload. *)
Definition short_trade : list byte :=
  Wire.short_packet Wire.TRADE 1 5 (Wire.trade_payload 0 5 7 5 1000000 100 66).

(** A quote event, and an engine whose queue holds just that event. *)
Definition quote_event : FeedHandler.MarketEvent :=
  {| FeedHandler.recv_timestamp_ns := 0; FeedHandler.exchange_timestamp_ns := 0;
     FeedHandler.symbol_id := 1; FeedHandler.type := Wire.QUOTE;
     FeedHandler.data := FeedHandler.QuoteData 100 101 5 5 |}.

Definition engine_with_quote : TradingEngine.Engine :=
  {| TradingEngine.event_queue_ :=
       (SPSCQueue.try_push FeedHandler.QUEUE_SIZE quote_event
          (SPSCQueue.empty_queue FeedHandler.QUEUE_SIZE)).2;
     TradingEngine.last_bid_ := 0; TradingEngine.last_ask_ := 0 |}.

(** A handler on an empty queue. *)
Definition fresh_handler : FeedHandler.Handler :=
  FeedHandler.new (SPSCQueue.empty_queue FeedHandler.QUEUE_SIZE)
                  FeedHandler.fh_stats0.

End Examples.

(** * Properties *)

Import PacketManager.

(** ** 64-bit arithmetic *)

Lemma wrap64_add_l a b : wrap64 (wrap64 a + b) = wrap64 (a + b).
Proof. unfold wrap64. apply Zplus_mod_idemp_l. Qed.

(** ** The drain loop of [get_ready_packets] *)

Section Drain.

Implicit Types (m : Mgr) (ready : list (list byte)).

Lemma run_keys_length nx n : length (run_keys nx n) = n.
Proof. revert nx; induction n as [|n IH]; intros nx; simpl; [done|by rewrite IH]. Qed.

Lemma run_keys_lookup nx n i :
  is_u64 nx -> (i < n)%nat ->
  run_keys nx n !! i = Some (wrap64 (nx + Z.of_nat i)).
Proof.
  revert nx i; induction n as [|n IH]; intros nx i Hnx Hi; [lia|].
  destruct i as [|i]; simpl.
  - rewrite Z.add_0_r, wrap64_small by exact Hnx. done.
  - rewrite IH by (try apply wrap64_range; lia).
    rewrite wrap64_add_l. do 2 f_equal. lia.
Qed.

(** Fuel beyond the size of the buffer is never used. *)
Lemma drain_loop_fuel fuel1 : forall fuel2 m ready,
  (size (resequence_buffer_ m) <= fuel1)%nat ->
  (size (resequence_buffer_ m) <= fuel2)%nat ->
  drain_loop fuel1 m ready = drain_loop fuel2 m ready.
Proof.
  induction fuel1 as [|f1 IH]; intros [|f2] m ready H1 H2; simpl; try done.
  - assert (resequence_buffer_ m = ∅) as -> by (apply map_size_empty_inv; lia).
    rewrite bool_decide_eq_true_2; done.
  - assert (resequence_buffer_ m = ∅) as -> by (apply map_size_empty_inv; lia).
    rewrite bool_decide_eq_true_2; done.
  - case_bool_decide as Hne; [done|].
    destruct (resequence_buffer_ m !! next_expected_seq_ m) as [pkt|] eqn:Hl; [|done].
    apply IH; simpl; rewrite map_size_delete, Hl; lia.
Qed.

Lemma drain_post_nil m :
  resequence_buffer_ m !! next_expected_seq_ m = None ->
  is_u64 (next_expected_seq_ m) ->
  is_u64 (resequenced (stats_ m)) ->
  drain_post m m [].
Proof.
  intros Hl Hnx Hrs. split; simpl.
  - constructor.
  - exact Hl.
  - intros k. done.
  - rewrite Z.add_0_r, wrap64_small; done.
  - rewrite Z.add_0_r, wrap64_small; done.
  - repeat split.
Qed.

Lemma drain_loop_post fuel : forall m ready,
  (size (resequence_buffer_ m) <= fuel)%nat ->
  is_u64 (next_expected_seq_ m) ->
  is_u64 (resequenced (stats_ m)) ->
  exists pkts,
    (drain_loop fuel m ready).1 = ready ++ pkts /\
    drain_post m (drain_loop fuel m ready).2 pkts.
Proof.
  induction fuel as [|fuel IH]; intros m ready Hsz Hnx Hrs; simpl.
  - exists []. rewrite app_nil_r. split; [done|].
    apply drain_post_nil; try done.
    assert (resequence_buffer_ m = ∅) as -> by (apply map_size_empty_inv; lia).
    apply lookup_empty.
  - case_bool_decide as Hne.
    { exists []. simpl. rewrite app_nil_r. split; [done|].
      apply drain_post_nil; try done. rewrite Hne. apply lookup_empty. }
    destruct (resequence_buffer_ m !! next_expected_seq_ m) as [pkt|] eqn:Hl.
    2:{ exists []. simpl. rewrite app_nil_r. split; [done|].
        apply drain_post_nil; done. }
    set (m3 := bump inc_resequenced _).
    destruct (IH m3 (ready ++ [pkt])) as (pkts & Hout & Hp).
    { subst m3; simpl. rewrite map_size_delete, Hl. lia. }
    { subst m3; simpl. apply wrap64_range. }
    { subst m3; simpl. apply wrap64_range. }
    exists (pkt :: pkts). split.
    { rewrite Hout, <- app_assoc. done. }
    destruct Hp as [Hf Hs Hr Hn Hc Hfr]. subst m3; simpl in *.
    split; simpl.
    + constructor; [done|].
      eapply Forall2_impl; [exact Hf|]. simpl. intros k p Hk.
      apply lookup_delete_Some in Hk. tauto.
    + exact Hs.
    + intros k. rewrite Hr. rewrite lookup_delete.
      destruct (decide (k = next_expected_seq_ m)) as [->|Hk].
      * rewrite (bool_decide_eq_true_2 (_ ∈ _ :: _)) by (left).
        rewrite decide_True by done. by case_bool_decide.
      * rewrite decide_False by done.
        apply (f_equal (fun b : bool => if b then None else resequence_buffer_ m !! k)).
        apply bool_decide_ext. rewrite elem_of_cons. tauto.
    + rewrite Hn, wrap64_add_l. f_equal. lia.
    + rewrite Hc, wrap64_add_l. f_equal. lia.
    + exact Hfr.
Qed.

(** C7. Drain correctness.  For every manager state (with [next_expected_seq_]
    and the [resequenced] counter in the 64-bit range), [get_ready_packets]
    returns, in order, the packets stored under [next_expected],
    [next_expected+1], ... (64-bit arithmetic); it stops at a sequence that
    is missing; the returned entries are erased and every other entry is
    unchanged; [next_expected] and [resequenced] advance by the number
    returned; nothing else changes.  When sequence 0 is not buffered the
    run does not wrap, so the sequences are ascending as integers and the
    run is maximal in the buffer the call started from.  The loop needs no
    more than [size resequence_buffer_] iterations. *)
Theorem get_ready_packets_drains_run (m : Mgr) :
  is_u64 (next_expected_seq_ m) ->
  is_u64 (resequenced (stats_ m)) ->
  let ready := (get_ready_packets m).1 in
  let m' := (get_ready_packets m).2 in
  let nx := next_expected_seq_ m in
  let n := length ready in
  (forall i, (i < n)%nat ->
     is_Some (ready !! i) /\
     ready !! i = resequence_buffer_ m !! wrap64 (nx + Z.of_nat i)) /\
  resequence_buffer_ m' !! next_expected_seq_ m' = None /\
  (forall i, (i < n)%nat ->
     resequence_buffer_ m' !! wrap64 (nx + Z.of_nat i) = None) /\
  (forall k, (forall i, (i < n)%nat -> k <> wrap64 (nx + Z.of_nat i)) ->
     resequence_buffer_ m' !! k = resequence_buffer_ m !! k) /\
  next_expected_seq_ m' = wrap64 (nx + Z.of_nat n) /\
  resequenced (stats_ m') = wrap64 (resequenced (stats_ m) + Z.of_nat n) /\
  (state_ m' = state_ m /\ highest_seq_seen_ m' = highest_seq_seen_ m /\
   recent_sequences_ m' = recent_sequences_ m /\
   recent_seq_set_ m' = recent_seq_set_ m /\
   pending_gaps_ m' = pending_gaps_ m /\
   gap_fill_callback_ m' = gap_fill_callback_ m /\
   callback_trace m' = callback_trace m /\
   total_packets (stats_ m') = total_packets (stats_ m) /\
   duplicates (stats_ m') = duplicates (stats_ m) /\
   gaps_detected (stats_ m') = gaps_detected (stats_ m) /\
   gaps_filled (stats_ m') = gaps_filled (stats_ m) /\
   out_of_order (stats_ m') = out_of_order (stats_ m) /\
   dropped_overflow (stats_ m') = dropped_overflow (stats_ m)) /\
  (resequence_buffer_ m !! 0 = None ->
     nx + Z.of_nat n <= 2 ^ 64 /\
     resequence_buffer_ m !! wrap64 (nx + Z.of_nat n) = None) /\
  (forall fuel, (size (resequence_buffer_ m) <= fuel)%nat ->
     drain_loop fuel m [] = get_ready_packets m).
Proof.
  intros Hnx Hrs ready m' nx n.
  destruct (drain_loop_post (size (resequence_buffer_ m)) m [] (le_n _) Hnx Hrs)
    as (pkts & Hout & [Hf Hs Hr Hn Hc Hfr]).
  fold (get_ready_packets m) in *. simpl in Hout.
  fold ready in Hout. fold m' in Hs, Hr, Hn, Hc, Hfr. fold nx in Hf, Hr, Hn.
  subst pkts. fold n in Hf, Hr, Hn, Hc.
  assert (Hkey : forall i, (i < n)%nat ->
             run_keys nx n !! i = Some (wrap64 (nx + Z.of_nat i))).
  { intros i Hi. by apply run_keys_lookup. }
  assert (Hfound : forall i, (i < n)%nat ->
     is_Some (ready !! i) /\
     ready !! i = resequence_buffer_ m !! wrap64 (nx + Z.of_nat i)).
  { intros i Hi. destruct (lookup_lt_is_Some_2 ready i Hi) as [p Hp].
    split; [by exists p|].
    rewrite Hp. symmetry.
    exact (Forall2_lookup_lr _ _ _ _ _ _ Hf (Hkey i Hi) Hp). }
  assert (Hin : forall k, k ∈ run_keys nx n <->
                  exists i, (i < n)%nat /\ k = wrap64 (nx + Z.of_nat i)).
  { intros k. rewrite list_elem_of_lookup. split.
    - intros [i Hi]. assert (i < n)%nat as Hlt.
      { apply lookup_lt_Some in Hi. by rewrite run_keys_length in Hi. }
      exists i. split; [done|]. rewrite Hkey in Hi by done. congruence.
    - intros (i & Hi & ->). exists i. by apply Hkey. }
  assert (Hnowrap : resequence_buffer_ m !! 0 = None -> nx + Z.of_nat n <= 2 ^ 64).
  { intros H0. destruct (Z_le_gt_dec (nx + Z.of_nat n) (2 ^ 64)) as [|Hgt]; [done|].
    exfalso. unfold is_u64 in Hnx. fold nx in Hnx.
    destruct (Hfound (Z.to_nat (2 ^ 64 - nx))) as [[p Hp] He]; [lia|].
    rewrite Hp in He.
    replace (nx + Z.of_nat (Z.to_nat (2 ^ 64 - nx))) with (1 * 2 ^ 64) in He by lia.
    unfold wrap64 in He. rewrite Z.mod_mul in He by lia. congruence. }
  split; [exact Hfound|]. split; [exact Hs|].
  split.
  { intros i Hi. rewrite Hr, bool_decide_eq_true_2; [done|].
    apply Hin. eauto. }
  split.
  { intros k Hk. rewrite Hr, bool_decide_eq_false_2; [done|].
    rewrite Hin. intros (i & Hi & ->). by apply (Hk i). }
  split; [exact Hn|]. split; [exact Hc|]. split; [exact Hfr|].
  split.
  - intros H0. specialize (Hnowrap H0). split; [done|].
    destruct (Z.eq_dec (nx + Z.of_nat n) (2 ^ 64)) as [He|Hne].
    + rewrite He. replace (2 ^ 64) with (1 * 2 ^ 64) by lia.
      unfold wrap64. rewrite Z.mod_mul by lia. exact H0.
    + rewrite <- Hn, <- Hs, Hr, bool_decide_eq_false_2; [done|].
      rewrite Hin. intros (i & Hi & Heq). rewrite Hn in Heq.
      unfold is_u64 in Hnx. fold nx in Hnx.
      rewrite !wrap64_small in Heq by lia. lia.
  - intros fuel Hfuel. unfold get_ready_packets.
    apply drain_loop_fuel; [done|lia].
Qed.

End Drain.

(** ** Scenario 3: a gap closed by in-band arrivals *)

(** C1. The input 1,2,5,3,4,6 from the Initial state, draining after each
    deliver: the sequences handed on are 1,2,3,4,5,6 and the counters
    gaps_detected, out_of_order and resequenced are 1, as specified; but
    the request (3,4) is still pending, [gaps_filled] is 0 and the feed is
    left in RECOVERING, where the specification has 1 and Live.  The same
    holds when draining after every datagram, as the ingest loop does.
    (See [in_sequence_arrival_keeps_requests] and
    [recovering_has_request_reachable] for the general behaviour.) *)
Theorem in_band_fill_leaves_feed_recovering :
  let '(out, m) := Scenario.delivered Scenario.deliver [1; 2; 5; 3; 4; 6] in
  out = [1; 2; 3; 4; 5; 6] /\
  gaps_detected (stats_ m) = 1 /\
  out_of_order (stats_ m) = 1 /\
  resequenced (stats_ m) = 1 /\
  gaps_filled (stats_ m) = 0 /\
  state_ m = RECOVERING /\
  pending_gaps_ m = [ {| start_seq := 3; end_seq := 4;
                         request_time_ns := 100; retry_count := 0 |} ] /\
  Scenario.delivered Scenario.deliver_drain_always [1; 2; 5; 3; 4; 6] = (out, m).
Proof. vm_compute. repeat split. Qed.

(** ** What each helper leaves alone *)

Section Frames.

Implicit Types (m : Mgr) (data : option (list byte)).

Lemma invoke_callback_state req m : state_ (invoke_callback req m) = state_ m.
Proof. unfold invoke_callback. by destruct (gap_fill_callback_ m). Qed.

Lemma invoke_callback_next req m :
  next_expected_seq_ (invoke_callback req m) = next_expected_seq_ m.
Proof. unfold invoke_callback. by destruct (gap_fill_callback_ m). Qed.

Lemma invoke_callback_pending req m :
  pending_gaps_ (invoke_callback req m) = pending_gaps_ m.
Proof. unfold invoke_callback. by destruct (gap_fill_callback_ m). Qed.

Lemma invoke_callback_cb req m :
  gap_fill_callback_ (invoke_callback req m) = gap_fill_callback_ m.
Proof. unfold invoke_callback. by destruct (gap_fill_callback_ m) eqn:E. Qed.

Lemma invoke_callback_trace req m :
  callback_trace (invoke_callback req m) =
    callback_trace m ++ (if gap_fill_callback_ m then [(req, state_ m)] else []).
Proof.
  unfold invoke_callback. destruct (gap_fill_callback_ m); simpl; [done|].
  by rewrite app_nil_r.
Qed.

Lemma mark_seen_state s m : state_ (mark_seen s m) = state_ m.
Proof. unfold mark_seen. repeat case_match; reflexivity. Qed.

Lemma mark_seen_next s m : next_expected_seq_ (mark_seen s m) = next_expected_seq_ m.
Proof. unfold mark_seen. repeat case_match; reflexivity. Qed.

Lemma mark_seen_trace s m : callback_trace (mark_seen s m) = callback_trace m.
Proof. unfold mark_seen. repeat case_match; reflexivity. Qed.

Lemma mark_seen_pending s m : pending_gaps_ (mark_seen s m) = pending_gaps_ m.
Proof. unfold mark_seen. repeat case_match; reflexivity. Qed.

Lemma mark_seen_buffer s m : resequence_buffer_ (mark_seen s m) = resequence_buffer_ m.
Proof. unfold mark_seen. repeat case_match; reflexivity. Qed.

Lemma mark_seen_stats s m : stats_ (mark_seen s m) = stats_ m.
Proof. unfold mark_seen. repeat case_match; reflexivity. Qed.

Lemma mark_seen_cb s m : gap_fill_callback_ (mark_seen s m) = gap_fill_callback_ m.
Proof. unfold mark_seen. repeat case_match; reflexivity. Qed.

Lemma buffer_if_data_state s data m : state_ (buffer_if_data s data m) = state_ m.
Proof. unfold buffer_if_data, buffer_packet. repeat case_match; reflexivity. Qed.

Lemma buffer_if_data_next s data m :
  next_expected_seq_ (buffer_if_data s data m) = next_expected_seq_ m.
Proof. unfold buffer_if_data, buffer_packet. repeat case_match; reflexivity. Qed.

Lemma buffer_if_data_window s data m :
  recent_sequences_ (buffer_if_data s data m) = recent_sequences_ m /\
  recent_seq_set_ (buffer_if_data s data m) = recent_seq_set_ m.
Proof. unfold buffer_if_data, buffer_packet. repeat case_match; split; reflexivity. Qed.

Lemma buffer_if_data_pending s data m :
  pending_gaps_ (buffer_if_data s data m) = pending_gaps_ m.
Proof. unfold buffer_if_data, buffer_packet. repeat case_match; reflexivity. Qed.

Lemma buffer_if_data_trace s data m :
  callback_trace (buffer_if_data s data m) = callback_trace m.
Proof. unfold buffer_if_data, buffer_packet. repeat case_match; reflexivity. Qed.

Lemma buffer_if_data_cb s data m :
  gap_fill_callback_ (buffer_if_data s data m) = gap_fill_callback_ m.
Proof. unfold buffer_if_data, buffer_packet. repeat case_match; reflexivity. Qed.

Lemma buffer_if_data_duplicates s data m :
  duplicates (stats_ (buffer_if_data s data m)) = duplicates (stats_ m).
Proof. unfold buffer_if_data, buffer_packet. repeat case_match; reflexivity. Qed.

Lemma process_gap_fill_next s e m :
  next_expected_seq_ (process_gap_fill s e m) = next_expected_seq_ m.
Proof. unfold process_gap_fill. simpl. repeat case_match; reflexivity. Qed.

Lemma process_gap_fill_buffer s e m :
  resequence_buffer_ (process_gap_fill s e m) = resequence_buffer_ m.
Proof. unfold process_gap_fill. simpl. repeat case_match; reflexivity. Qed.

Lemma process_gap_fill_window s e m :
  recent_sequences_ (process_gap_fill s e m) = recent_sequences_ m /\
  recent_seq_set_ (process_gap_fill s e m) = recent_seq_set_ m.
Proof. unfold process_gap_fill. simpl. repeat case_match; split; reflexivity. Qed.

Lemma process_gap_fill_duplicates s e m :
  duplicates (stats_ (process_gap_fill s e m)) = duplicates (stats_ m).
Proof. unfold process_gap_fill. simpl. repeat case_match; reflexivity. Qed.

Lemma process_gap_fill_stale s e m :
  state_ m = STALE -> state_ (process_gap_fill s e m) = STALE.
Proof.
  intros Hs. unfold process_gap_fill. simpl. rewrite Hs.
  by destruct (List.filter _ _).
Qed.

Lemma maintenance_loop_next t gaps : forall m,
  next_expected_seq_ (maintenance_loop t gaps m).2 = next_expected_seq_ m.
Proof.
  induction gaps as [|g gaps IH]; intros m; simpl; [done|].
  repeat case_match; simpl;
    repeat match goal with
           | H : maintenance_loop _ _ ?x = _ |- _ =>
               pose proof (IH x) as Hx; rewrite H in Hx; simpl in Hx; clear H
           end;
    rewrite ?Hx, ?invoke_callback_next; done.
Qed.

Lemma maintenance_loop_stale t gaps : forall m,
  state_ m = STALE -> state_ (maintenance_loop t gaps m).2 = STALE.
Proof.
  induction gaps as [|g gaps IH]; intros m Hs; simpl; [done|].
  repeat case_match; simpl;
    match goal with
    | H : maintenance_loop _ _ ?x = _ |- _ =>
        let Hx := fresh in
        assert (state_ x = STALE) as Hx
          by (rewrite ?invoke_callback_state; done);
        apply IH in Hx; rewrite H in Hx; exact Hx
    end.
Qed.

Lemma maintenance_loop_state t gaps : forall m,
  state_ (maintenance_loop t gaps m).2 = state_ m \/
  state_ (maintenance_loop t gaps m).2 = STALE.
Proof.
  induction gaps as [|g gaps IH]; intros m; simpl; [by left|].
  repeat case_match; simpl;
    match goal with
    | H : maintenance_loop _ _ ?x = _ |- _ =>
        let Hx := fresh in
        destruct (IH x) as [Hx|Hx]; rewrite H in Hx; simpl in Hx;
        rewrite ?invoke_callback_state in Hx; simpl in Hx; tauto
    end.
Qed.

Lemma drain_loop_post_frame fuel : forall m ready,
  state_ (drain_loop fuel m ready).2 = state_ m /\
  pending_gaps_ (drain_loop fuel m ready).2 = pending_gaps_ m.
Proof.
  induction fuel as [|fuel IH]; intros m ready; simpl; [done|].
  repeat case_match; simpl; try done.
  match goal with |- context [drain_loop fuel ?x ?r] => destruct (IH x r) as [-> ->] end.
  done.
Qed.

Lemma periodic_maintenance_next t m :
  next_expected_seq_ (periodic_maintenance t m) = next_expected_seq_ m.
Proof.
  unfold periodic_maintenance.
  pose proof (maintenance_loop_next t (pending_gaps_ m) m) as Hn.
  destruct (maintenance_loop _ _ _) as [gaps m1]. exact Hn.
Qed.

Lemma periodic_maintenance_stale t m :
  state_ m = STALE -> state_ (periodic_maintenance t m) = STALE.
Proof.
  intros Hs. unfold periodic_maintenance.
  pose proof (maintenance_loop_stale t (pending_gaps_ m) m Hs) as Hn.
  destruct (maintenance_loop _ _ _) as [gaps m1]. exact Hn.
Qed.

Lemma drain_loop_state fuel : forall m ready,
  state_ (drain_loop fuel m ready).2 = state_ m.
Proof.
  induction fuel as [|fuel IH]; intros m ready; simpl; [done|].
  repeat case_match; simpl; try done. by rewrite IH.
Qed.

Lemma drain_loop_next_bounds fuel : forall m ready,
  0 <= next_expected_seq_ m ->
  next_expected_seq_ m + Z.of_nat fuel < 2 ^ 64 ->
  next_expected_seq_ m <= next_expected_seq_ (drain_loop fuel m ready).2
    <= next_expected_seq_ m + Z.of_nat fuel.
Proof.
  induction fuel as [|fuel IH]; intros m ready H0 Hb; simpl; [lia|].
  repeat case_match; simpl; try lia.
  match goal with |- context [drain_loop fuel ?x ?r] => specialize (IH x r) end.
  simpl in IH.
  assert (0 <= next_expected_seq_ m + 1 < 2 ^ 64) as Hr by lia.
  rewrite (wrap64_small _ Hr) in IH |- *.
  destruct IH as [IH1 IH2]; lia.
Qed.

(** [process_packet] on a sequence found in the duplicate window. *)
Lemma process_packet_duplicate s data ts m :
  is_duplicate m s = true ->
  process_packet s data ts m =
    (false, bump inc_duplicates
              (if highest_seq_seen_ m <? s
               then set_highest s (bump inc_total_packets m)
               else bump inc_total_packets m)).
Proof.
  intros Hd. unfold process_packet. simpl.
  assert (is_duplicate (if highest_seq_seen_ m <? s
               then set_highest s (bump inc_total_packets m)
               else bump inc_total_packets m) s = true) as ->; [|done].
  by destruct (highest_seq_seen_ m <? s).
Qed.

(** [process_packet] on a sequence not in the window: the dispatch on the
    state, after the bookkeeping. *)
Lemma process_packet_fresh s data ts m :
  is_duplicate m s = false ->
  process_packet s data ts m =
    match state_ m with
    | INITIAL => handle_initial_state s (seen s m)
    | LIVE => handle_live_state s data ts (seen s m)
    | RECOVERING => handle_recovering_state s data (seen s m)
    | STALE => (false, seen s m)
    end.
Proof.
  intros Hd. unfold process_packet, seen. simpl.
  assert (is_duplicate (if highest_seq_seen_ m <? s
               then set_highest s (bump inc_total_packets m)
               else bump inc_total_packets m) s = false) as ->.
  { by destruct (highest_seq_seen_ m <? s). }
  rewrite mark_seen_state. by destruct (highest_seq_seen_ m <? s).
Qed.

Lemma seen_state s m : state_ (seen s m) = state_ m.
Proof. unfold seen. rewrite mark_seen_state. by case_match. Qed.

Lemma seen_next s m : next_expected_seq_ (seen s m) = next_expected_seq_ m.
Proof. unfold seen. rewrite mark_seen_next. by case_match. Qed.

Lemma seen_trace s m : callback_trace (seen s m) = callback_trace m.
Proof. unfold seen. rewrite mark_seen_trace. by case_match. Qed.

Lemma seen_pending s m : pending_gaps_ (seen s m) = pending_gaps_ m.
Proof. unfold seen. rewrite mark_seen_pending. by case_match. Qed.

Lemma seen_buffer s m : resequence_buffer_ (seen s m) = resequence_buffer_ m.
Proof. unfold seen. rewrite mark_seen_buffer. by case_match. Qed.

Lemma seen_cb s m : gap_fill_callback_ (seen s m) = gap_fill_callback_ m.
Proof. unfold seen. rewrite mark_seen_cb. by case_match. Qed.

Lemma seen_duplicates s m : duplicates (stats_ (seen s m)) = duplicates (stats_ m).
Proof. unfold seen. rewrite mark_seen_stats. by case_match. Qed.

End Frames.

(** ** The least key of the resequence buffer *)

Section MinKey.

Implicit Types (b : gmap Z (list byte)).

Lemma min_key_spec b :
  match min_key b with
  | None => b = ∅
  | Some k => is_Some (b !! k) /\ forall j, is_Some (b !! j) -> k <= j
  end.
Proof.
  unfold min_key.
  apply (map_fold_weak_ind
    (fun r m => match r with
                | None => m = ∅
                | Some k => is_Some (m !! k) /\ forall j, is_Some (m !! j) -> k <= j
                end)); [done|].
  intros i x m r Hi Hr. destruct r as [k|].
  - destruct Hr as [Hk Hmin]. split.
    + destruct (Z.min_spec i k) as [[_ ->]|[_ ->]].
      * rewrite lookup_insert_eq. by eexists.
      * destruct (decide (i = k)) as [->|Hne];
          [rewrite lookup_insert_eq; by eexists|by rewrite lookup_insert_ne].
    + intros j Hj. destruct (decide (i = j)) as [->|Hne]; [lia|].
      rewrite lookup_insert_ne in Hj by done. specialize (Hmin j Hj). lia.
  - subst m. split; [rewrite lookup_insert_eq; by eexists|].
    intros j Hj. destruct (decide (i = j)) as [->|Hne]; [lia|].
    rewrite lookup_insert_ne, lookup_empty in Hj by done. by destruct Hj.
Qed.

(** [erase(begin())] removes the entry with the lowest sequence and no
    other. *)
Lemma erase_begin_spec b :
  b <> ∅ ->
  exists k, is_Some (b !! k) /\ (forall j, is_Some (b !! j) -> k <= j) /\
            erase_begin b = delete k b.
Proof.
  intros Hne. unfold erase_begin. pose proof (min_key_spec b) as Hm.
  destruct (min_key b) as [k|]; [|done].
  exists k. tauto.
Qed.

End MinKey.

(** ** States in which the drain loop starts *)

Section DrainReady.

Implicit Types (m : Mgr) (data : option (list byte)).

Lemma drain_ready_init cb : drain_ready (init cb).
Proof. unfold drain_ready, is_u64. simpl. repeat split; lia. Qed.

Lemma drain_ready_ext m m' :
  next_expected_seq_ m' = next_expected_seq_ m ->
  resequenced (PacketManager.stats_ m') = resequenced (PacketManager.stats_ m) ->
  resequence_buffer_ m' = resequence_buffer_ m ->
  drain_ready m -> drain_ready m'.
Proof. unfold drain_ready. by intros -> -> ->. Qed.

Lemma seen_resequenced s m :
  resequenced (PacketManager.stats_ (seen s m)) = resequenced (PacketManager.stats_ m).
Proof. unfold seen. rewrite mark_seen_stats. by case_match. Qed.

Lemma seen_ready s m : drain_ready m -> drain_ready (seen s m).
Proof.
  apply drain_ready_ext; [apply seen_next|apply seen_resequenced|apply seen_buffer].
Qed.

Lemma erase_begin_no_zero (b : gmap Z (list byte)) :
  b !! 0 = None -> erase_begin b !! 0 = None.
Proof.
  intros H0. unfold erase_begin. destruct (min_key b) as [k|]; [|done].
  rewrite lookup_delete. by case_decide.
Qed.

Lemma buffer_if_data_ready s data m :
  s <> 0 -> drain_ready m -> drain_ready (buffer_if_data s data m).
Proof.
  intros Hs (Hn & Hr & H0). unfold drain_ready, buffer_if_data, buffer_packet.
  destruct data as [[|b bs]|]; try done.
  destruct (MAX_RESEQUENCE_BUFFER_SIZE <=? _); simpl;
    (split; [done|]); (split; [done|]);
    rewrite lookup_insert_ne by done; [by apply erase_begin_no_zero|done].
Qed.

Lemma set_next_ready v m :
  drain_ready m -> drain_ready (set_next_expected (wrap64 v) m).
Proof.
  intros (_ & Hr & H0). unfold drain_ready. simpl.
  split; [apply wrap64_range|done].
Qed.

Lemma process_gap_fill_ready s e m :
  drain_ready m -> drain_ready (process_gap_fill s e m).
Proof.
  apply drain_ready_ext;
    [apply process_gap_fill_next| |apply process_gap_fill_buffer].
  unfold process_gap_fill. simpl. repeat case_match; reflexivity.
Qed.

Lemma process_packet_ready s data ts m :
  drain_ready m -> drain_ready (process_packet s data ts m).2.
Proof.
  intros Hm. destruct (is_duplicate m s) eqn:Hd.
  - rewrite process_packet_duplicate by done. simpl.
    revert Hm. apply drain_ready_ext; by destruct (highest_seq_seen_ m <? s).
  - rewrite process_packet_fresh by done. rewrite <- (seen_state s m).
    apply (seen_ready s) in Hm. revert Hm. generalize (seen s m). clear m Hd.
    intros m Hm. pose proof Hm as (Hn & _ & _). unfold is_u64 in Hn.
    destruct (state_ m); simpl.
    + assert (drain_ready (set_next_expected (wrap64 (s + 1)) m)) as Hx
        by (by apply set_next_ready).
      revert Hx. by apply drain_ready_ext.
    + unfold handle_recovering_state.
      destruct (s =? next_expected_seq_ m) eqn:E1; simpl.
      * assert (drain_ready (set_next_expected (wrap64 (next_expected_seq_ m + 1)) m)) as Hx
          by (by apply set_next_ready).
        destruct (pending_gaps_ m); [|done]. revert Hx. by apply drain_ready_ext.
      * destruct (next_expected_seq_ m <? s) eqn:E2; simpl.
        -- apply Z.ltb_lt in E2. apply buffer_if_data_ready; [lia|done].
        -- destruct (find_gap s (pending_gaps_ m)) as [g|]; simpl; [|done].
           destruct (s =? end_seq g); [by apply process_gap_fill_ready|done].
    + unfold handle_live_state.
      destruct (s =? next_expected_seq_ m) eqn:E1; simpl.
      * by apply set_next_ready.
      * destruct (s <? next_expected_seq_ m) eqn:E2; simpl; [done|].
        apply Z.eqb_neq in E1. apply Z.ltb_ge in E2.
        destruct (MAX_GAP_SIZE <? _); simpl.
        -- revert Hm. by apply drain_ready_ext.
        -- apply buffer_if_data_ready; [lia|].
           revert Hm. apply drain_ready_ext; simpl;
             unfold invoke_callback; by destruct (gap_fill_callback_ _).
    + done.
Qed.

Lemma maintenance_loop_stats t gaps : forall m,
  PacketManager.stats_ (maintenance_loop t gaps m).2 = PacketManager.stats_ m.
Proof.
  induction gaps as [|g gaps IH]; intros m; simpl; [done|].
  repeat case_match; simpl;
    match goal with
    | H : maintenance_loop _ _ ?x = _ |- _ =>
        let Hx := fresh in
        pose proof (IH x) as Hx; rewrite H in Hx; simpl in Hx; rewrite Hx
    end; try done.
  unfold invoke_callback. by destruct (gap_fill_callback_ m).
Qed.

Lemma maintenance_loop_buffer t gaps : forall m,
  resequence_buffer_ (maintenance_loop t gaps m).2 = resequence_buffer_ m.
Proof.
  induction gaps as [|g gaps IH]; intros m; simpl; [done|].
  repeat case_match; simpl;
    match goal with
    | H : maintenance_loop _ _ ?x = _ |- _ =>
        let Hx := fresh in
        pose proof (IH x) as Hx; rewrite H in Hx; simpl in Hx; rewrite Hx
    end; try done.
  unfold invoke_callback. by destruct (gap_fill_callback_ m).
Qed.

Lemma drain_loop_ready fuel : forall m ready,
  drain_ready m -> drain_ready (drain_loop fuel m ready).2.
Proof.
  induction fuel as [|fuel IH]; intros m ready Hm; simpl; [done|].
  case_bool_decide; [done|].
  destruct (resequence_buffer_ m !! next_expected_seq_ m); [|done].
  apply IH. destruct Hm as (_ & _ & H0). unfold drain_ready. simpl.
  split; [apply wrap64_range|]. split; [apply wrap64_range|].
  rewrite lookup_delete. by case_decide.
Qed.

Lemma apply_op_ready op m : drain_ready m -> drain_ready (apply_op op m).
Proof.
  intros Hm. destruct op as [s data ts| |s e|t|]; simpl.
  - by apply process_packet_ready.
  - by apply drain_loop_ready.
  - by apply process_gap_fill_ready.
  - revert Hm. unfold periodic_maintenance.
    pose proof (maintenance_loop_next t (pending_gaps_ m) m) as H1.
    pose proof (maintenance_loop_stats t (pending_gaps_ m) m) as H2.
    pose proof (maintenance_loop_buffer t (pending_gaps_ m) m) as H3.
    destruct (maintenance_loop _ _ _) as [gaps m1]. simpl in *.
    apply drain_ready_ext; simpl; congruence.
  - destruct Hm as (Hn & Hr & _). unfold drain_ready. simpl.
    split; [done|]. split; [done|]. apply lookup_empty.
Qed.

(** Every manager reached from a fresh one is in such a state. *)
Lemma drain_ready_reachable cb ops : drain_ready (run_ops ops (init cb)).
Proof.
  unfold run_ops. generalize (drain_ready_init cb). generalize (init cb).
  induction ops as [|op ops IH]; intros m Hm; simpl; [done|].
  apply IH. by apply apply_op_ready.
Qed.

End DrainReady.

(** ** In-sequence arrivals while recovering *)

Section Recovering.

Implicit Types (m : Mgr) (data : option (list byte)).

Lemma process_gap_fill_has_request s e m :
  recovering_has_request (process_gap_fill s e m).
Proof.
  unfold recovering_has_request, process_gap_fill. simpl.
  destruct (List.filter _ (pending_gaps_ m)) as [|g gs] eqn:Hf.
  - destruct (state_ m) eqn:Hs; simpl; rewrite ?Hs; done.
  - simpl. done.
Qed.

Lemma maintenance_loop_nil t gaps : forall m,
  (maintenance_loop t gaps m).1 = [] -> gaps = [].
Proof.
  destruct gaps as [|g gaps]; intros m; simpl; [done|].
  repeat case_match; simpl; done.
Qed.

Lemma process_packet_has_request s data ts m :
  recovering_has_request m -> recovering_has_request (process_packet s data ts m).2.
Proof.
  unfold recovering_has_request. intros Hm.
  destruct (is_duplicate m s) eqn:Hd.
  - rewrite process_packet_duplicate by done. simpl.
    by destruct (highest_seq_seen_ m <? s).
  - rewrite process_packet_fresh by done.
    rewrite <- (seen_state s m), <- (seen_pending s m) in Hm.
    rewrite <- (seen_state s m).
    revert Hm. generalize (seen s m). clear m Hd. intros m Hm.
    destruct (state_ m) eqn:Hs; simpl; try done.
    + specialize (Hm eq_refl). unfold handle_recovering_state.
      destruct (s =? next_expected_seq_ m); simpl.
      * destruct (pending_gaps_ m) eqn:Hp; simpl; [done|]. by rewrite Hp.
      * destruct (next_expected_seq_ m <? s); simpl.
        -- by rewrite buffer_if_data_state, buffer_if_data_pending.
        -- destruct (find_gap s (pending_gaps_ m)) as [g|]; simpl; [|done].
           destruct (s =? end_seq g); [apply process_gap_fill_has_request|done].
    + unfold handle_live_state.
      destruct (s =? next_expected_seq_ m); simpl; [by rewrite Hs|].
      destruct (s <? next_expected_seq_ m); simpl; [by rewrite Hs|].
      destruct (MAX_GAP_SIZE <? _); simpl; [done|].
      rewrite buffer_if_data_pending. simpl. rewrite invoke_callback_pending. simpl.
      intros _. by destruct (pending_gaps_ m).
    + by rewrite Hs.
Qed.

Lemma apply_op_has_request op m :
  recovering_has_request m -> recovering_has_request (apply_op op m).
Proof.
  intros Hm. destruct op as [s data ts| |s e|t|]; simpl.
  - by apply process_packet_has_request.
  - unfold recovering_has_request, get_ready_packets.
    rewrite drain_loop_state.
    destruct (drain_loop_post_frame (size (resequence_buffer_ m)) m []) as [_ ->].
    exact Hm.
  - apply process_gap_fill_has_request.
  - unfold recovering_has_request, periodic_maintenance.
    pose proof (maintenance_loop_state t (pending_gaps_ m) m) as Hst.
    pose proof (maintenance_loop_nil t (pending_gaps_ m) m) as Hnil.
    destruct (maintenance_loop _ _ _) as [gaps m1]. simpl in *.
    intros Hr Hg. destruct Hst as [Hst|Hst]; [|congruence].
    apply Hm; [congruence|by apply Hnil].
  - done.
Qed.

(** In every state reached from a fresh manager, a Recovering feed has a
    pending request: the test [pending_gaps_.empty()] in the
    [sequence == next_expected_seq_] branch of [handle_recovering_state]
    never succeeds. *)
Lemma recovering_has_request_reachable cb ops :
  recovering_has_request (run_ops ops (init cb)).
Proof.
  unfold run_ops.
  assert (recovering_has_request (init cb)) as Hinit by done.
  revert Hinit. generalize (init cb).
  induction ops as [|op ops IH]; intros m Hm; simpl; [done|].
  apply IH. by apply apply_op_has_request.
Qed.

(** A packet that arrives at [next_expected] in the Recovering state is
    delivered, but no pending request is removed, [gaps_filled] is not
    incremented, and with a request pending the feed stays Recovering. *)
Lemma in_sequence_arrival_keeps_requests m data ts :
  state_ m = RECOVERING ->
  is_duplicate m (next_expected_seq_ m) = false ->
  let r := process_packet (next_expected_seq_ m) data ts m in
  r.1 = true /\
  pending_gaps_ r.2 = pending_gaps_ m /\
  gaps_filled (PacketManager.stats_ r.2) = gaps_filled (PacketManager.stats_ m) /\
  (pending_gaps_ m <> [] -> state_ r.2 = RECOVERING).
Proof.
  intros Hst Hd r. subst r. rewrite process_packet_fresh, Hst by done.
  unfold handle_recovering_state. rewrite seen_next, Z.eqb_refl.
  cbn [fst snd set_next_expected pending_gaps_]. rewrite seen_pending.
  assert (Hg : gaps_filled (PacketManager.stats_ (seen (next_expected_seq_ m) m)) =
               gaps_filled (PacketManager.stats_ m)).
  { unfold seen. rewrite mark_seen_stats. by case_match. }
  destruct (pending_gaps_ m) as [|g gs] eqn:Hp; simpl;
    rewrite ?seen_pending, ?seen_state, ?Hp, ?Hg; done.
Qed.

End Recovering.

(** ** The Stale state *)

Section Stale.

Implicit Types (m : Mgr) (data : option (list byte)).

Lemma process_packet_stale s data ts m :
  state_ m = STALE ->
  (process_packet s data ts m).1 = false /\
  state_ (process_packet s data ts m).2 = STALE.
Proof.
  intros Hs. destruct (is_duplicate m s) eqn:Hd.
  - rewrite process_packet_duplicate by done. simpl.
    split; [done|]. by destruct (highest_seq_seen_ m <? s).
  - rewrite process_packet_fresh, Hs by done. simpl.
    by rewrite seen_state.
Qed.

Lemma apply_op_stale op m :
  is_resync op = false -> state_ m = STALE -> state_ (apply_op op m) = STALE.
Proof.
  intros Hop Hs. destruct op as [s data ts| |s e|t|]; simpl in *; try done.
  - by apply process_packet_stale.
  - unfold get_ready_packets. by rewrite drain_loop_state.
  - by apply process_gap_fill_stale.
  - by apply periodic_maintenance_stale.
Qed.

Lemma run_ops_stale ops : forall m,
  forallb (fun op => negb (is_resync op)) ops = true ->
  state_ m = STALE -> state_ (run_ops ops m) = STALE.
Proof.
  induction ops as [|op ops IH]; intros m Hops Hs; simpl in *; [done|].
  apply andb_prop in Hops as [Hop Hops].
  apply IH; [done|]. apply apply_op_stale; [|done].
  by destruct (is_resync op).
Qed.

(** C3 as the code has it.  In the Live state, a packet that is not in the
    duplicate window and whose sequence is more than MAX_GAP_SIZE past
    [next_expected] is dropped and turns the feed Stale; the gap-fill
    callback is not invoked and no request is registered.  While Stale,
    whatever calls other than [trigger_resync] are made, the feed stays
    Stale and every packet is dropped; [trigger_resync] returns the feed to
    Initial, where the next packet is delivered. *)
Theorem oversized_gap_turns_feed_stale (m : Mgr) (sequence : Z)
    (data : option (list byte)) (timestamp : Z) :
  state_ m = LIVE ->
  is_duplicate m sequence = false ->
  is_u64 sequence ->
  is_u64 (next_expected_seq_ m) ->
  next_expected_seq_ m + MAX_GAP_SIZE < sequence ->
  let r := process_packet sequence data timestamp m in
  r.1 = false /\
  state_ r.2 = STALE /\
  callback_trace r.2 = callback_trace m /\
  pending_gaps_ r.2 = pending_gaps_ m /\
  (forall ops, forallb (fun op => negb (is_resync op)) ops = true ->
     state_ (run_ops ops r.2) = STALE /\
     forall s' data' ts', (process_packet s' data' ts' (run_ops ops r.2)).1 = false) /\
  (forall ops, forallb (fun op => negb (is_resync op)) ops = true ->
     state_ (trigger_resync (run_ops ops r.2)) = INITIAL /\
     forall s' data' ts',
       (process_packet s' data' ts' (trigger_resync (run_ops ops r.2))).1 = true).
Proof.
  intros Hlive Hdup Hs Hn Hgap r.
  assert (Hr : r = (false, set_state STALE (bump inc_gaps_detected (seen sequence m)))).
  { subst r. rewrite process_packet_fresh, Hlive by done.
    unfold handle_live_state. simpl. rewrite seen_next.
    unfold is_u64, MAX_GAP_SIZE in *.
    rewrite (proj2 (Z.eqb_neq _ _)) by lia.
    rewrite (proj2 (Z.ltb_ge _ _)) by lia.
    rewrite wrap64_small by lia.
    unfold MAX_GAP_SIZE. rewrite (proj2 (Z.ltb_lt _ _)) by lia. done. }
  rewrite Hr. simpl.
  split; [done|]. split; [done|].
  split; [apply seen_trace|]. split; [apply seen_pending|].
  split.
  - intros ops Hops.
    assert (state_ (run_ops ops (set_state STALE (bump inc_gaps_detected (seen sequence m)))) = STALE) as Hst
      by (by apply run_ops_stale).
    split; [done|]. intros s' data' ts'. by apply process_packet_stale.
  - intros ops Hops. split; [done|]. intros s' data' ts'.
    set (m1 := run_ops ops _).
    rewrite process_packet_fresh.
    + done.
    + unfold is_duplicate, trigger_resync. simpl.
      apply bool_decide_eq_false_2, not_elem_of_empty.
Qed.

(** C3, the specified behaviour fails: after 1,2 the sequence 2000 turns the
    feed Stale, yet the installed callback has not been invoked and the
    handler has made no call on the recovery manager, so no snapshot request
    is emitted.  Also, a sequence that far ahead which is in the duplicate
    window leaves the feed Live. *)
Lemma oversized_gap_emits_no_request :
  let m := run_ops [OpPacket 1 None 0; OpPacket 2 None 0] (init true) in
  let r := process_packet 2000 (Some (Wire.trade_packet 2000)) 100 m in
  (state_ m = LIVE /\ gap_fill_callback_ m = true /\
   next_expected_seq_ m + MAX_GAP_SIZE < 2000) /\
  (r.1 = false /\ state_ r.2 = STALE) /\
  callback_trace r.2 = [] /\
  concat (FeedHandler.handle_gap_fill_request <$> callback_trace r.2) = [] /\
  let m' := run_ops [OpPacket 1 None 0; OpPacket 5 None 0;
                     OpPacket 2000 None 0; OpGapFill 2 4] (init true) in
  state_ m' = LIVE /\ next_expected_seq_ m' + MAX_GAP_SIZE < 2000 /\
  state_ (process_packet 2000 None 0 m').2 = LIVE.
Proof. vm_compute. repeat split. Qed.

End Stale.

(** ** Gap fill twice *)

Section GapFill.

Lemma filter_twice {A} (f : A -> bool) (l : list A) :
  List.filter f (List.filter f l) = List.filter f l.
Proof.
  induction l as [|x l IH]; simpl; [done|].
  destruct (f x) eqn:Hx; simpl; rewrite ?Hx, IH; done.
Qed.

(** C4 as the code has it.  A second [process_gap_fill(s, e)] leaves the
    pending gaps, the feed state, the buffers, the duplicate window and
    [next_expected] as the first call left them, and changes exactly one
    thing: it increments the [gaps_filled] counter again. *)
Theorem process_gap_fill_twice (s e : Z) (m : Mgr) :
  let m1 := process_gap_fill s e m in
  let m2 := process_gap_fill s e m1 in
  m2 = bump inc_gaps_filled m1 /\
  pending_gaps_ m2 = pending_gaps_ m1 /\
  state_ m2 = state_ m1 /\
  resequence_buffer_ m2 = resequence_buffer_ m1 /\
  recent_sequences_ m2 = recent_sequences_ m1 /\
  recent_seq_set_ m2 = recent_seq_set_ m1 /\
  next_expected_seq_ m2 = next_expected_seq_ m1 /\
  gaps_filled (stats_ m2) = wrap64 (gaps_filled (stats_ m1) + 1).
Proof.
  intros m1 m2.
  assert (Hp : pending_gaps_ m1 =
               List.filter (fun req => negb (same_range s e req)) (pending_gaps_ m)).
  { subst m1. unfold process_gap_fill. simpl. repeat case_match; reflexivity. }
  assert (Hst : pending_gaps_ m1 = [] -> state_ m1 <> RECOVERING).
  { subst m1. unfold process_gap_fill. simpl.
    destruct (List.filter _ (pending_gaps_ m)); [|done].
    destruct (state_ m) eqn:Hs; simpl; rewrite ?Hs; done. }
  assert (Heq : m2 = bump inc_gaps_filled m1).
  { subst m2. unfold process_gap_fill at 1.
    rewrite Hp, filter_twice, <- Hp. clearbody m1.
    replace (set_pending (pending_gaps_ m1) m1) with m1 by (by destruct m1).
    cbn [bump set_stats pending_gaps_ state_].
    destruct (pending_gaps_ m1) eqn:E; [|done].
    destruct (state_ m1) eqn:E2; try done. by destruct Hst. }
  rewrite Heq. repeat split.
Qed.

(** C4, the specified behaviour fails: after 1,2,5 the request (3,4) is
    pending; [process_gap_fill(3,4)] once leaves [gaps_filled] at 1, twice
    at 2, so the second call does change the state. *)
Lemma process_gap_fill_not_idempotent :
  let m := run_ops [OpPacket 1 None 0; OpPacket 2 None 0; OpPacket 5 None 0]
                   (init true) in
  gaps_filled (stats_ (process_gap_fill 3 4 m)) = 1 /\
  gaps_filled (stats_ (process_gap_fill 3 4 (process_gap_fill 3 4 m))) = 2 /\
  process_gap_fill 3 4 (process_gap_fill 3 4 m) <> process_gap_fill 3 4 m.
Proof.
  split; [reflexivity|]. split; [reflexivity|].
  intros Heq. apply (f_equal (fun x => gaps_filled (stats_ x))) in Heq.
  vm_compute in Heq. discriminate.
Qed.

End GapFill.

(** ** Monotonicity of [next_expected] *)

Section NextExpected.

(** [process_packet] outside the Initial state advances [next_expected]
    by one or not at all. *)
Lemma process_packet_next_mono s data ts (m : Mgr) :
  state_ m <> INITIAL ->
  0 <= next_expected_seq_ m ->
  next_expected_seq_ m + 1 < 2 ^ 64 ->
  next_expected_seq_ m <= next_expected_seq_ (process_packet s data ts m).2.
Proof.
  intros Hinit H0 Hb.
  assert (Hw : wrap64 (next_expected_seq_ m + 1) = next_expected_seq_ m + 1)
    by (apply wrap64_small; lia).
  destruct (is_duplicate m s) eqn:Hd.
  - rewrite process_packet_duplicate by done. simpl.
    destruct (highest_seq_seen_ m <? s); simpl; lia.
  - rewrite process_packet_fresh by done.
    destruct (state_ m) eqn:Hst; [done| | |].
    + unfold handle_recovering_state. rewrite !seen_next.
      repeat case_match; simpl;
        rewrite ?buffer_if_data_next, ?process_gap_fill_next, ?seen_next; lia.
    + unfold handle_live_state. rewrite !seen_next.
      repeat case_match;
        repeat first [ progress simpl | rewrite buffer_if_data_next
                     | rewrite invoke_callback_next | rewrite seen_next ];
        lia.
    + simpl. rewrite seen_next. lia.
Qed.

(** C5 as the code has it.  For every call other than a [process_packet]
    made in the Initial state, and short of 64-bit wrap-around,
    [next_expected] after the call is at least its value before.  (In the
    Initial state [process_packet] sets it to [sequence + 1] whatever it
    was.) *)
Theorem next_expected_never_regresses (op : Op) (m : Mgr) :
  (is_packet op = true -> state_ m <> INITIAL) ->
  0 <= next_expected_seq_ m ->
  next_expected_seq_ m + Z.of_nat (size (resequence_buffer_ m)) + 1 < 2 ^ 64 ->
  next_expected_seq_ m <= next_expected_seq_ (apply_op op m).
Proof.
  intros Hinit H0 Hb.
  destruct op as [s data ts| |s e|t|]; simpl.
  - apply process_packet_next_mono; [by apply Hinit|done|lia].
  - unfold get_ready_packets.
    pose proof (drain_loop_next_bounds (size (resequence_buffer_ m)) m [] H0) as Hd.
    lia.
  - rewrite process_gap_fill_next. lia.
  - rewrite periodic_maintenance_next. lia.
  - reflexivity.
Qed.

(** The same over a whole sequence of calls.  [next_expected] plus the
    number of buffered packets grows by at most one per call, so a bound on
    that sum at the start keeps every later value short of wrap-around. *)

Lemma buffer_if_data_size s data m :
  (size (resequence_buffer_ (buffer_if_data s data m)) <=
   S (size (resequence_buffer_ m)))%nat.
Proof.
  unfold buffer_if_data. destruct data as [[|b bs]|]; try lia.
  unfold buffer_packet. cbn [bump set_stats resequence_buffer_].
  destruct (MAX_RESEQUENCE_BUFFER_SIZE <=? _) eqn:Hfull.
  - cbn [bump set_stats set_buffer resequence_buffer_].
    apply Z.leb_le in Hfull. unfold MAX_RESEQUENCE_BUFFER_SIZE in Hfull.
    destruct (erase_begin_spec (resequence_buffer_ m)) as (k & [x Hk] & _ & ->).
    { intros He. rewrite He, map_size_empty in Hfull. lia. }
    rewrite map_size_insert, map_size_delete, Hk.
    assert (size (resequence_buffer_ m) <> 0)%nat by lia.
    case_match; unfold id; lia.
  - cbn [set_buffer resequence_buffer_]. rewrite map_size_insert.
    case_match; unfold id; lia.
Qed.

Lemma drain_loop_potential fuel : forall m ready,
  0 <= next_expected_seq_ m ->
  next_expected_seq_ m + Z.of_nat fuel < 2 ^ 64 ->
  next_expected_seq_ (drain_loop fuel m ready).2 +
    Z.of_nat (size (resequence_buffer_ (drain_loop fuel m ready).2)) <=
  next_expected_seq_ m + Z.of_nat (size (resequence_buffer_ m)).
Proof.
  induction fuel as [|fuel IH]; intros m ready H0 Hb; simpl; [lia|].
  case_bool_decide; [simpl; lia|].
  destruct (resequence_buffer_ m !! next_expected_seq_ m) as [pkt|] eqn:Hl;
    [|simpl; lia].
  match goal with |- context [drain_loop fuel ?x ?r] => specialize (IH x r) end.
  cbn [bump set_stats set_next_expected set_buffer next_expected_seq_
       resequence_buffer_] in IH.
  assert (0 <= next_expected_seq_ m + 1 < 2 ^ 64) as Hr by lia.
  rewrite (wrap64_small _ Hr) in IH |- *.
  rewrite map_size_delete, Hl in IH.
  assert (size (resequence_buffer_ m) <> 0)%nat.
  { intros He. apply map_size_empty_inv in He. by rewrite He, lookup_empty in Hl. }
  lia.
Qed.

Lemma process_gap_fill_state s e m :
  state_ (process_gap_fill s e m) = state_ m \/ state_ (process_gap_fill s e m) = LIVE.
Proof. unfold process_gap_fill. simpl. repeat case_match; simpl; tauto. Qed.

Lemma invoke_callback_buffer req m :
  resequence_buffer_ (invoke_callback req m) = resequence_buffer_ m.
Proof. unfold invoke_callback. by destruct (gap_fill_callback_ m). Qed.

(** One call that is not [trigger_resync], outside the Initial state. *)
Lemma apply_op_potential op m :
  is_resync op = false -> state_ m <> INITIAL ->
  0 <= next_expected_seq_ m ->
  next_expected_seq_ m + Z.of_nat (size (resequence_buffer_ m)) + 1 < 2 ^ 64 ->
  state_ (apply_op op m) <> INITIAL /\
  next_expected_seq_ m <= next_expected_seq_ (apply_op op m) /\
  next_expected_seq_ (apply_op op m) +
    Z.of_nat (size (resequence_buffer_ (apply_op op m))) <=
  next_expected_seq_ m + Z.of_nat (size (resequence_buffer_ m)) + 1.
Proof.
  intros Hop Hst H0 Hb.
  split; [|split].
  2:{ destruct op as [s data ts| |s e|t|]; simpl in *; try done.
      - apply process_packet_next_mono; [done|done|lia].
      - unfold get_ready_packets.
        pose proof (drain_loop_next_bounds (size (resequence_buffer_ m)) m [] H0) as Hd.
        lia.
      - rewrite process_gap_fill_next. lia.
      - rewrite periodic_maintenance_next. lia. }
  - destruct op as [s data ts| |s e|t|]; simpl in *; try done.
    + destruct (is_duplicate m s) eqn:Hd.
      * rewrite process_packet_duplicate by done. simpl.
        by destruct (highest_seq_seen_ m <? s).
      * rewrite process_packet_fresh by done.
        destruct (state_ m) eqn:Hs; [done| | |].
        -- unfold handle_recovering_state.
           repeat case_match; simpl;
             rewrite ?buffer_if_data_state, ?seen_state, ?Hs; try done.
           destruct (process_gap_fill_state (start_seq g) (end_seq g) (seen s m))
             as [->| ->]; [by rewrite seen_state, Hs|done].
        -- unfold handle_live_state.
           repeat case_match; simpl;
             rewrite ?buffer_if_data_state, ?seen_state, ?Hs; done.
        -- simpl. by rewrite seen_state, Hs.
    + unfold get_ready_packets. by rewrite drain_loop_state.
    + destruct (process_gap_fill_state s e m) as [->| ->]; done.
    + unfold periodic_maintenance.
      destruct (maintenance_loop_state t (pending_gaps_ m) m) as [Hx|Hx];
        destruct (maintenance_loop _ _ _) as [gaps m1]; simpl in *; congruence.
  - assert (Hw : wrap64 (next_expected_seq_ m + 1) = next_expected_seq_ m + 1)
      by (apply wrap64_small; lia).
    destruct op as [s data ts| |s e|t|]; simpl in *; try done.
    + destruct (is_duplicate m s) eqn:Hd.
      * rewrite process_packet_duplicate by done. simpl.
        destruct (highest_seq_seen_ m <? s); simpl; lia.
      * rewrite process_packet_fresh by done.
        pose proof (buffer_if_data_size s data (seen s m)) as Hsz.
        rewrite seen_buffer in Hsz.
        destruct (state_ m) eqn:Hs; [done| | |].
        -- unfold handle_recovering_state. rewrite !seen_next.
           repeat case_match; simpl;
             rewrite ?buffer_if_data_next, ?process_gap_fill_next,
               ?process_gap_fill_buffer, ?seen_next, ?seen_buffer; lia.
        -- unfold handle_live_state. rewrite !seen_next.
           repeat case_match;
             repeat first [ progress simpl | rewrite buffer_if_data_next
                          | rewrite invoke_callback_next | rewrite seen_next
                          | rewrite seen_buffer ];
             try lia.
           pose proof (buffer_if_data_size s data
             (set_state RECOVERING (invoke_callback
                {| start_seq := next_expected_seq_ m; end_seq := wrap64 (s - 1);
                   request_time_ns := ts; retry_count := 0 |}
                (set_pending (pending_gaps_ (seen s m) ++
                   [{| start_seq := next_expected_seq_ m; end_seq := wrap64 (s - 1);
                       request_time_ns := ts; retry_count := 0 |}])
                   (bump inc_gaps_detected (seen s m)))))) as Hsz'.
           cbn [set_state resequence_buffer_] in Hsz'.
           rewrite invoke_callback_buffer in Hsz'.
           cbn [set_pending bump set_stats resequence_buffer_] in Hsz'.
           rewrite seen_buffer in Hsz'. lia.
        -- simpl. rewrite seen_next, seen_buffer. lia.
    + unfold get_ready_packets.
      pose proof (drain_loop_potential (size (resequence_buffer_ m)) m [] H0) as Hd.
      lia.
    + rewrite process_gap_fill_next, process_gap_fill_buffer. lia.
    + rewrite periodic_maintenance_next. unfold periodic_maintenance.
      pose proof (maintenance_loop_buffer t (pending_gaps_ m) m) as Hx.
      destruct (maintenance_loop _ _ _) as [gaps m1]. simpl in *. rewrite Hx. lia.
Qed.

(** Over any sequence of calls without [trigger_resync], started outside
    the Initial state, [next_expected] never regresses from one call to
    the next. *)
Lemma next_expected_monotone_over_runs (ops1 : list Op) : forall (ops2 : list Op) (m : Mgr),
  forallb (fun op => negb (is_resync op)) (ops1 ++ ops2) = true ->
  state_ m <> INITIAL ->
  0 <= next_expected_seq_ m ->
  next_expected_seq_ m + Z.of_nat (size (resequence_buffer_ m)) +
    Z.of_nat (length (ops1 ++ ops2)) < 2 ^ 64 ->
  next_expected_seq_ m <= next_expected_seq_ (run_ops ops1 m) /\
  next_expected_seq_ (run_ops ops1 m) <= next_expected_seq_ (run_ops (ops1 ++ ops2) m).
Proof.
  assert (Hrun : forall ops m,
    forallb (fun op => negb (is_resync op)) ops = true ->
    state_ m <> INITIAL -> 0 <= next_expected_seq_ m ->
    next_expected_seq_ m + Z.of_nat (size (resequence_buffer_ m)) +
      Z.of_nat (length ops) < 2 ^ 64 ->
    state_ (run_ops ops m) <> INITIAL /\
    next_expected_seq_ m <= next_expected_seq_ (run_ops ops m) /\
    next_expected_seq_ (run_ops ops m) +
      Z.of_nat (size (resequence_buffer_ (run_ops ops m))) <=
    next_expected_seq_ m + Z.of_nat (size (resequence_buffer_ m)) +
      Z.of_nat (length ops)).
  { induction ops as [|op ops IH]; intros m Hops Hst H0 Hb; simpl in *.
    - split; [done|]. lia.
    - apply andb_prop in Hops as [Hop Hops].
      destruct (apply_op_potential op m) as (S1 & S2 & S3); try done; try lia.
      { by destruct (is_resync op). }
      destruct (IH (apply_op op m) Hops S1) as (R1 & R2 & R3); try lia.
      split; [done|]. lia. }
  intros ops2 m Hops Hst H0 Hb.
  rewrite forallb_app in Hops. apply andb_prop in Hops as [Hops1 Hops2].
  rewrite length_app in Hb.
  destruct (Hrun ops1 m Hops1 Hst H0) as (R1 & R2 & R3); [lia|].
  split; [done|].
  unfold run_ops. rewrite fold_left_app. fold (run_ops ops1 m).
  fold (run_ops ops2 (run_ops ops1 m)).
  destruct (Hrun ops2 (run_ops ops1 m) Hops2 R1) as (_ & Q2 & _); lia.
Qed.

(** C5, the specified behaviour fails: after packet 100 [next_expected] is
    101; [trigger_resync] followed by packet 5 sets it to 6. *)
Lemma next_expected_regresses_after_resync :
  let m1 := run_ops [OpPacket 100 None 0] (init true) in
  let m2 := run_ops [OpResync; OpPacket 5 None 0] m1 in
  next_expected_seq_ m1 = 101 /\ next_expected_seq_ m2 = 6 /\
  ~ (next_expected_seq_ m1 <= next_expected_seq_ m2).
Proof. vm_compute. repeat split. intros H. apply H. reflexivity. Qed.

End NextExpected.

(** ** The duplicate window *)

Section Window.

Implicit Types (m : Mgr) (data : option (list byte)).

Lemma is_duplicate_elem m x : is_duplicate m x = true <-> x ∈ recent_seq_set_ m.
Proof. unfold is_duplicate. apply bool_decide_eq_true. Qed.

Lemma is_duplicate_not_elem m x : is_duplicate m x = false <-> x ∉ recent_seq_set_ m.
Proof. unfold is_duplicate. apply bool_decide_eq_false. Qed.

Lemma window_ok_init cb : window_ok (init cb).
Proof.
  unfold window_ok, init, DUPLICATE_WINDOW_SIZE. simpl.
  split; [constructor|]. split; [|lia].
  intros x. split; intros Hx; [by apply not_elem_of_empty in Hx|by apply not_elem_of_nil in Hx].
Qed.

Lemma mark_seen_deque x m :
  recent_sequences_ (mark_seen x m) =
    if DUPLICATE_WINDOW_SIZE <? Z.of_nat (length (recent_sequences_ m)) + 1
    then tail (recent_sequences_ m ++ [x])
    else recent_sequences_ m ++ [x].
Proof.
  unfold mark_seen. rewrite length_app. simpl.
  replace (Z.of_nat (length (recent_sequences_ m) + 1))
    with (Z.of_nat (length (recent_sequences_ m)) + 1) by lia.
  destruct (DUPLICATE_WINDOW_SIZE <? _); [|done].
  destruct (recent_sequences_ m ++ [x]) eqn:E; [|done].
  by destruct (recent_sequences_ m).
Qed.

Lemma mark_seen_ok x m :
  window_ok m -> x ∉ recent_seq_set_ m -> window_ok (mark_seen x m).
Proof.
  intros (Hnd & Hset & Hlen) Hx.
  assert (Hx' : x ∉ recent_sequences_ m) by (by rewrite <- Hset).
  assert (Hnd1 : NoDup (recent_sequences_ m ++ [x])).
  { apply NoDup_app. split; [done|]. split; [|apply NoDup_singleton].
    intros y Hy ->%list_elem_of_singleton. done. }
  assert (Hset1 : forall y, y ∈ ({[x]} ∪ recent_seq_set_ m : gset Z) <->
                            y ∈ recent_sequences_ m ++ [x]).
  { intros y. rewrite elem_of_union, elem_of_singleton, elem_of_app,
      list_elem_of_singleton, Hset. tauto. }
  unfold window_ok, mark_seen.
  assert (Hl : length (recent_sequences_ m ++ [x]) = S (length (recent_sequences_ m)))
    by (rewrite length_app; simpl; lia).
  rewrite Hl.
  destruct (DUPLICATE_WINDOW_SIZE <? Z.of_nat (S (length (recent_sequences_ m)))) eqn:Hfull.
  - destruct (recent_sequences_ m ++ [x]) as [|old dq2] eqn:E; [done|]. simpl.
    apply NoDup_cons in Hnd1 as [Hold Hnd2].
    split; [done|]. split.
    + intros y. rewrite elem_of_difference, elem_of_singleton, Hset1, elem_of_cons.
      split; [tauto|]. intros Hy. split; [tauto|]. by intros ->.
    + simpl in Hl. lia.
  - simpl. apply Z.ltb_ge in Hfull. split; [done|]. split; [done|].
    rewrite Hl. lia.
Qed.

Lemma handlers_window s data ts m :
  (recent_sequences_ (handle_initial_state s m).2 = recent_sequences_ m /\
   recent_seq_set_ (handle_initial_state s m).2 = recent_seq_set_ m) /\
  (recent_sequences_ (handle_live_state s data ts m).2 = recent_sequences_ m /\
   recent_seq_set_ (handle_live_state s data ts m).2 = recent_seq_set_ m) /\
  (recent_sequences_ (handle_recovering_state s data m).2 = recent_sequences_ m /\
   recent_seq_set_ (handle_recovering_state s data m).2 = recent_seq_set_ m).
Proof.
  split; [done|]. split.
  - unfold handle_live_state. repeat case_match; simpl; try done.
    destruct (buffer_if_data_window s data
      (set_state RECOVERING (invoke_callback
         {| start_seq := next_expected_seq_ m; end_seq := wrap64 (s - 1);
            request_time_ns := ts; retry_count := 0 |}
         (set_pending (pending_gaps_ m ++
            [{| start_seq := next_expected_seq_ m; end_seq := wrap64 (s - 1);
                request_time_ns := ts; retry_count := 0 |}])
            (bump inc_gaps_detected m))))) as [-> ->].
    simpl. unfold invoke_callback. by destruct (gap_fill_callback_ _).
  - unfold handle_recovering_state. repeat case_match; simpl; try done.
    + apply buffer_if_data_window.
    + apply process_gap_fill_window.
Qed.

Lemma handlers_duplicates s data ts m :
  duplicates (stats_ (handle_initial_state s m).2) = duplicates (stats_ m) /\
  duplicates (stats_ (handle_live_state s data ts m).2) = duplicates (stats_ m) /\
  duplicates (stats_ (handle_recovering_state s data m).2) = duplicates (stats_ m).
Proof.
  split; [done|]. split.
  - unfold handle_live_state. repeat case_match; simpl; try done.
    rewrite buffer_if_data_duplicates. simpl.
    unfold invoke_callback. by destruct (gap_fill_callback_ _).
  - unfold handle_recovering_state. repeat case_match; simpl; try done.
    + apply buffer_if_data_duplicates.
    + apply process_gap_fill_duplicates.
Qed.

Lemma seen_window s m :
  recent_sequences_ (seen s m) = recent_sequences_ (mark_seen s m) /\
  recent_seq_set_ (seen s m) = recent_seq_set_ (mark_seen s m).
Proof.
  unfold seen. destruct (highest_seq_seen_ m <? s);
    unfold mark_seen; simpl; repeat case_match; done.
Qed.

(** The window after [process_packet] on a sequence that is not in it is
    the window after [mark_seen]. *)
Lemma process_packet_fresh_window s data ts m :
  is_duplicate m s = false ->
  recent_sequences_ (process_packet s data ts m).2 = recent_sequences_ (mark_seen s m) /\
  recent_seq_set_ (process_packet s data ts m).2 = recent_seq_set_ (mark_seen s m) /\
  duplicates (stats_ (process_packet s data ts m).2) = duplicates (stats_ m).
Proof.
  intros Hd. rewrite process_packet_fresh by done.
  destruct (handlers_window s data ts (seen s m))
    as ((Hi1 & Hi2) & (Hl1 & Hl2) & (Hr1 & Hr2)).
  destruct (handlers_duplicates s data ts (seen s m)) as (Di & Dl & Dr).
  destruct (seen_window s m) as [W1 W2].
  pose proof (seen_duplicates s m) as Ds.
  destruct (state_ m); simpl; repeat split; congruence.
Qed.

Lemma window_ok_ext m m' :
  recent_sequences_ m' = recent_sequences_ m ->
  recent_seq_set_ m' = recent_seq_set_ m ->
  window_ok m -> window_ok m'.
Proof. unfold window_ok. by intros -> ->. Qed.

Lemma process_packet_window_ok s data ts m :
  window_ok m -> window_ok (process_packet s data ts m).2.
Proof.
  intros Hok. destruct (is_duplicate m s) eqn:Hd.
  - rewrite process_packet_duplicate by done. simpl.
    eapply window_ok_ext; [| |exact Hok];
      by destruct (highest_seq_seen_ m <? s).
  - destruct (process_packet_fresh_window s data ts m Hd) as (H1 & H2 & _).
    eapply window_ok_ext; [exact H1|exact H2|].
    apply mark_seen_ok; [done|]. by apply is_duplicate_not_elem.
Qed.

(** A run of packets whose sequences are new and distinct: the deque ends
    up holding the last DUPLICATE_WINDOW_SIZE of everything inserted. *)
Lemma fresh_run_deque (data : Z -> option (list byte)) (ts : Z -> Z) seqs : forall m,
  window_ok m ->
  NoDup (recent_sequences_ m ++ seqs) ->
  let m' := run_ops ((fun s => OpPacket s (data s) (ts s)) <$> seqs) m in
  window_ok m' /\
  recent_sequences_ m' =
    drop (length (recent_sequences_ m ++ seqs) - Z.to_nat DUPLICATE_WINDOW_SIZE)
         (recent_sequences_ m ++ seqs).
Proof.
  induction seqs as [|x seqs IH]; intros m Hok Hnd; cbv zeta.
  - simpl. split; [done|]. rewrite app_nil_r.
    destruct Hok as (_ & _ & Hlen).
    replace (length (recent_sequences_ m) - Z.to_nat DUPLICATE_WINDOW_SIZE)%nat
      with 0%nat by lia.
    done.
  - assert (Hx : is_duplicate m x = false).
    { apply is_duplicate_not_elem. destruct Hok as (_ & Hset & _).
      rewrite Hset. apply NoDup_app in Hnd as (_ & Hdis & _).
      intros Hin. apply (Hdis x Hin). left. }
    change (run_ops ((fun s => OpPacket s (data s) (ts s)) <$> x :: seqs) m)
      with (run_ops ((fun s => OpPacket s (data s) (ts s)) <$> seqs)
                    (process_packet x (data x) (ts x) m).2).
    set (m1 := (process_packet x (data x) (ts x) m).2).
    assert (Hok1 : window_ok m1) by (by apply process_packet_window_ok).
    destruct (process_packet_fresh_window x (data x) (ts x) m Hx) as (Hdq & _ & _).
    fold m1 in Hdq. rewrite mark_seen_deque in Hdq.
    assert (Hdq1 : recent_sequences_ m1 =
              drop (length (recent_sequences_ m ++ [x]) - Z.to_nat DUPLICATE_WINDOW_SIZE)
                   (recent_sequences_ m ++ [x])).
    { rewrite Hdq. destruct Hok as (_ & _ & Hlen).
      rewrite length_app. simpl.
      destruct (DUPLICATE_WINDOW_SIZE <? _) eqn:Hfull.
      - apply Z.ltb_lt in Hfull.
        replace (length (recent_sequences_ m) + 1 - Z.to_nat DUPLICATE_WINDOW_SIZE)%nat
          with 1%nat by lia.
        by destruct (recent_sequences_ m ++ [x]).
      - apply Z.ltb_ge in Hfull.
        replace (length (recent_sequences_ m) + 1 - Z.to_nat DUPLICATE_WINDOW_SIZE)%nat
          with 0%nat by lia.
        done. }
    set (k := (length (recent_sequences_ m ++ [x]) - Z.to_nat DUPLICATE_WINDOW_SIZE)%nat) in *.
    assert (Hk : (k <= length (recent_sequences_ m ++ [x]))%nat) by lia.
    assert (Happ : recent_sequences_ m1 ++ seqs =
                   drop k ((recent_sequences_ m ++ [x]) ++ seqs)).
    { rewrite Hdq1. symmetry. apply drop_app_le. exact Hk. }
    rewrite <- app_assoc in Happ. simpl in Happ.
    destruct (IH m1 Hok1) as [Hok' Hfin].
    { rewrite Happ. rewrite <- (take_drop k (recent_sequences_ m ++ x :: seqs)) in Hnd.
      by apply NoDup_app in Hnd as (_ & _ & Hnd). }
    split; [exact Hok'|].
    rewrite Hfin, Happ, drop_drop. f_equal.
    rewrite length_drop.
    assert (length (recent_sequences_ m ++ x :: seqs) =
            length (recent_sequences_ m ++ [x]) + length seqs)%nat as Hl
      by (rewrite !length_app; simpl; lia).
    subst k. lia.
Qed.

Lemma drain_loop_window fuel : forall m ready,
  recent_sequences_ (drain_loop fuel m ready).2 = recent_sequences_ m /\
  recent_seq_set_ (drain_loop fuel m ready).2 = recent_seq_set_ m.
Proof.
  induction fuel as [|fuel IH]; intros m ready; simpl; [done|].
  repeat case_match; simpl; try done.
  match goal with |- context [drain_loop fuel ?x ?r] => destruct (IH x r) as [-> ->] end.
  done.
Qed.

Lemma maintenance_loop_window t gaps : forall m,
  recent_sequences_ (maintenance_loop t gaps m).2 = recent_sequences_ m /\
  recent_seq_set_ (maintenance_loop t gaps m).2 = recent_seq_set_ m.
Proof.
  induction gaps as [|g gaps IH]; intros m; simpl; [done|].
  repeat case_match; simpl;
    match goal with
    | H : maintenance_loop _ _ ?x = _ |- _ =>
        let H1 := fresh in let H2 := fresh in
        destruct (IH x) as [H1 H2]; rewrite H in H1, H2; simpl in H1, H2;
        split; [etrans; [exact H1|]|etrans; [exact H2|]]
    end; try done;
    unfold invoke_callback; by destruct (gap_fill_callback_ m).
Qed.

Lemma apply_op_window_ok op m : window_ok m -> window_ok (apply_op op m).
Proof.
  intros Hok. destruct op as [s data ts| |s e|t|]; simpl.
  - by apply process_packet_window_ok.
  - destruct (drain_loop_window (size (resequence_buffer_ m)) m []) as [H1 H2].
    by eapply window_ok_ext.
  - destruct (process_gap_fill_window s e m) as [H1 H2]. by eapply window_ok_ext.
  - unfold periodic_maintenance.
    destruct (maintenance_loop_window t (pending_gaps_ m) m) as [H1 H2].
    destruct (maintenance_loop _ _ _) as [gaps m1]. by eapply window_ok_ext.
  - eapply window_ok_ext; [| |apply (window_ok_init true)]; done.
Qed.

(** Every manager reached from a fresh one has a well-formed window. *)
Lemma window_ok_reachable cb ops : window_ok (run_ops ops (init cb)).
Proof.
  unfold run_ops. generalize (window_ok_init cb). generalize (init cb).
  induction ops as [|op ops IH]; intros m Hok; simpl; [done|].
  apply IH. by apply apply_op_window_ok.
Qed.

(** C8. Duplicate-window policy, for a manager whose window is well formed
    (as it is in every state reached from a fresh manager).  A packet whose
    sequence is in the window is dropped, [duplicates] is incremented and
    the window is unchanged.  A packet whose sequence is not in the window
    is not counted as a duplicate and has its sequence appended to the
    window; if the window then holds more than DUPLICATE_WINDOW_SIZE =
    10000 entries, its oldest entry is removed.  Consequently, once
    DUPLICATE_WINDOW_SIZE further packets with new, distinct sequences have
    been processed, the first sequence is no longer in the window, and its
    re-arrival is not counted as a duplicate but inserted again. *)
Theorem duplicate_window_policy (m : Mgr) (sequence : Z)
    (data : option (list byte)) (timestamp : Z) :
  window_ok m ->
  let r := process_packet sequence data timestamp m in
  (is_duplicate m sequence = true ->
     r.1 = false /\
     duplicates (stats_ r.2) = wrap64 (duplicates (stats_ m) + 1) /\
     recent_sequences_ r.2 = recent_sequences_ m /\
     recent_seq_set_ r.2 = recent_seq_set_ m) /\
  (is_duplicate m sequence = false ->
     duplicates (stats_ r.2) = duplicates (stats_ m) /\
     recent_sequences_ r.2 =
       (if DUPLICATE_WINDOW_SIZE <? Z.of_nat (length (recent_sequences_ m ++ [sequence]))
        then tail (recent_sequences_ m ++ [sequence])
        else recent_sequences_ m ++ [sequence]) /\
     (forall x, is_duplicate r.2 x = true <-> x ∈ recent_sequences_ r.2) /\
     is_duplicate r.2 sequence = true /\
     window_ok r.2) /\
  (is_duplicate m sequence = false ->
     forall (seqs : list Z) (data' : Z -> option (list byte)) (ts' : Z -> Z),
       Z.of_nat (length seqs) = DUPLICATE_WINDOW_SIZE ->
       NoDup (sequence :: seqs) ->
       (forall x, x ∈ seqs -> is_duplicate m x = false) ->
       let m' := run_ops ((fun s => OpPacket s (data' s) (ts' s)) <$> seqs) r.2 in
       is_duplicate m' sequence = false /\
       forall d t,
         duplicates (stats_ (process_packet sequence d t m').2) = duplicates (stats_ m') /\
         is_duplicate (process_packet sequence d t m').2 sequence = true).
Proof.
  intros Hok r.
  assert (Hfresh : forall m0 d t, window_ok m0 -> is_duplicate m0 sequence = false ->
            let r0 := process_packet sequence d t m0 in
            duplicates (stats_ r0.2) = duplicates (stats_ m0) /\
            recent_sequences_ r0.2 =
              (if DUPLICATE_WINDOW_SIZE <? Z.of_nat (length (recent_sequences_ m0 ++ [sequence]))
               then tail (recent_sequences_ m0 ++ [sequence])
               else recent_sequences_ m0 ++ [sequence]) /\
            (forall x, is_duplicate r0.2 x = true <-> x ∈ recent_sequences_ r0.2) /\
            is_duplicate r0.2 sequence = true /\
            window_ok r0.2).
  { intros m0 d t Hok0 Hd r0.
    destruct (process_packet_fresh_window sequence d t m0 Hd) as (Hdq & Hset & Hdup).
    fold r0 in Hdq, Hset, Hdup.
    assert (Hok' : window_ok r0.2) by (by apply process_packet_window_ok).
    assert (Hmem : forall x, is_duplicate r0.2 x = true <-> x ∈ recent_sequences_ r0.2).
    { intros x. rewrite is_duplicate_elem. apply Hok'. }
    rewrite mark_seen_deque in Hdq.
    assert (Hlen : Z.of_nat (length (recent_sequences_ m0 ++ [sequence])) =
                   Z.of_nat (length (recent_sequences_ m0)) + 1)
      by (rewrite length_app; simpl; lia).
    rewrite Hlen.
    split; [done|]. split; [done|]. split; [done|]. split; [|done].
    apply Hmem. rewrite Hdq.
    destruct Hok0 as (_ & _ & Hle). unfold DUPLICATE_WINDOW_SIZE in *.
    destruct (10000 <? _) eqn:Hfull.
    - destruct (recent_sequences_ m0) as [|a dq]; simpl in *.
      + apply Z.ltb_lt in Hfull. lia.
      + apply elem_of_app. right. left.
    - apply elem_of_app. right. left. }
  split; [|split].
  - intros Hd. subst r. rewrite process_packet_duplicate by done. simpl.
    by destruct (highest_seq_seen_ m <? sequence).
  - intros Hd. by apply Hfresh.
  - intros Hd seqs data' ts' Hlen Hnd Hnew m'.
    destruct (Hfresh m data timestamp Hok Hd) as (_ & Hdq & _ & _ & Hok1).
    fold r in Hdq, Hok1.
    assert (Hsub : forall x, x ∈ recent_sequences_ r.2 ->
                     x ∈ recent_sequences_ m \/ x = sequence).
    { intros x. rewrite Hdq. destruct (DUPLICATE_WINDOW_SIZE <? _).
      - intros Hx. assert (x ∈ recent_sequences_ m ++ [sequence]) as Hx'.
        { destruct (recent_sequences_ m ++ [sequence]); [done|]. by right. }
        apply elem_of_app in Hx' as [?|?%list_elem_of_singleton]; tauto.
      - intros [?|?%list_elem_of_singleton]%elem_of_app; tauto. }
    apply NoDup_cons in Hnd as [Hs0 Hnd].
    destruct (fresh_run_deque data' ts' seqs r.2 Hok1) as [Hok2 Hfin].
    { apply NoDup_app. split; [apply Hok1|]. split; [|done].
      intros x Hx Hx'. destruct (Hsub x Hx) as [Hin| ->]; [|done].
      specialize (Hnew x Hx'). apply is_duplicate_not_elem in Hnew.
      apply Hnew. by apply Hok. }
    fold m' in Hok2, Hfin.
    assert (Hdq' : recent_sequences_ m' = seqs).
    { rewrite Hfin, length_app.
      assert (Z.of_nat (length (recent_sequences_ r.2)) <= DUPLICATE_WINDOW_SIZE)
        by apply Hok1.
      replace (length (recent_sequences_ r.2) + length seqs - Z.to_nat DUPLICATE_WINDOW_SIZE)%nat
        with (length (recent_sequences_ r.2)) by lia.
      by rewrite drop_app_length. }
    assert (Hout : is_duplicate m' sequence = false).
    { apply is_duplicate_not_elem. destruct Hok2 as (_ & Hset & _).
      by rewrite Hset, Hdq'. }
    split; [done|]. intros d t.
    destruct (Hfresh m' d t Hok2 Hout) as (H1 & _ & _ & H4 & _). done.
Qed.

End Window.

(** ** Gap timeouts *)

Section GapTimeout.

Implicit Types (m : Mgr) (g : GapFillRequest).

(** [periodic_maintenance] with a single pending request. *)
Lemma periodic_maintenance_single t m g :
  pending_gaps_ m = [g] ->
  periodic_maintenance t m =
    if GAP_TIMEOUT_NS <? wrap64 (t - request_time_ns g) then
      if retry_count g <? MAX_RETRIES then
        let g' := {| start_seq := start_seq g; end_seq := end_seq g;
                     request_time_ns := t;
                     retry_count := wrap8 (retry_count g + 1) |} in
        set_pending [g'] (invoke_callback g' m)
      else set_pending [g] (set_state STALE m)
    else set_pending [g] m.
Proof.
  intros Hp. unfold periodic_maintenance. rewrite Hp. simpl.
  destruct (GAP_TIMEOUT_NS <? _); [|reflexivity].
  destruct (retry_count g <? MAX_RETRIES); reflexivity.
Qed.

Lemma wrap8_retry g :
  (0 <= retry_count g < MAX_RETRIES) ->
  wrap8 (retry_count g + 1) = retry_count g + 1.
Proof. unfold MAX_RETRIES, wrap8. intros Hr. apply Z.mod_small. lia. Qed.

Lemma timed_out t g :
  is_u64 t -> is_u64 (request_time_ns g) ->
  request_time_ns g + GAP_TIMEOUT_NS < t ->
  (GAP_TIMEOUT_NS <? wrap64 (t - request_time_ns g)) = true.
Proof.
  unfold is_u64, GAP_TIMEOUT_NS. intros Ht Hg Hlt.
  rewrite wrap64_small by lia. apply Z.ltb_lt. lia.
Qed.

(** What one maintenance call does to a manager with one pending request:
    it retries, escalates, or does nothing. *)
Lemma maintenance_step t m g :
  pending_gaps_ m = [g] -> gap_fill_callback_ m = true ->
  0 <= retry_count g <= MAX_RETRIES ->
  let m' := periodic_maintenance t m in
  gap_fill_callback_ m' = true /\
  ((retry_count g < MAX_RETRIES /\
    pending_gaps_ m' = [retried t g] /\
    callback_trace m' = callback_trace m ++ [(retried t g, state_ m)] /\
    state_ m' = state_ m) \/
   (retry_count g = MAX_RETRIES /\
    pending_gaps_ m' = [g] /\ callback_trace m' = callback_trace m /\
    state_ m' = STALE) \/
   (pending_gaps_ m' = [g] /\ callback_trace m' = callback_trace m /\
    state_ m' = state_ m)).
Proof.
  intros Hp Hcb Hr m'. subst m'. rewrite (periodic_maintenance_single t m g Hp).
  destruct (GAP_TIMEOUT_NS <? _).
  - destruct (retry_count g <? MAX_RETRIES) eqn:Hlt.
    + apply Z.ltb_lt in Hlt. cbv zeta. rewrite wrap8_retry by lia.
      fold (retried t g). simpl.
      rewrite invoke_callback_cb, invoke_callback_trace, invoke_callback_state, Hcb.
      split; [done|]. left. done.
    + apply Z.ltb_ge in Hlt. simpl. split; [done|]. right. left.
      repeat split. lia.
  - simpl. split; [done|]. right. right. done.
Qed.

(** Over any sequence of maintenance calls the single request stays
    pending, each retry is one callback invocation, there are never more
    than MAX_RETRIES of them, and the feed turns Stale only when the
    retries are used up. *)
Lemma ticks_single_gap ts : forall m g,
  pending_gaps_ m = [g] -> gap_fill_callback_ m = true ->
  0 <= retry_count g <= MAX_RETRIES ->
  exists g',
    pending_gaps_ (ticks ts m) = [g'] /\
    gap_fill_callback_ (ticks ts m) = true /\
    retry_count g <= retry_count g' <= MAX_RETRIES /\
    start_seq g' = start_seq g /\ end_seq g' = end_seq g /\
    Z.of_nat (length (callback_trace (ticks ts m))) =
      Z.of_nat (length (callback_trace m)) + (retry_count g' - retry_count g) /\
    (state_ (ticks ts m) = state_ m \/
     (state_ (ticks ts m) = STALE /\ retry_count g' = MAX_RETRIES)).
Proof.
  induction ts as [|t ts IH]; intros m g Hp Hcb Hr.
  - exists g. simpl. repeat split; try done; try lia. left; reflexivity.
  - change (ticks (t :: ts) m) with (ticks ts (periodic_maintenance t m)).
    destruct (maintenance_step t m g Hp Hcb Hr) as (Hcb' & Hcase).
    destruct Hcase as [(Hlt & Hp' & Htr & Hst)|[(Heq & Hp' & Htr & Hst)|(Hp' & Htr & Hst)]].
    + destruct (IH _ _ Hp' Hcb') as (g' & H1 & H2 & H3 & H4 & H5 & H6 & H7);
        [simpl; lia|].
      exists g'. simpl in *. rewrite Htr, length_app in H6. simpl in H6.
      rewrite Hst in H7.
      split; [exact H1|]. split; [exact H2|]. split; [lia|].
      split; [exact H4|]. split; [exact H5|]. split; [lia|]. exact H7.
    + destruct (IH _ _ Hp' Hcb' Hr) as (g' & H1 & H2 & H3 & H4 & H5 & H6 & H7).
      exists g'. rewrite Htr in H6.
      split; [exact H1|]. split; [exact H2|]. split; [lia|].
      split; [exact H4|]. split; [exact H5|]. split; [lia|].
      right. split; [|lia]. destruct H7 as [H7|[H7 _]]; congruence.
    + destruct (IH _ _ Hp' Hcb' Hr) as (g' & H1 & H2 & H3 & H4 & H5 & H6 & H7).
      exists g'. rewrite Htr in H6. rewrite Hst in H7.
      split; [exact H1|]. split; [exact H2|]. split; [lia|].
      split; [exact H4|]. split; [exact H5|]. split; [lia|]. exact H7.
Qed.

(** The request registered by [handle_live_state] for an acceptable gap. *)
Lemma live_gap_registers_request m sequence data t0 :
  state_ m = LIVE -> is_duplicate m sequence = false ->
  is_u64 sequence -> is_u64 (next_expected_seq_ m) ->
  next_expected_seq_ m < sequence <= next_expected_seq_ m + MAX_GAP_SIZE ->
  let g0 := {| start_seq := next_expected_seq_ m; end_seq := sequence - 1;
               request_time_ns := t0; retry_count := 0 |} in
  let r := process_packet sequence data t0 m in
  r.1 = false /\
  pending_gaps_ r.2 = pending_gaps_ m ++ [g0] /\
  state_ r.2 = RECOVERING /\
  gap_fill_callback_ r.2 = gap_fill_callback_ m /\
  callback_trace r.2 =
    callback_trace m ++ (if gap_fill_callback_ m then [(g0, LIVE)] else []).
Proof.
  intros Hlive Hdup Hs Hn Hgap g0 r. subst r.
  rewrite process_packet_fresh, Hlive by done.
  unfold handle_live_state. rewrite !seen_next.
  unfold is_u64, MAX_GAP_SIZE in *.
  rewrite (proj2 (Z.eqb_neq _ _)) by lia.
  rewrite (proj2 (Z.ltb_ge sequence _)) by lia.
  rewrite !wrap64_small by lia.
  rewrite (proj2 (Z.ltb_ge 1000 _)) by lia.
  cbv zeta. cbn [fst snd bump set_stats next_expected_seq_ pending_gaps_].
  rewrite seen_next, seen_pending. fold g0.
  rewrite buffer_if_data_pending, buffer_if_data_state, buffer_if_data_trace,
    buffer_if_data_cb.
  cbn [set_state pending_gaps_ state_ callback_trace gap_fill_callback_].
  rewrite invoke_callback_pending, invoke_callback_trace, invoke_callback_cb.
  cbn [bump set_pending set_stats pending_gaps_ state_ callback_trace gap_fill_callback_].
  rewrite seen_trace, seen_cb, seen_state, Hlive. done.
Qed.

(** C9. Gap-timeout escalation.  With a callback installed and no other
    request pending, a gap detected in the Live state emits one request
    through the callback.  From then on, as long as the request is not
    filled: every [periodic_maintenance] call whose time exceeds the
    request time by more than GAP_TIMEOUT_NS retries when
    [retry_count < MAX_RETRIES] (the callback is invoked with the request,
    whose [request_time_ns] is now the current time and whose
    [retry_count] is one more) and otherwise turns the feed Stale; whatever
    the maintenance times, the callback has been invoked [1 + retry_count]
    times, never more than 1 + MAX_RETRIES = 4, and exactly 4 times when
    the feed has become Stale; and four calls, each made after the previous
    request has timed out, do make it Stale, the first three being the
    retries. *)
Theorem gap_timeout_escalation (m : Mgr) (sequence : Z)
    (data : option (list byte)) (t0 : Z) :
  state_ m = LIVE -> pending_gaps_ m = [] -> gap_fill_callback_ m = true ->
  is_duplicate m sequence = false ->
  is_u64 sequence -> is_u64 (next_expected_seq_ m) -> is_u64 t0 ->
  next_expected_seq_ m < sequence <= next_expected_seq_ m + MAX_GAP_SIZE ->
  let m0 := (process_packet sequence data t0 m).2 in
  let calls m' := Z.of_nat (length (callback_trace m')) -
                  Z.of_nat (length (callback_trace m)) in
  calls m0 = 1 /\ state_ m0 = RECOVERING /\
  (forall ts, exists g,
     let m1 := ticks ts m0 in
     pending_gaps_ m1 = [g] /\
     0 <= retry_count g <= MAX_RETRIES /\
     calls m1 = 1 + retry_count g /\
     (state_ m1 = RECOVERING \/ (state_ m1 = STALE /\ calls m1 = 1 + MAX_RETRIES)) /\
     forall t, is_u64 t -> is_u64 (request_time_ns g) ->
       request_time_ns g + GAP_TIMEOUT_NS < t ->
       let m2 := periodic_maintenance t m1 in
       if retry_count g <? MAX_RETRIES then
         pending_gaps_ m2 = [retried t g] /\
         callback_trace m2 = callback_trace m1 ++ [(retried t g, state_ m1)] /\
         state_ m2 = state_ m1
       else
         state_ m2 = STALE /\ callback_trace m2 = callback_trace m1) /\
  (forall t1 t2 t3 t4,
     is_u64 t1 -> is_u64 t2 -> is_u64 t3 -> is_u64 t4 ->
     t0 + GAP_TIMEOUT_NS < t1 -> t1 + GAP_TIMEOUT_NS < t2 ->
     t2 + GAP_TIMEOUT_NS < t3 -> t3 + GAP_TIMEOUT_NS < t4 ->
     state_ (ticks [t1; t2; t3] m0) = RECOVERING /\
     calls (ticks [t1; t2; t3] m0) = 1 + MAX_RETRIES /\
     state_ (ticks [t1; t2; t3; t4] m0) = STALE /\
     calls (ticks [t1; t2; t3; t4] m0) = 1 + MAX_RETRIES).
Proof.
  intros Hlive Hpend Hcb Hdup Hs Hn Ht0 Hgap m0 calls.
  destruct (live_gap_registers_request m sequence data t0 Hlive Hdup Hs Hn Hgap)
    as (_ & Hp0 & Hst0 & Hcb0 & Htr0).
  fold m0 in Hp0, Hst0, Hcb0, Htr0.
  rewrite Hpend in Hp0. rewrite Hcb in Hcb0, Htr0. simpl in Hp0.
  set (g0 := {| start_seq := next_expected_seq_ m; end_seq := sequence - 1;
                request_time_ns := t0; retry_count := 0 |}) in *.
  assert (Hc0 : calls m0 = 1).
  { unfold calls. rewrite Htr0, length_app. simpl. lia. }
  split; [exact Hc0|]. split; [exact Hst0|]. split.
  - intros ts.
    destruct (ticks_single_gap ts m0 g0 Hp0 Hcb0) as (g & H1 & H2 & H3 & _ & _ & H6 & H7).
    { simpl. unfold MAX_RETRIES. lia. }
    exists g. cbv zeta. simpl in H3, H6.
    assert (Hc : calls (ticks ts m0) = 1 + retry_count g).
    { unfold calls in *. lia. }
    split; [done|]. split; [lia|]. split; [done|]. split.
    { destruct H7 as [H7|[H7 H8]]; [left; congruence|right]. split; [done|]. lia. }
    intros t Ht Hg Hlt.
    rewrite (periodic_maintenance_single t _ g H1), (timed_out t g Ht Hg Hlt).
    destruct (retry_count g <? MAX_RETRIES) eqn:Hr.
    + apply Z.ltb_lt in Hr. cbv zeta. rewrite wrap8_retry by lia.
      fold (retried t g). simpl.
      rewrite invoke_callback_trace, invoke_callback_state, H2. done.
    + done.
  - intros t1 t2 t3 t4 U1 U2 U3 U4 L1 L2 L3 L4.
    assert (Hstep : forall t m1 g, is_u64 t -> is_u64 (request_time_ns g) ->
              request_time_ns g + GAP_TIMEOUT_NS < t ->
              pending_gaps_ m1 = [g] -> gap_fill_callback_ m1 = true ->
              0 <= retry_count g < MAX_RETRIES ->
              pending_gaps_ (periodic_maintenance t m1) = [retried t g] /\
              gap_fill_callback_ (periodic_maintenance t m1) = true /\
              state_ (periodic_maintenance t m1) = state_ m1 /\
              calls (periodic_maintenance t m1) = calls m1 + 1).
    { intros t m1 g Ht Hg Hlt Hp1 Hcb1 Hr.
      rewrite (periodic_maintenance_single t _ g Hp1), (timed_out t g Ht Hg Hlt).
      rewrite (proj2 (Z.ltb_lt _ _)) by lia. cbv zeta.
      rewrite wrap8_retry by lia. fold (retried t g). simpl.
      rewrite invoke_callback_cb, invoke_callback_state.
      unfold calls. simpl. rewrite invoke_callback_trace, Hcb1, length_app. simpl.
      repeat split; try done. lia. }
    change (ticks [t1; t2; t3; t4] m0)
      with (periodic_maintenance t4 (ticks [t1; t2; t3] m0)).
    change (ticks [t1; t2; t3] m0)
      with (periodic_maintenance t3 (periodic_maintenance t2 (periodic_maintenance t1 m0))).
    destruct (Hstep t1 m0 g0 U1 Ht0 L1 Hp0 Hcb0) as (P1 & C1 & S1 & N1);
      [simpl; unfold MAX_RETRIES; lia|].
    destruct (Hstep t2 _ (retried t1 g0) U2 U1 L2 P1 C1) as (P2 & C2 & S2 & N2);
      [simpl; unfold MAX_RETRIES; lia|].
    destruct (Hstep t3 _ (retried t2 (retried t1 g0)) U3 U2 L3 P2 C2)
      as (P3 & C3 & S3 & N3);
      [simpl; unfold MAX_RETRIES; lia|].
    split; [congruence|]. split; [unfold MAX_RETRIES; lia|].
    rewrite (periodic_maintenance_single t4 _ _ P3).
    rewrite (timed_out t4 (retried t3 (retried t2 (retried t1 g0))) U4 U3 L4). simpl.
    split; [done|]. unfold calls in *. simpl. unfold MAX_RETRIES. lia.
Qed.

End GapTimeout.

(** ** The SPSC ring *)

Section Ring.

Context {T : Type} `{Inhabited T}.
Variable Size : Z.

Local Abbreviation Queue := (SPSCQueue.Queue T).
Local Abbreviation try_push := (@SPSCQueue.try_push T Size).
Local Abbreviation try_pop := (@SPSCQueue.try_pop T _ Size).
Local Abbreviation push_all := (@SPSCQueue.push_all T Size).
Local Abbreviation run_qops := (@SPSCQueue.run_qops T _ Size).
Local Abbreviation empty_queue := (@SPSCQueue.empty_queue T _ Size).
Local Abbreviation ring_inv := (@SPSCQueue.ring_inv T Size).
Local Abbreviation write_pos_ := SPSCQueue.write_pos_.
Local Abbreviation read_pos_ := SPSCQueue.read_pos_.
Local Abbreviation cached_read_pos_ := SPSCQueue.cached_read_pos_.

Implicit Types (q : Queue) (v : T).

Lemma ring_inv_empty : 0 <= Size -> ring_inv empty_queue.
Proof.
  intros HS. unfold SPSCQueue.ring_inv, SPSCQueue.empty_queue. simpl.
  rewrite length_replicate. lia.
Qed.

(** The two tests of [try_push], without the modular arithmetic. *)
Lemma try_push_tests q v :
  ring_inv q ->
  (try_push v q).1 = false <->
    Size <= write_pos_ q - cached_read_pos_ q /\ Size <= write_pos_ q - read_pos_ q.
Proof.
  intros (Hc & Hr & Hcw & Hw & Hl). unfold SPSCQueue.try_push. simpl.
  rewrite (wrap64_small (write_pos_ q + 1)) by lia.
  rewrite !wrap64_small by lia.
  destruct (Size <? write_pos_ q + 1 - cached_read_pos_ q) eqn:E1;
    [destruct (Size <? write_pos_ q + 1 - read_pos_ q) eqn:E2|]; simpl;
    rewrite ?Z.ltb_lt, ?Z.ltb_ge in *; split; try done; lia.
Qed.

Lemma try_push_full_iff q v :
  ring_inv q ->
  (try_push v q).1 = false <-> Size <= write_pos_ q - read_pos_ q.
Proof.
  intros Hinv. rewrite (try_push_tests q v Hinv).
  destruct Hinv as (Hc & _). lia.
Qed.

(** A failed push changes neither position; a successful one advances the
    write position by one. *)
Lemma try_push_positions q v :
  ring_inv q ->
  read_pos_ (try_push v q).2 = read_pos_ q /\
  write_pos_ (try_push v q).2 =
    (if (try_push v q).1 then write_pos_ q + 1 else write_pos_ q).
Proof.
  intros (Hc & Hr & Hcw & Hw & Hl). unfold SPSCQueue.try_push. simpl.
  rewrite (wrap64_small (write_pos_ q + 1)) by lia.
  repeat case_match; simpl; rewrite ?wrap64_small by lia; done.
Qed.

Lemma try_push_inv q v :
  ring_inv q -> write_pos_ q + 2 < 2 ^ 64 -> ring_inv (try_push v q).2.
Proof.
  intros (Hc & Hr & Hcw & Hw & Hl) Hw2.
  unfold SPSCQueue.try_push, SPSCQueue.ring_inv. simpl.
  rewrite (wrap64_small (write_pos_ q + 1)) by lia.
  rewrite !wrap64_small by lia.
  destruct (Size <? write_pos_ q + 1 - cached_read_pos_ q) eqn:E1;
    [destruct (Size <? write_pos_ q + 1 - read_pos_ q) eqn:E2|]; simpl;
    rewrite ?length_insert, ?wrap64_small by lia;
    rewrite ?Z.ltb_lt, ?Z.ltb_ge in *; lia.
Qed.

(** A pop succeeds exactly when the queue is not empty, and then advances
    the read position by one. *)
Lemma try_pop_positions q :
  ring_inv q ->
  write_pos_ (try_pop q).2 = write_pos_ q /\
  (is_Some (try_pop q).1 <-> read_pos_ q < write_pos_ q) /\
  read_pos_ (try_pop q).2 =
    match (try_pop q).1 with
    | Some _ => read_pos_ q + 1
    | None => read_pos_ q
    end.
Proof.
  intros (Hc & Hr & Hcw & Hw & Hl). unfold SPSCQueue.try_pop, SPSCQueue.load. simpl.
  destruct (SPSCQueue.cached_write_pos_ q <=? read_pos_ q) eqn:E1;
    [destruct (write_pos_ q <=? read_pos_ q) eqn:E2|]; simpl;
    rewrite ?Z.leb_le, ?Z.leb_gt in *; rewrite ?wrap64_small by lia;
    (split; [done|]); (split; [|done]); split; intros Hx; try lia; try done;
    by destruct Hx.
Qed.

Lemma try_pop_inv q : ring_inv q -> ring_inv (try_pop q).2.
Proof.
  intros (Hc & Hr & Hcw & Hw & Hl).
  unfold SPSCQueue.try_pop, SPSCQueue.load, SPSCQueue.ring_inv. simpl.
  destruct (SPSCQueue.cached_write_pos_ q <=? read_pos_ q) eqn:E1;
    [destruct (write_pos_ q <=? read_pos_ q) eqn:E2|]; simpl;
    rewrite ?Z.leb_le, ?Z.leb_gt in *; rewrite ?wrap64_small by lia; lia.
Qed.

Lemma run_qops_inv ops : forall q,
  ring_inv q ->
  write_pos_ q + Z.of_nat (length ops) + 1 < 2 ^ 64 ->
  ring_inv (run_qops ops q) /\
  write_pos_ (run_qops ops q) <= write_pos_ q + Z.of_nat (length ops).
Proof.
  induction ops as [|op ops IH]; intros q Hinv Hb; simpl in *; [split; [done|lia]|].
  destruct op as [v|]; simpl.
  - destruct (try_push_positions q v Hinv) as [_ Hw].
    destruct (IH (try_push v q).2) as [Hi Hle].
    + apply try_push_inv; [done|lia].
    + rewrite Hw. destruct (try_push v q).1; lia.
    + split; [done|]. rewrite Hw in Hle. destruct (try_push v q).1; lia.
  - destruct (try_pop_positions q Hinv) as [Hw _].
    destruct (IH (try_pop q).2) as [Hi Hle].
    + by apply try_pop_inv.
    + rewrite Hw. lia.
    + split; [done|]. rewrite Hw in Hle. lia.
Qed.

(** Pushes into free slots all succeed. *)
Lemma push_all_free items : forall q,
  ring_inv q ->
  write_pos_ q - read_pos_ q + Z.of_nat (length items) <= Size ->
  write_pos_ q + Z.of_nat (length items) + 1 < 2 ^ 64 ->
  (push_all items q).1 = replicate (length items) true /\
  ring_inv (push_all items q).2 /\
  write_pos_ (push_all items q).2 = write_pos_ q + Z.of_nat (length items) /\
  read_pos_ (push_all items q).2 = read_pos_ q.
Proof.
  induction items as [|x items IH]; intros q Hinv Hfree Hb; simpl in *.
  - split; [done|]. split; [done|]. split; [lia|done].
  - assert (Hok : (try_push x q).1 = true).
    { destruct (try_push x q).1 eqn:E; [done|].
      apply try_push_full_iff in E; [lia|done]. }
    destruct (try_push_positions q x Hinv) as [Hr Hw]. rewrite Hok in Hw.
    destruct (try_push x q) as [ok q1] eqn:E. simpl in *. subst ok.
    assert (Hinv1 : ring_inv q1).
    { replace q1 with (try_push x q).2 by (by rewrite E).
      apply try_push_inv; [done|lia]. }
    destruct (IH q1 Hinv1) as (H1 & H2 & H3 & H4); [lia|lia|].
    destruct (push_all items q1) as [oks q2]. simpl in *.
    rewrite H1. split; [done|]. split; [done|]. split; [lia|congruence].
Qed.

(** C6. Ring fullness boundary, for a ring of capacity [Size] driven by
    one producer and one consumer whose calls do not overlap, short of
    2^64 pushes.  In every state reached from the empty ring the write
    index is between 0 and [Size] ahead of the read index, and [try_push]
    returns false exactly when it is [Size] ahead, that is when both the
    test against the cached read position and the test against the
    refreshed one find the ring full.  Starting from empty, [Size]
    consecutive pushes succeed and the next returns false; after one
    successful pop exactly one further push succeeds, and the one after
    that returns false. *)
Theorem ring_fullness_boundary :
  0 < Size -> Size + 3 < 2 ^ 64 ->
  (forall ops v, Z.of_nat (length ops) + 2 < 2 ^ 64 ->
     let q := run_qops ops empty_queue in
     0 <= write_pos_ q - read_pos_ q <= Size /\
     ((try_push v q).1 = false <-> Size <= write_pos_ q - read_pos_ q) /\
     ((try_push v q).1 = false <->
        Size <= write_pos_ q - cached_read_pos_ q /\
        Size <= write_pos_ q - read_pos_ q)) /\
  (forall items v w x, Z.of_nat (length items) = Size ->
     let pushed := push_all items empty_queue in
     let full := try_push v pushed.2 in
     let popped := try_pop full.2 in
     let again := try_push w popped.2 in
     let last := try_push x again.2 in
     pushed.1 = replicate (length items) true /\
     full.1 = false /\
     is_Some popped.1 /\
     again.1 = true /\
     last.1 = false).
Proof.
  intros Hpos Hbig. split.
  - intros ops v Hops q.
    destruct (run_qops_inv ops empty_queue) as [Hinv _].
    { apply ring_inv_empty. lia. }
    { simpl. lia. }
    fold q in Hinv. split.
    + destruct Hinv as (_ & Hr & _). lia.
    + split; [by apply try_push_full_iff|by apply try_push_tests].
  - intros items v w x Hlen pushed full popped again last.
    destruct (push_all_free items empty_queue) as (H1 & H2 & H3 & H4).
    { apply ring_inv_empty. lia. }
    { simpl. lia. }
    { simpl. lia. }
    fold pushed in H1, H2, H3, H4. simpl in H3, H4.
    assert (Hfull : full.1 = false).
    { apply try_push_full_iff; [done|]. lia. }
    destruct (try_push_positions pushed.2 v H2) as [Fr Fw].
    fold full in Fr, Fw. rewrite Hfull in Fw.
    assert (Finv : ring_inv full.2) by (apply try_push_inv; [done|lia]).
    destruct (try_pop_positions full.2 Finv) as (Pw & Ps & Pr).
    fold popped in Pw, Ps, Pr.
    assert (Hpop : is_Some popped.1) by (apply Ps; lia).
    destruct Hpop as [first Hfirst]. rewrite Hfirst in Pr.
    assert (Pinv : ring_inv popped.2) by (by apply try_pop_inv).
    assert (Hagain : again.1 = true).
    { destruct again.1 eqn:E; [done|].
      apply try_push_full_iff in E; [lia|done]. }
    destruct (try_push_positions popped.2 w Pinv) as [Ar Aw].
    fold again in Ar, Aw. rewrite Hagain in Aw.
    assert (Ainv : ring_inv again.2) by (apply try_push_inv; [done|lia]).
    split; [done|]. split; [done|]. split; [by exists first|]. split; [done|].
    apply try_push_full_iff; [done|]. lia.
Qed.

End Ring.

(** ** The ingest loop *)

Section Ingest.

Variable rdtsc : nat -> Z.
Variable tsc_to_ns : Z -> Z.

Local Abbreviation Handler := FeedHandler.Handler.
Local Abbreviation run_loop := (FeedHandler.run_loop rdtsc tsc_to_ns).
Local Abbreviation fh_process_packet := (FeedHandler.process_packet rdtsc tsc_to_ns).
Local Abbreviation process_buffered_packet :=
  (FeedHandler.process_buffered_packet rdtsc tsc_to_ns).
Local Abbreviation RunningCleared := FeedHandler.RunningCleared.
Local Abbreviation ReceiveErrorBreak := FeedHandler.ReceiveErrorBreak.
Local Abbreviation RecvError := UDPReceiver.RecvError.

Implicit Types (h : Handler) (r : UDPReceiver.Received)
  (inputs : list FeedHandler.LoopInput).

Local Abbreviation continues := FeedHandler.continues.

Lemma receive_internal_sign r :
  let bytes := (UDPReceiver.receive_internal r).1 in
  (r = RecvError -> bytes = -1) /\ (r <> RecvError -> 0 <= bytes).
Proof.
  destruct r as [bs| |]; cbv zeta; unfold UDPReceiver.receive_internal; simpl.
  - split; [done|]. intros _. lia.
  - split; [done|]. intros _. lia.
  - split; [done|]. intros Hne. by destruct Hne.
Qed.

Lemma run_loop_continue r rest sc h :
  r <> RecvError ->
  exists sc' h', run_loop ((true, r) :: rest) sc h = run_loop rest sc' h'.
Proof.
  intros Hr. destruct (receive_internal_sign r) as [_ Hs]. specialize (Hs Hr).
  cbn [FeedHandler.run_loop negb].
  destruct (FeedHandler.read_tsc rdtsc h) as [current_time h1].
  destruct (UDPReceiver.receive_internal r) as [bytes buf]. simpl in Hs.
  destruct (0 <? bytes) eqn:E1; [by eexists _, _|].
  apply Z.ltb_ge in E1.
  rewrite (proj2 (Z.eqb_eq bytes 0)) by lia. by eexists _, _.
Qed.

Lemma run_loop_error rest sc h :
  exists h',
    run_loop ((true, RecvError) :: rest) sc h = (Some ReceiveErrorBreak, h') /\
    FeedHandler.cerr h' = FeedHandler.cerr h ++ ["[FeedHandler] Receive error"%string].
Proof.
  cbn [FeedHandler.run_loop negb].
  eexists. split; [reflexivity|].
  unfold FeedHandler.maintenance. repeat case_match; reflexivity.
Qed.

Lemma run_loop_exit inputs : forall sc h e,
  (run_loop inputs sc h).1 = Some e ->
  exists pre i rest,
    inputs = pre ++ i :: rest /\ Forall continues pre /\
    ((e = RunningCleared /\ i.1 = false) \/
     (e = ReceiveErrorBreak /\ i = (true, RecvError))).
Proof.
  induction inputs as [|[g r] inputs IH]; intros sc h e He; [done|].
  destruct g.
  - assert (r = RecvError \/ r <> RecvError) as [->|Hr]
      by (destruct r; [right|right|left]; done).
    + destruct (run_loop_error inputs sc h) as (h' & Heq & _).
      pose proof (eq_trans (eq_sym (f_equal fst Heq)) He) as Hx.
      simpl in Hx. injection Hx as <-.
      exists [], (true, RecvError), inputs. split; [done|]. split; [constructor|].
      right. done.
    + destruct (run_loop_continue r inputs sc h Hr) as (sc' & h' & Heq).
      pose proof (eq_trans (eq_sym (f_equal fst Heq)) He) as Hx.
      destruct (IH _ _ _ Hx) as (pre & i & rest & -> & Hpre & Hcase).
      exists ((true, r) :: pre), i, rest. split; [done|]. split; [|done].
      constructor; [|done]. split; done.
  - simpl in He. injection He as <-.
    exists [], (false, r), inputs. split; [done|]. split; [constructor|].
    left. done.
Qed.

Lemma run_loop_running inputs : forall sc h,
  Forall continues inputs -> (run_loop inputs sc h).1 = None.
Proof.
  induction inputs as [|[g r] inputs IH]; intros sc h Hall; [done|].
  apply Forall_cons in Hall as [[Hg Hr] Hall]. simpl in Hg, Hr. subst g.
  destruct (run_loop_continue r inputs sc h Hr) as (sc' & h' & Heq).
  exact (eq_trans (f_equal fst Heq) (IH sc' h' Hall)).
Qed.

(** C2 as the code has it.  When [g_running] is set, a datagram or a
    would-block result sends the loop into its next iteration; the error
    result writes "Receive error" to the error stream and leaves the loop
    by [break], without looking at [g_running] again.  When the loop test
    finds [g_running] cleared the loop is left at once.  So the loop
    returns only when [g_running] is cleared or the receive returns an
    error, and as long as neither happens it keeps iterating. *)
Theorem ingest_loop_exits :
  (forall r rest sc h, r <> RecvError ->
     exists sc' h', run_loop ((true, r) :: rest) sc h = run_loop rest sc' h') /\
  (forall rest sc h, exists h',
     run_loop ((true, RecvError) :: rest) sc h = (Some ReceiveErrorBreak, h') /\
     FeedHandler.cerr h' = FeedHandler.cerr h ++ ["[FeedHandler] Receive error"%string]) /\
  (forall r rest sc h,
     run_loop ((false, r) :: rest) sc h = (Some RunningCleared, h)) /\
  (forall inputs sc h e, (run_loop inputs sc h).1 = Some e ->
     exists pre i rest,
       inputs = pre ++ i :: rest /\ Forall continues pre /\
       ((e = RunningCleared /\ i.1 = false) \/
        (e = ReceiveErrorBreak /\ i = (true, RecvError)))) /\
  (forall inputs sc h,
     Forall continues inputs -> (run_loop inputs sc h).1 = None).
Proof.
  split; [exact run_loop_continue|]. split; [exact run_loop_error|].
  split; [done|]. split; [intros inputs; apply run_loop_exit|].
  intros inputs; apply run_loop_running.
Qed.

(** *** The length check of [process_packet] *)

Lemma handlers_total_packets s data ts m :
  total_packets (PacketManager.stats_ (handle_initial_state s m).2) =
    total_packets (PacketManager.stats_ m) /\
  total_packets (PacketManager.stats_ (handle_live_state s data ts m).2) =
    total_packets (PacketManager.stats_ m) /\
  total_packets (PacketManager.stats_ (handle_recovering_state s data m).2) =
    total_packets (PacketManager.stats_ m).
Proof.
  split; [done|]. split.
  - unfold handle_live_state. repeat case_match; simpl; try done.
    unfold buffer_if_data, buffer_packet, invoke_callback.
    repeat case_match; reflexivity.
  - unfold handle_recovering_state. repeat case_match; simpl; try done.
    + unfold buffer_if_data, buffer_packet. repeat case_match; reflexivity.
    + unfold process_gap_fill. simpl. repeat case_match; reflexivity.
Qed.

(** Every call of the manager's [process_packet] is counted. *)
Lemma process_packet_counts s data ts m :
  total_packets (PacketManager.stats_ (process_packet s data ts m).2) =
    wrap64 (total_packets (PacketManager.stats_ m) + 1).
Proof.
  destruct (is_duplicate m s) eqn:Hd.
  - rewrite process_packet_duplicate by done. simpl.
    by destruct (highest_seq_seen_ m <? s).
  - rewrite process_packet_fresh by done.
    destruct (handlers_total_packets s data ts (seen s m)) as (Hi & Hl & Hr).
    assert (Hs : total_packets (PacketManager.stats_ (seen s m)) =
                 wrap64 (total_packets (PacketManager.stats_ m) + 1)).
    { unfold seen. rewrite mark_seen_stats. by destruct (highest_seq_seen_ m <? s). }
    destruct (state_ m); simpl; congruence.
Qed.

Lemma parse_and_queue_manager packet recv_tsc h :
  FeedHandler.packet_manager_
    (FeedHandler.parse_and_queue_packet rdtsc tsc_to_ns packet recv_tsc h) =
  FeedHandler.packet_manager_ h.
Proof.
  unfold FeedHandler.parse_and_queue_packet, FeedHandler.read_tsc.
  destruct (FeedHandler.normalize packet recv_tsc) as [event|]; [|done].
  destruct (SPSCQueue.try_push _ _ _) as [[] q]; reflexivity.
Qed.

Lemma process_buffered_manager packets recv_tsc : forall h,
  FeedHandler.packet_manager_
    (fold_left (fun acc packet_data => process_buffered_packet packet_data recv_tsc acc)
               packets h) =
  FeedHandler.packet_manager_ h.
Proof.
  induction packets as [|p packets IH]; intros h; simpl; [done|].
  rewrite IH. unfold FeedHandler.process_buffered_packet.
  case_match; [done|apply parse_and_queue_manager].
Qed.

(** C10. The minimum-length threshold.  [sizeof(MarketDataPacket)] is the
    12-byte header plus the 256-byte payload union, 268 bytes.  A datagram
    shorter than that leaves the handler exactly as it was: the packet
    manager is not called and nothing is pushed on the ring, however
    complete its header and its payload are; the same holds for a
    buffered packet, and in the loop iteration that received it the
    manager is only drained.  A datagram of at least that length does
    reach the packet manager, which counts it. *)
Theorem short_datagram_never_sequenced (data : list byte) (recv_tsc : Z) (h : Handler) :
  Wire.sizeof_MarketDataPacket = 12 + 256 /\
  (Z.of_nat (length data) < Wire.sizeof_MarketDataPacket ->
     fh_process_packet data recv_tsc h = h /\
     process_buffered_packet data recv_tsc h = h /\
     FeedHandler.packet_manager_ (fh_process_packet data recv_tsc h) =
       FeedHandler.packet_manager_ h /\
     FeedHandler.event_queue_ (fh_process_packet data recv_tsc h) =
       FeedHandler.event_queue_ h /\
     FeedHandler.packet_manager_ (FeedHandler.on_datagram rdtsc tsc_to_ns data h) =
       (get_ready_packets (FeedHandler.packet_manager_ h)).2) /\
  (Wire.sizeof_MarketDataPacket <= Z.of_nat (length data) ->
     total_packets (PacketManager.stats_
        (FeedHandler.packet_manager_ (fh_process_packet data recv_tsc h))) =
     wrap64 (total_packets (PacketManager.stats_ (FeedHandler.packet_manager_ h)) + 1)) /\
  (fh_process_packet data recv_tsc h <> h ->
     Wire.sizeof_MarketDataPacket <= Z.of_nat (length data)).
Proof.
  split; [reflexivity|].
  assert (Hshort : Z.of_nat (length data) < Wire.sizeof_MarketDataPacket ->
                   fh_process_packet data recv_tsc h = h).
  { intros Hlt. unfold FeedHandler.process_packet.
    by rewrite (proj2 (Z.ltb_lt _ _) Hlt). }
  split; [|split].
  - intros Hlt. rewrite (Hshort Hlt). split; [done|]. split; [|split; [done|split; [done|]]].
    + unfold FeedHandler.process_buffered_packet.
      by rewrite (proj2 (Z.ltb_lt _ _) Hlt).
    + unfold FeedHandler.on_datagram, FeedHandler.read_tsc.
      unfold FeedHandler.process_packet at 1.
      rewrite (proj2 (Z.ltb_lt _ _) Hlt). cbn [FeedHandler.packet_manager_ FeedHandler.set_fh_stats].
      destruct (get_ready_packets (FeedHandler.packet_manager_ h)) as [ready m'].
      by rewrite process_buffered_manager.
  - intros Hge. unfold FeedHandler.process_packet.
    rewrite (proj2 (Z.ltb_ge _ _) Hge).
    pose proof (process_packet_counts (Wire.packet_sequence data) (Some data)
                  recv_tsc (FeedHandler.packet_manager_ h)) as Hc.
    destruct (process_packet _ _ _ _) as [ok m]. simpl in Hc.
    repeat case_match; rewrite ?parse_and_queue_manager; simpl; exact Hc.
  - intros Hne.
    destruct (Z_lt_ge_dec (Z.of_nat (length data)) Wire.sizeof_MarketDataPacket)
      as [Hlt|Hge]; [|lia].
    by destruct Hne; apply Hshort.
Qed.

End Ingest.

(** C2, the specified behaviour fails: with [g_running] set at every loop test,
    a receive error in the first iteration ends the loop; the two
    would-block results that follow are never received. *)
Lemma receive_error_ends_ingest_loop :
  let inputs := [(true, UDPReceiver.RecvError); (true, UDPReceiver.WouldBlock);
                 (true, UDPReceiver.WouldBlock)] in
  let h0 := FeedHandler.new (SPSCQueue.empty_queue FeedHandler.QUEUE_SIZE)
                            FeedHandler.fh_stats0 in
  let r := FeedHandler.run (fun k => Z.of_nat k) (fun t => t / 3) inputs h0 in
  Forall (fun i : FeedHandler.LoopInput => i.1 = true) inputs /\
  r.1 = Some FeedHandler.ReceiveErrorBreak /\
  FeedHandler.cerr r.2 = ["[FeedHandler] Receive error"%string] /\
  FeedHandler.tsc_reads r.2 = 2%nat.
Proof.
  split; [repeat constructor|]. vm_compute. repeat split.
Qed.

(** ** Instances *)

Section Instances.

Import Examples.

(** C7 at a manager holding 5, 6 and 8 with [next_expected] = 5: the call
    returns the packets of 5 and 6. *)
Lemma get_ready_packets_drains_run_witness :
  next_expected_seq_ (get_ready_packets buffered_5_6_8).2 =
    wrap64 (next_expected_seq_ buffered_5_6_8 +
            Z.of_nat (length (get_ready_packets buffered_5_6_8).1)) /\
  resequence_buffer_ (get_ready_packets buffered_5_6_8).2
    !! next_expected_seq_ (get_ready_packets buffered_5_6_8).2 = None.
Proof.
  assert (H1 : is_u64 (next_expected_seq_ buffered_5_6_8)).
  { vm_compute. split; [intros H; discriminate H|reflexivity]. }
  assert (H2 : is_u64 (resequenced (PacketManager.stats_ buffered_5_6_8))).
  { vm_compute. split; [intros H; discriminate H|reflexivity]. }
  destruct (get_ready_packets_drains_run buffered_5_6_8 H1 H2)
    as (_ & Hstop & _ & _ & Hnext & _).
  split; [exact Hnext|exact Hstop].
Defined.

(** C3 at the sequence 2000 after 1,2. *)
Lemma oversized_gap_turns_feed_stale_witness :
  state_ (process_packet 2000 (Some (Wire.trade_packet 2000)) 100 live_after_1_2).2 = STALE /\
  callback_trace (process_packet 2000 (Some (Wire.trade_packet 2000)) 100 live_after_1_2).2 =
    callback_trace live_after_1_2.
Proof.
  assert (H1 : state_ live_after_1_2 = LIVE) by reflexivity.
  assert (H2 : is_duplicate live_after_1_2 2000 = false) by reflexivity.
  assert (H3 : is_u64 2000) by (unfold is_u64; lia).
  assert (H4 : is_u64 (next_expected_seq_ live_after_1_2)).
  { vm_compute. split; [intros H; discriminate H|reflexivity]. }
  assert (H5 : next_expected_seq_ live_after_1_2 + MAX_GAP_SIZE < 2000)
    by (vm_compute; reflexivity).
  destruct (oversized_gap_turns_feed_stale live_after_1_2 2000
              (Some (Wire.trade_packet 2000)) 100 H1 H2 H3 H4 H5)
    as (_ & Hst & Htr & _).
  split; [exact Hst|exact Htr].
Defined.

(** C5 at a packet in the Recovering state. *)
Lemma next_expected_never_regresses_witness :
  next_expected_seq_ recovering_after_1_2_5 <=
  next_expected_seq_ (apply_op (OpPacket 3 None 0) recovering_after_1_2_5).
Proof.
  apply (next_expected_never_regresses (OpPacket 3 None 0) recovering_after_1_2_5).
  - intros _. vm_compute. intros H. discriminate H.
  - vm_compute. intros H. discriminate H.
  - vm_compute. reflexivity.
Defined.

(** C6 at a ring of four integers. *)
Lemma ring_fullness_boundary_witness :
  (SPSCQueue.push_all 4 [10; 20; 30; 40] (SPSCQueue.empty_queue 4)).1 =
    replicate 4 true /\
  (SPSCQueue.try_push 4 50
     (SPSCQueue.push_all 4 [10; 20; 30; 40] (SPSCQueue.empty_queue 4)).2).1 = false.
Proof.
  assert (H1 : 0 < 4) by lia.
  assert (H2 : 4 + 3 < 2 ^ 64) by lia.
  destruct (ring_fullness_boundary (T := Z) 4 H1 H2) as [_ Hscen].
  destruct (Hscen [10; 20; 30; 40] 50 60 70 eq_refl) as (Ha & Hb & _).
  split; [exact Ha|exact Hb].
Defined.

(** C8 at a fresh manager: sequence 0, then the 10000 sequences 1..10000. *)
Lemma duplicate_window_policy_witness :
  is_duplicate
    (run_ops ((fun s => OpPacket s None 0) <$> ten_thousand_more)
             (process_packet 0 None 0 (init true)).2) 0 = false.
Proof.
  destruct (duplicate_window_policy (init true) 0 None 0 (window_ok_init true))
    as (_ & _ & Hevict).
  assert (Hlen : Z.of_nat (length ten_thousand_more) = DUPLICATE_WINDOW_SIZE).
  { unfold ten_thousand_more. rewrite length_fmap, length_seq. reflexivity. }
  assert (Hnd : NoDup (0 :: ten_thousand_more)).
  { unfold ten_thousand_more. apply NoDup_cons. split.
    - intros (k & Hk & Hin)%list_elem_of_fmap. apply elem_of_seq in Hin. lia.
    - apply NoDup_fmap_2; [apply Nat2Z.inj'|apply NoDup_seq]. }
  assert (Hnew : forall x, x ∈ ten_thousand_more -> is_duplicate (init true) x = false).
  { intros x _. apply is_duplicate_not_elem. apply not_elem_of_empty. }
  pose proof (Hevict eq_refl ten_thousand_more (fun _ => None) (fun _ => 0)
                Hlen Hnd Hnew) as Hw.
  cbv beta zeta in Hw. exact (proj1 Hw).
Defined.

(** C9 at the gap (3,4) requested at time 100, with four maintenance calls
    two seconds apart. *)
Lemma gap_timeout_escalation_witness :
  state_ (ticks [2000000000; 4000000000; 6000000000; 8000000000]
                (process_packet 5 None 100 live_after_1_2).2) = STALE /\
  length (callback_trace
            (ticks [2000000000; 4000000000; 6000000000; 8000000000]
                   (process_packet 5 None 100 live_after_1_2).2)) = 4%nat.
Proof.
  assert (H1 : state_ live_after_1_2 = LIVE) by reflexivity.
  assert (H2 : pending_gaps_ live_after_1_2 = []) by reflexivity.
  assert (H3 : gap_fill_callback_ live_after_1_2 = true) by reflexivity.
  assert (H4 : is_duplicate live_after_1_2 5 = false) by reflexivity.
  assert (H5 : is_u64 5) by (unfold is_u64; lia).
  assert (H6 : is_u64 (next_expected_seq_ live_after_1_2)).
  { vm_compute. split; [intros H; discriminate H|reflexivity]. }
  assert (H7 : is_u64 100) by (unfold is_u64; lia).
  assert (H8 : next_expected_seq_ live_after_1_2 < 5 <=
               next_expected_seq_ live_after_1_2 + MAX_GAP_SIZE).
  { vm_compute. split; [reflexivity|intros H; discriminate H]. }
  destruct (gap_timeout_escalation live_after_1_2 5 None 100 H1 H2 H3 H4 H5 H6 H7 H8)
    as (_ & _ & _ & Hfour).
  destruct (Hfour 2000000000 4000000000 6000000000 8000000000)
    as (_ & _ & Hst & Hcalls);
    try (unfold is_u64; lia); try (unfold GAP_TIMEOUT_NS; lia).
  split; [exact Hst|].
  change (callback_trace live_after_1_2) with (@nil CallbackCall) in Hcalls.
  change (Z.of_nat (length (@nil CallbackCall))) with 0 in Hcalls.
  unfold MAX_RETRIES in Hcalls. lia.
Defined.

(** C10 at a 52-byte datagram: a complete header and a complete trade
    payload, [payload_size] = 40. *)
Lemma short_datagram_never_sequenced_witness :
  Wire.payload_size short_trade = Wire.sizeof_TradeMessage /\
  FeedHandler.process_packet (fun k => Z.of_nat k) (fun t => t / 3)
    short_trade 0 fresh_handler = fresh_handler.
Proof.
  split; [reflexivity|].
  assert (Hlt : Z.of_nat (length short_trade) < Wire.sizeof_MarketDataPacket)
    by (vm_compute; reflexivity).
  destruct (short_datagram_never_sequenced (fun k => Z.of_nat k) (fun t => t / 3)
              short_trade 0 fresh_handler) as (_ & Hshort & _).
  exact (proj1 (Hshort Hlt)).
Defined.

(** C2 at a receive error in the first iteration. *)
Lemma ingest_loop_exits_witness :
  exists h',
    FeedHandler.run_loop (fun k => Z.of_nat k) (fun t => t / 3)
      [(true, UDPReceiver.RecvError); (true, UDPReceiver.WouldBlock)] 0 fresh_handler =
      (Some FeedHandler.ReceiveErrorBreak, h') /\
    FeedHandler.cerr h' =
      FeedHandler.cerr fresh_handler ++ ["[FeedHandler] Receive error"%string].
Proof.
  destruct (ingest_loop_exits (fun k => Z.of_nat k) (fun t => t / 3)) as (_ & Herr & _).
  exact (Herr [(true, UDPReceiver.WouldBlock)] 0 fresh_handler).
Defined.

End Instances.

(** * Further properties *)

(** ** The SPSC ring is a FIFO *)

Section RingFifo.

Context {T : Type} `{Inhabited T}.
Variable Size : Z.
Variable k : Z.
Hypothesis k_nonneg : 0 <= k.
Hypothesis Size_pow2 : Size = 2 ^ k.

Local Abbreviation Queue := (SPSCQueue.Queue T).
Local Abbreviation try_push := (@SPSCQueue.try_push T Size).
Local Abbreviation try_pop := (@SPSCQueue.try_pop T _ Size).
Local Abbreviation run_log := (@SPSCQueue.run_log T _ Size).
Local Abbreviation empty_queue := (@SPSCQueue.empty_queue T _ Size).
Local Abbreviation ring_inv := (@SPSCQueue.ring_inv T Size).
Local Abbreviation contents := (@SPSCQueue.contents T _ Size).
Local Abbreviation slot := (SPSCQueue.slot Size).
Local Abbreviation write_pos_ := SPSCQueue.write_pos_.
Local Abbreviation read_pos_ := SPSCQueue.read_pos_.
Local Abbreviation buffer_ := SPSCQueue.buffer_.

Implicit Types (q : Queue) (v : T).

Lemma Size_pos : 0 < Size.
Proof. rewrite Size_pow2. apply Z.pow_pos_nonneg; lia. Qed.

(** A power of two passes the [static_assert]. *)
Lemma Size_passes_static_assert : SPSCQueue.size_is_power_of_2 Size.
Proof.
  unfold SPSCQueue.size_is_power_of_2.
  replace (Size - 1) with (Z.ones k)
    by (rewrite Z.ones_equiv, Size_pow2; lia).
  rewrite Z.land_ones by lia. rewrite Size_pow2. apply Z.mod_same.
  pose proof Size_pos. lia.
Qed.

(** Masking with [SIZE_MASK] is reduction modulo [Size]. *)
Lemma slot_mod p : slot p = Z.to_nat (p mod Size).
Proof.
  unfold SPSCQueue.slot, SPSCQueue.SIZE_MASK.
  replace (Size - 1) with (Z.ones k)
    by (rewrite Z.ones_equiv, Size_pow2; lia).
  rewrite Z.land_ones by lia. by rewrite Size_pow2.
Qed.

Lemma slot_lt p : (slot p < Z.to_nat Size)%nat.
Proof.
  rewrite slot_mod. pose proof Size_pos.
  pose proof (Z.mod_pos_bound p Size). lia.
Qed.

(** Positions less than [Size] apart use different slots. *)
Lemma slot_inj p p' : p <= p' < p + Size -> slot p = slot p' -> p = p'.
Proof.
  intros Hp. rewrite !slot_mod. pose proof Size_pos as HS.
  pose proof (Z.mod_pos_bound p Size). pose proof (Z.mod_pos_bound p' Size).
  intros He. assert (p mod Size = p' mod Size) as Hm by lia.
  pose proof (Z.div_mod p Size ltac:(lia)) as E1.
  pose proof (Z.div_mod p' Size ltac:(lia)) as E2.
  rewrite Hm in E1.
  assert (p / Size = p' / Size) as Hq by nia.
  rewrite Hq in E1. lia.
Qed.

Lemma contents_length q :
  ring_inv q -> Z.of_nat (length (contents q)) = write_pos_ q - read_pos_ q.
Proof.
  intros (_ & Hr & _). unfold SPSCQueue.contents.
  rewrite length_fmap, length_seq. lia.
Qed.

(** A successful push appends the item; a failed push changes nothing
    that is in the queue. *)
Lemma try_push_contents q v :
  ring_inv q ->
  contents (try_push v q).2 =
    if (try_push v q).1 then contents q ++ [v] else contents q.
Proof.
  intros Hinv. pose proof Hinv as (Hc & Hr & Hcw & Hw & Hl).
  assert (Hstore : write_pos_ q - read_pos_ q < Size ->
            forall c, contents (SPSCQueue.store Size v (SPSCQueue.set_cached_read_pos c q))
                      = contents q ++ [v]).
  { intros Hfree c. unfold SPSCQueue.contents, SPSCQueue.store. simpl.
    rewrite wrap64_small by lia.
    replace (Z.to_nat (write_pos_ q + 1 - read_pos_ q))
      with (S (Z.to_nat (write_pos_ q - read_pos_ q))) by lia.
    rewrite seq_S, fmap_app. simpl. f_equal.
    - apply list_fmap_ext. intros i j Hj.
      apply lookup_seq in Hj as [-> Hlt]. simpl.
      apply list_lookup_total_insert_ne. intros He.
      symmetry in He. apply slot_inj in He; lia.
    - f_equal. replace (read_pos_ q + Z.of_nat (Z.to_nat (write_pos_ q - read_pos_ q)))
        with (write_pos_ q) by lia.
      apply list_lookup_total_insert_eq. rewrite Hl. apply slot_lt. }
  unfold SPSCQueue.try_push. simpl.
  rewrite (wrap64_small (write_pos_ q + 1)) by lia.
  rewrite !wrap64_small by lia.
  destruct (Size <? write_pos_ q + 1 - SPSCQueue.cached_read_pos_ q) eqn:E1;
    [destruct (Size <? write_pos_ q + 1 - read_pos_ q) eqn:E2|]; simpl;
    rewrite ?Z.ltb_lt, ?Z.ltb_ge in *.
  - done.
  - apply Hstore. lia.
  - replace q with (SPSCQueue.set_cached_read_pos (SPSCQueue.cached_read_pos_ q) q) at 1
      by (by destruct q).
    apply Hstore. lia.
Qed.

(** A successful pop removes the oldest item and returns it; a pop fails
    only on an empty queue. *)
Lemma try_pop_contents q :
  ring_inv q ->
  match (try_pop q).1 with
  | Some x => contents q = x :: contents (try_pop q).2
  | None => contents q = [] /\ contents (try_pop q).2 = []
  end.
Proof.
  intros Hinv. pose proof Hinv as (Hc & Hr & Hcw & Hw & Hl).
  assert (Hload : read_pos_ q < write_pos_ q ->
            forall c, contents q =
              buffer_ q !!! slot (read_pos_ q) ::
              contents (SPSCQueue.load Size (SPSCQueue.set_cached_write_pos c q)).2).
  { intros Hne c. unfold SPSCQueue.contents, SPSCQueue.load. simpl.
    rewrite wrap64_small by lia.
    replace (Z.to_nat (write_pos_ q - read_pos_ q))
      with (S (Z.to_nat (write_pos_ q - (read_pos_ q + 1)))) by lia.
    simpl. rewrite Z.add_0_r. f_equal.
    rewrite <- fmap_S_seq, <- list_fmap_compose.
    apply list_fmap_ext. intros i j _. simpl. do 2 f_equal. lia. }
  assert (Hempty : write_pos_ q <= read_pos_ q -> contents q = []).
  { intros Hle. unfold SPSCQueue.contents.
    replace (Z.to_nat (write_pos_ q - read_pos_ q)) with 0%nat by lia. done. }
  unfold SPSCQueue.try_pop.
  destruct (SPSCQueue.cached_write_pos_ q <=? read_pos_ q) eqn:E1.
  - cbn [SPSCQueue.set_cached_write_pos SPSCQueue.cached_write_pos_ SPSCQueue.read_pos_].
    destruct (write_pos_ q <=? read_pos_ q) eqn:E2;
      rewrite ?Z.leb_le, ?Z.leb_gt in *.
    + simpl. split; by apply Hempty.
    + apply (Hload E2).
  - rewrite Z.leb_gt in E1.
    replace q with (SPSCQueue.set_cached_write_pos (SPSCQueue.cached_write_pos_ q) q) at 3 4
      by (by destruct q).
    apply Hload. lia.
Qed.

Lemma run_log_fifo ops : forall q,
  ring_inv q ->
  write_pos_ q + Z.of_nat (length ops) + 1 < 2 ^ 64 ->
  let '(pushed, popped, q') := run_log ops q in
  contents q ++ pushed = popped ++ contents q' /\ ring_inv q'.
Proof.
  induction ops as [|op ops IH]; intros q Hinv Hb.
  - simpl. by rewrite app_nil_r.
  - destruct op as [v|]; cbn [SPSCQueue.run_log].
    + pose proof (try_push_contents q v Hinv) as Hc.
      pose proof (try_push_positions Size q v Hinv) as [_ Hw].
      pose proof (try_push_inv Size q v Hinv) as Hi.
      destruct (try_push v q) as [ok q1]. simpl in *.
      specialize (IH q1). destruct (run_log ops q1) as [[pushed popped] q2].
      destruct IH as [IH1 IH2]; [apply Hi; lia|destruct ok; lia|].
      split; [|done]. rewrite <- IH1, Hc.
      destruct ok; [by rewrite <- app_assoc|done].
    + pose proof (try_pop_contents q Hinv) as Hc.
      pose proof (try_pop_positions Size q Hinv) as (Hw & _).
      pose proof (try_pop_inv Size q Hinv) as Hi.
      destruct (try_pop q) as [r q1]. simpl in *.
      specialize (IH q1). destruct (run_log ops q1) as [[pushed popped] q2].
      destruct IH as [IH1 IH2]; [done|lia|].
      split; [|done].
      destruct r as [x|]; [by rewrite Hc; simpl; rewrite <- IH1|].
      destruct Hc as [Hc1 Hc2]. by rewrite Hc1, <- IH1, Hc2.
Qed.

(** X1. For a ring whose capacity is a power of two, over any sequence of
    producer and consumer calls from the empty ring (short of 2^64
    pushes): the items popped, in pop order, followed by the items still
    in the ring are exactly the items whose push succeeded, in push order;
    and the ring never holds more than [Size] items. *)
Theorem spsc_fifo (ops : list SPSCQueue.QOp) :
  Z.of_nat (length ops) + 2 < 2 ^ 64 ->
  let '(pushed, popped, q') := run_log ops empty_queue in
  pushed = popped ++ contents q' /\
  Z.of_nat (length (contents q')) <= Size.
Proof.
  intros Hb. pose proof Size_pos as HS.
  assert (Hinv0 : ring_inv empty_queue) by (apply ring_inv_empty; lia).
  pose proof (run_log_fifo ops empty_queue Hinv0) as Hf.
  destruct (run_log ops empty_queue) as [[pushed popped] q'].
  destruct Hf as [Hf Hinv]; [simpl; lia|].
  split.
  - rewrite <- Hf. unfold SPSCQueue.contents at 1. simpl. done.
  - rewrite (contents_length q' Hinv). destruct Hinv as (_ & Hr & _). lia.
Qed.

(** X2. The observers agree with what is in the ring: in every state
    reached from the empty ring, [size()] is the number of items waiting,
    [empty()] holds exactly when there is none, and [try_pop] fails
    exactly then, leaving both positions unchanged. *)
Theorem spsc_observers (ops : list SPSCQueue.QOp) :
  Z.of_nat (length ops) + 2 < 2 ^ 64 ->
  let q := SPSCQueue.run_qops Size ops empty_queue in
  SPSCQueue.size q = Z.of_nat (length (contents q)) /\
  (SPSCQueue.empty q = true <-> contents q = []) /\
  ((try_pop q).1 = None <-> contents q = []) /\
  ((try_pop q).1 = None ->
     read_pos_ (try_pop q).2 = read_pos_ q /\ write_pos_ (try_pop q).2 = write_pos_ q).
Proof.
  intros Hb q. pose proof Size_pos as HS.
  destruct (run_qops_inv Size ops empty_queue) as [Hinv _].
  { apply ring_inv_empty. lia. }
  { simpl. lia. }
  fold q in Hinv. pose proof (contents_length q Hinv) as Hlen.
  pose proof Hinv as (Hc & Hr & Hcw & Hw & Hl).
  assert (Hnil : contents q = [] <-> write_pos_ q <= read_pos_ q).
  { split; intros Hx; [rewrite Hx in Hlen; simpl in Hlen; lia|].
    apply length_zero_iff_nil. lia. }
  destruct (try_pop_positions Size q Hinv) as (Pw & Ps & Pr).
  split; [unfold SPSCQueue.size; rewrite wrap64_small; lia|].
  split; [unfold SPSCQueue.empty; rewrite Z.leb_le; by rewrite Hnil|].
  split.
  - rewrite Hnil. rewrite eq_None_not_Some, Ps. lia.
  - intros Hn. by rewrite Hn in Pr.
Qed.

End RingFifo.

(** ** Bounds the packet manager keeps *)

Section Bounds.

Implicit Types (m : Mgr) (data : option (list byte)).

(** X3. In every state reached from a fresh manager by any sequence of
    calls, the duplicate window's set and deque hold the same sequences,
    none of them twice, and never more than DUPLICATE_WINDOW_SIZE =
    10000. *)
Theorem duplicate_window_bounded (cb : bool) (ops : list Op) :
  let m := run_ops ops (init cb) in
  NoDup (recent_sequences_ m) /\
  (forall x, is_duplicate m x = true <-> x ∈ recent_sequences_ m) /\
  Z.of_nat (length (recent_sequences_ m)) <= DUPLICATE_WINDOW_SIZE /\
  Z.of_nat (size (recent_seq_set_ m)) <= DUPLICATE_WINDOW_SIZE.
Proof.
  intros m. destruct (window_ok_reachable cb ops) as (Hnd & Hset & Hlen).
  fold m in Hnd, Hset, Hlen.
  split; [done|]. split; [|split; [done|]].
  - intros x. rewrite is_duplicate_elem. apply Hset.
  - assert (recent_seq_set_ m = list_to_set (recent_sequences_ m)) as ->.
    { apply set_eq. intros x. rewrite elem_of_list_to_set. apply Hset. }
    by rewrite size_list_to_set.
Qed.

Lemma buffer_if_data_bound s data m :
  Z.of_nat (size (resequence_buffer_ m)) <= MAX_RESEQUENCE_BUFFER_SIZE ->
  Z.of_nat (size (resequence_buffer_ (buffer_if_data s data m))) <= MAX_RESEQUENCE_BUFFER_SIZE.
Proof.
  intros Hb. unfold buffer_if_data. destruct data as [[|b bs]|]; try done.
  unfold buffer_packet. unfold MAX_RESEQUENCE_BUFFER_SIZE in Hb. cbn [bump set_stats resequence_buffer_].
  destruct (MAX_RESEQUENCE_BUFFER_SIZE <=? _) eqn:Hfull.
  - cbn [bump set_stats set_buffer resequence_buffer_].
    apply Z.leb_le in Hfull. unfold MAX_RESEQUENCE_BUFFER_SIZE in Hfull.
    destruct (erase_begin_spec (resequence_buffer_ m)) as (k & [x Hk] & _ & ->).
    { intros He. rewrite He, map_size_empty in Hfull. lia. }
    rewrite map_size_insert, map_size_delete, Hk.
    unfold MAX_RESEQUENCE_BUFFER_SIZE. case_match; unfold id; lia.
  - cbn [set_buffer resequence_buffer_]. rewrite map_size_insert.
    apply Z.leb_gt in Hfull. unfold MAX_RESEQUENCE_BUFFER_SIZE in Hfull.
    unfold MAX_RESEQUENCE_BUFFER_SIZE. case_match; unfold id; lia.
Qed.

Lemma drain_loop_size fuel : forall m ready,
  (size (resequence_buffer_ (drain_loop fuel m ready).2) <=
   size (resequence_buffer_ m))%nat.
Proof.
  induction fuel as [|fuel IH]; intros m ready; simpl; [lia|].
  case_bool_decide; [simpl; lia|].
  destruct (resequence_buffer_ m !! next_expected_seq_ m) as [pkt|] eqn:Hl;
    [|simpl; lia].
  match goal with |- context [drain_loop fuel ?x ?r] => specialize (IH x r) end.
  cbn [bump set_stats set_next_expected set_buffer resequence_buffer_] in IH.
  rewrite map_size_delete, Hl in IH. lia.
Qed.

Lemma process_packet_buffer_bound s data ts m :
  Z.of_nat (size (resequence_buffer_ m)) <= MAX_RESEQUENCE_BUFFER_SIZE ->
  Z.of_nat (size (resequence_buffer_ (process_packet s data ts m).2)) <= MAX_RESEQUENCE_BUFFER_SIZE.
Proof.
  intros Hb. destruct (is_duplicate m s) eqn:Hd.
  - rewrite process_packet_duplicate by done. simpl.
    by destruct (highest_seq_seen_ m <? s).
  - rewrite process_packet_fresh by done.
    rewrite <- (seen_buffer s m) in Hb. revert Hb. generalize (seen s m).
    intros m0 Hb. destruct (state_ m); simpl; try done.
    + unfold handle_recovering_state. repeat case_match; simpl; try done.
      * by apply buffer_if_data_bound.
      * by rewrite process_gap_fill_buffer.
    + unfold handle_live_state. repeat case_match; simpl; try done.
      apply buffer_if_data_bound. simpl. by rewrite invoke_callback_buffer.
Qed.

(** X4. In every state reached from a fresh manager by any sequence of
    calls, the resequence buffer holds at most
    MAX_RESEQUENCE_BUFFER_SIZE = 1000 packets. *)
Theorem resequence_buffer_bounded (cb : bool) (ops : list Op) :
  Z.of_nat (size (resequence_buffer_ (run_ops ops (init cb)))) <= MAX_RESEQUENCE_BUFFER_SIZE.
Proof.
  unfold run_ops.
  assert (Z.of_nat (size (resequence_buffer_ (init cb))) <= MAX_RESEQUENCE_BUFFER_SIZE) as Hinit
    by (simpl; rewrite map_size_empty; done).
  revert Hinit. generalize (init cb).
  induction ops as [|op ops IH]; intros m Hm; simpl; [done|].
  apply IH. destruct op as [s data ts| |s e|t|]; simpl.
  - by apply process_packet_buffer_bound.
  - pose proof (drain_loop_size (size (resequence_buffer_ m)) m []).
    unfold get_ready_packets. lia.
  - by rewrite process_gap_fill_buffer.
  - unfold periodic_maintenance.
    pose proof (maintenance_loop_buffer t (pending_gaps_ m) m) as Hx.
    destruct (maintenance_loop _ _ _) as [gaps m1]. simpl in *. by rewrite Hx.
  - simpl. rewrite map_size_empty. done.
Qed.

(** X5. [buffer_packet] on a buffer that has reached
    MAX_RESEQUENCE_BUFFER_SIZE first erases the entry with the lowest
    sequence, whatever the incoming sequence is, and counts it in
    [dropped_overflow]; below that size no entry is erased.  In both cases
    the incoming packet is then stored under its sequence, replacing any
    packet already stored there. *)
Theorem buffer_packet_evicts_lowest (sequence : Z) (pkt : list byte) (m : Mgr) :
  let m' := buffer_packet sequence pkt m in
  resequence_buffer_ m' !! sequence = Some pkt /\
  (MAX_RESEQUENCE_BUFFER_SIZE <= Z.of_nat (size (resequence_buffer_ m)) ->
     exists lowest,
       is_Some (resequence_buffer_ m !! lowest) /\
       (forall j, is_Some (resequence_buffer_ m !! j) -> lowest <= j) /\
       resequence_buffer_ m' = <[sequence := pkt]> (delete lowest (resequence_buffer_ m)) /\
       dropped_overflow (PacketManager.stats_ m') =
         wrap64 (dropped_overflow (PacketManager.stats_ m) + 1)) /\
  (Z.of_nat (size (resequence_buffer_ m)) < MAX_RESEQUENCE_BUFFER_SIZE ->
     resequence_buffer_ m' = <[sequence := pkt]> (resequence_buffer_ m) /\
     dropped_overflow (PacketManager.stats_ m') = dropped_overflow (PacketManager.stats_ m)).
Proof.
  intros m'. subst m'. unfold buffer_packet.
  split; [|split].
  - simpl. apply lookup_insert_eq.
  - intros Hfull. rewrite (proj2 (Z.leb_le _ _) Hfull).
    cbn [bump set_stats set_buffer resequence_buffer_ PacketManager.stats_].
    unfold MAX_RESEQUENCE_BUFFER_SIZE in Hfull.
    destruct (erase_begin_spec (resequence_buffer_ m)) as (lowest & Hk & Hmin & ->).
    { intros He. rewrite He, map_size_empty in Hfull. lia. }
    exists lowest. done.
  - intros Hfree. rewrite (proj2 (Z.leb_gt _ _) Hfree). done.
Qed.

End Bounds.

(** ** How long a sequence stays in the duplicate window *)

Section Dedup.

Implicit Types (m : Mgr) (data : option (list byte)).

Lemma within_ext j s m m' :
  recent_sequences_ m' = recent_sequences_ m -> within j s m -> within j s m'.
Proof. unfold within. by intros ->. Qed.

Lemma within_mono j j' s m : (j <= j')%nat -> within j s m -> within j' s m.
Proof. intros Hj (pre & post & He & Hl). exists pre, post. split; [done|lia]. Qed.

Lemma mark_seen_within j s x m :
  Z.of_nat j + 2 <= DUPLICATE_WINDOW_SIZE -> within j s m -> within (S j) s (mark_seen x m).
Proof.
  intros Hj (pre & post & He & Hl). unfold within.
  rewrite mark_seen_deque, He. unfold DUPLICATE_WINDOW_SIZE in *.
  destruct (10000 <? _) eqn:Hfull.
  - apply Z.ltb_lt in Hfull. rewrite length_app in Hfull. simpl in Hfull.
    destruct pre as [|a pre]; simpl in *; [lia|].
    exists pre, (post ++ [x]). rewrite <- app_assoc. simpl.
    split; [done|]. rewrite length_app. simpl. lia.
  - exists pre, (post ++ [x]). rewrite <- app_assoc. simpl.
    split; [done|]. rewrite length_app. simpl. lia.
Qed.

Lemma apply_op_within j s op m :
  is_resync op = false -> Z.of_nat j + 2 <= DUPLICATE_WINDOW_SIZE ->
  within j s m -> within (S j) s (apply_op op m).
Proof.
  intros Hop Hj Hw. destruct op as [x data ts| |a e|t|]; simpl in *; try done.
  - destruct (is_duplicate m x) eqn:Hd.
    + rewrite process_packet_duplicate by done. simpl.
      apply (within_mono j); [lia|]. revert Hw. apply within_ext.
      by destruct (highest_seq_seen_ m <? x).
    + destruct (process_packet_fresh_window x data ts m Hd) as (Hdq & _ & _).
      apply (within_ext _ _ (mark_seen x m)); [done|].
      by apply mark_seen_within.
  - apply (within_mono j); [lia|]. revert Hw. apply within_ext.
    apply drain_loop_window.
  - apply (within_mono j); [lia|]. revert Hw. apply within_ext.
    apply process_gap_fill_window.
  - apply (within_mono j); [lia|]. revert Hw. apply within_ext.
    unfold periodic_maintenance.
    pose proof (maintenance_loop_window t (pending_gaps_ m) m) as [Hdq _].
    destruct (maintenance_loop _ _ _) as [gaps m1]. exact Hdq.
Qed.

Lemma run_ops_within ops : forall j s m,
  forallb (fun op => negb (is_resync op)) ops = true ->
  Z.of_nat (j + length ops) + 1 <= DUPLICATE_WINDOW_SIZE ->
  within j s m -> within (j + length ops) s (run_ops ops m).
Proof.
  induction ops as [|op ops IH]; intros j s m Hops Hj Hw; simpl in *.
  - by rewrite Nat.add_0_r.
  - apply andb_prop in Hops as [Hop Hops].
    replace (j + S (length ops))%nat with (S j + length ops)%nat by lia.
    apply IH; [done|lia|]. apply apply_op_within; [|lia|done].
    by destruct (is_resync op).
Qed.

Lemma run_ops_window_ok ops : forall m, window_ok m -> window_ok (run_ops ops m).
Proof.
  induction ops as [|op ops IH]; intros m Hm; simpl; [done|].
  apply IH. by apply apply_op_window_ok.
Qed.

(** X6. Once a packet whose sequence was not in the duplicate window has
    been processed, that sequence is recognised as a duplicate for at
    least the next 9999 calls, whatever they are, as long as
    [trigger_resync] is not among them: a re-arrival is dropped and
    counted in [duplicates]. *)
Theorem duplicate_recognised_for_9999_calls (m : Mgr) (sequence : Z)
    (data : option (list byte)) (timestamp : Z) (ops : list Op) :
  window_ok m ->
  is_duplicate m sequence = false ->
  forallb (fun op => negb (is_resync op)) ops = true ->
  Z.of_nat (length ops) < DUPLICATE_WINDOW_SIZE ->
  let m' := run_ops ops (process_packet sequence data timestamp m).2 in
  is_duplicate m' sequence = true /\
  forall d t,
    (process_packet sequence d t m').1 = false /\
    duplicates (PacketManager.stats_ (process_packet sequence d t m').2) =
      wrap64 (duplicates (PacketManager.stats_ m') + 1).
Proof.
  intros Hok Hd Hops Hlen m'.
  set (m1 := (process_packet sequence data timestamp m).2) in *.
  assert (Hok1 : window_ok m1) by (by apply process_packet_window_ok).
  assert (Hw1 : within 0 sequence m1).
  { destruct (process_packet_fresh_window sequence data timestamp m Hd) as (Hdq & _ & _).
    fold m1 in Hdq. rewrite mark_seen_deque in Hdq.
    destruct Hok as (_ & _ & Hle). unfold DUPLICATE_WINDOW_SIZE in *.
    unfold within. rewrite Hdq.
    destruct (10000 <? _) eqn:Hfull.
    - apply Z.ltb_lt in Hfull.
      destruct (recent_sequences_ m) as [|a dq]; simpl in *; [lia|].
      exists dq, []. done.
    - exists (recent_sequences_ m), []. done. }
  assert (Hin : is_duplicate m' sequence = true).
  { apply (run_ops_within ops 0 sequence m1 Hops) in Hw1; [|simpl; lia].
    fold m' in Hw1. destruct Hw1 as (pre & post & He & _).
    apply is_duplicate_elem.
    assert (window_ok m') as (_ & Hset & _) by (by apply run_ops_window_ok).
    rewrite Hset, He. apply elem_of_app. right. left. }
  split; [done|]. intros d t.
  rewrite process_packet_duplicate by done. simpl.
  by destruct (highest_seq_seen_ m' <? sequence).
Qed.

End Dedup.

(** ** An in-order stream *)

Section InOrder.

Implicit Types (m : Mgr).

Lemma mark_seen_set_subset s m x :
  x ∈ recent_seq_set_ (mark_seen s m) -> x = s \/ x ∈ recent_seq_set_ m.
Proof.
  unfold mark_seen. destruct (_ <? _); [destruct (_ ++ _)|]; simpl;
    rewrite ?elem_of_difference, elem_of_union, elem_of_singleton; tauto.
Qed.

Lemma process_packet_set_subset s data ts m x :
  x ∈ recent_seq_set_ (process_packet s data ts m).2 ->
  x = s \/ x ∈ recent_seq_set_ m.
Proof.
  destruct (is_duplicate m s) eqn:Hd.
  - rewrite process_packet_duplicate by done. simpl.
    destruct (highest_seq_seen_ m <? s); simpl; tauto.
  - destruct (process_packet_fresh_window s data ts m Hd) as (_ & -> & _).
    apply mark_seen_set_subset.
Qed.

(** In the Live state, a packet at [next_expected] that is not a
    duplicate. *)
Lemma live_in_sequence s data ts m :
  state_ m = LIVE -> next_expected_seq_ m = s -> is_duplicate m s = false ->
  process_packet s data ts m =
    (true, set_next_expected (wrap64 (s + 1)) (seen s m)).
Proof.
  intros Hst Hn Hd. rewrite process_packet_fresh, Hst by done.
  unfold handle_live_state. rewrite seen_next, Hn, Z.eqb_refl. done.
Qed.

Lemma live_run data ts n : forall s m,
  state_ m = LIVE -> next_expected_seq_ m = s ->
  (forall x, x ∈ recent_seq_set_ m -> x < s) ->
  0 <= s -> s + Z.of_nat n < 2 ^ 64 ->
  let r := process_all data ts (consecutive s n) m in
  r.1 = replicate n true /\
  state_ r.2 = LIVE /\ next_expected_seq_ r.2 = s + Z.of_nat n /\
  gaps_detected (PacketManager.stats_ r.2) = gaps_detected (PacketManager.stats_ m) /\
  duplicates (PacketManager.stats_ r.2) = duplicates (PacketManager.stats_ m) /\
  resequence_buffer_ r.2 = resequence_buffer_ m /\
  pending_gaps_ r.2 = pending_gaps_ m /\
  callback_trace r.2 = callback_trace m.
Proof.
  induction n as [|n IH]; intros s m Hst Hn Hlt H0 Hb.
  - simpl. rewrite Z.add_0_r. done.
  - assert (Hc : consecutive s (S n) = s :: consecutive (s + 1) n).
    { unfold consecutive. simpl. rewrite Z.add_0_r. f_equal.
      rewrite <- fmap_S_seq, <- list_fmap_compose.
      apply list_fmap_ext. intros i j _. simpl. lia. }
    rewrite Hc. cbn [process_all].
    assert (Hd : is_duplicate m s = false).
    { apply is_duplicate_not_elem. intros Hin. specialize (Hlt s Hin). lia. }
    pose proof (process_packet_set_subset s (data s) (ts s) m) as Hsub.
    rewrite (live_in_sequence s (data s) (ts s) m Hst Hn Hd) in Hsub |- *.
    set (m1 := set_next_expected (wrap64 (s + 1)) (seen s m)) in *.
    specialize (IH (s + 1) m1).
    destruct (process_all data ts (consecutive (s + 1) n) m1) as [oks m2].
    destruct IH as (I1 & I2 & I3 & I4 & I5 & I6 & I7 & I8).
    + subst m1. simpl. by rewrite seen_state.
    + subst m1. simpl. apply wrap64_small. lia.
    + intros x Hx. destruct (Hsub x Hx) as [->|Hin]; [lia|].
      specialize (Hlt x Hin). lia.
    + lia.
    + lia.
    + simpl in *. subst m1. simpl in *.
      rewrite I1, I2, I3, I4, I5, I6, I7, I8.
      rewrite seen_duplicates, seen_buffer, seen_pending, seen_trace.
      assert (gaps_detected (PacketManager.stats_ (seen s m)) =
              gaps_detected (PacketManager.stats_ m)) as ->.
      { unfold seen. rewrite mark_seen_stats. by case_match. }
      repeat split. lia.
Qed.

(** X7. A stream without loss, duplication or reordering passes straight
    through: fed to a fresh manager, the consecutive sequences [s],
    [s+1], ..., [s+n] are all delivered; the feed ends Live with
    [next_expected] = [s+n+1]; no gap and no duplicate is counted, nothing
    is buffered, no request is registered and the callback is never
    invoked. *)
Theorem in_order_stream_is_delivered (cb : bool) (data : Z -> option (list byte))
    (ts : Z -> Z) (s : Z) (n : nat) :
  0 <= s -> s + Z.of_nat n + 1 < 2 ^ 64 ->
  let r := process_all data ts (consecutive s (S n)) (init cb) in
  r.1 = replicate (S n) true /\
  state_ r.2 = LIVE /\
  next_expected_seq_ r.2 = s + Z.of_nat n + 1 /\
  gaps_detected (PacketManager.stats_ r.2) = 0 /\
  duplicates (PacketManager.stats_ r.2) = 0 /\
  resequence_buffer_ r.2 = ∅ /\
  pending_gaps_ r.2 = [] /\
  callback_trace r.2 = [].
Proof.
  intros H0 Hb.
  assert (Hc : consecutive s (S n) = s :: consecutive (s + 1) n).
  { unfold consecutive. simpl. rewrite Z.add_0_r. f_equal.
    rewrite <- fmap_S_seq, <- list_fmap_compose.
    apply list_fmap_ext. intros i j _. simpl. lia. }
  rewrite Hc. cbn [process_all].
  assert (Hd : is_duplicate (init cb) s = false).
  { apply is_duplicate_not_elem. apply not_elem_of_empty. }
  pose proof (process_packet_set_subset s (data s) (ts s) (init cb)) as Hsub.
  rewrite (process_packet_fresh s (data s) (ts s) (init cb) Hd) in Hsub |- *.
  cbn [state_ init handle_initial_state] in Hsub |- *.
  set (m1 := set_state LIVE (set_next_expected (wrap64 (s + 1)) (seen s (init cb)))) in *.
  pose proof (live_run data ts n (s + 1) m1) as Hrun.
  destruct (process_all data ts (consecutive (s + 1) n) m1) as [oks m2].
  destruct Hrun as (I1 & I2 & I3 & I4 & I5 & I6 & I7 & I8).
  - done.
  - subst m1. simpl. apply wrap64_small. lia.
  - intros x Hx. destruct (Hsub x Hx) as [->|Hin]; [lia|].
    by apply not_elem_of_empty in Hin.
  - lia.
  - lia.
  - simpl in *. subst m1. simpl in *.
    rewrite I1, I2, I3, I4, I5, I6, I7, I8.
    rewrite seen_duplicates, seen_buffer, seen_pending, seen_trace.
    assert (gaps_detected (PacketManager.stats_ (seen s (init cb))) = 0) as ->.
    { unfold seen. rewrite mark_seen_stats. by case_match. }
    repeat split. lia.
Qed.

End InOrder.

(** ** The feed state machine *)

Section Transitions.

Implicit Types (m : Mgr) (data : option (list byte)).

Lemma process_gap_fill_live s e m :
  state_ (process_gap_fill s e m) = state_ m \/
  (state_ m = RECOVERING /\ state_ (process_gap_fill s e m) = LIVE /\
   pending_gaps_ (process_gap_fill s e m) = []).
Proof.
  unfold process_gap_fill. cbn [bump set_stats set_pending pending_gaps_ state_].
  destruct (List.filter _ _) eqn:Hf; [|by left].
  destruct (state_ m) eqn:Hst; try (by left).
  right. done.
Qed.

(** X8. The transitions of the feed state, over every state reached from
    a fresh manager and every call.  A call either leaves the state as it
    is, or is one of: a packet in Initial (to Live); a packet beyond
    [next_expected] in Live (to Recovering or Stale);
    [periodic_maintenance] (to Stale); [trigger_resync] (to Initial); and,
    out of Recovering to Live, only a gap fill that empties the pending
    list: [process_gap_fill] itself, or a packet below [next_expected].
    [get_ready_packets] never changes the state, and nothing but
    [trigger_resync] leaves Stale. *)
Theorem feed_state_transitions (cb : bool) (ops : list Op) (op : Op) :
  let m := run_ops ops (init cb) in
  let m' := apply_op op m in
  state_ m' = state_ m \/
  match op with
  | OpPacket sequence _ _ =>
      (state_ m = INITIAL /\ state_ m' = LIVE) \/
      (state_ m = LIVE /\ next_expected_seq_ m < sequence /\
       (state_ m' = RECOVERING \/ state_ m' = STALE)) \/
      (state_ m = RECOVERING /\ sequence < next_expected_seq_ m /\
       state_ m' = LIVE /\ pending_gaps_ m' = [])
  | OpDrain => False
  | OpGapFill _ _ =>
      state_ m = RECOVERING /\ state_ m' = LIVE /\ pending_gaps_ m' = []
  | OpMaintenance _ => state_ m <> STALE /\ state_ m' = STALE
  | OpResync => state_ m' = INITIAL
  end.
Proof.
  intros m m'. subst m'.
  pose proof (recovering_has_request_reachable cb ops) as Hreq. fold m in Hreq.
  clearbody m. destruct op as [s data ts| |s e|t|]; simpl.
  - destruct (is_duplicate m s) eqn:Hd.
    { left. rewrite process_packet_duplicate by done. simpl.
      by destruct (highest_seq_seen_ m <? s). }
    rewrite process_packet_fresh by done.
    destruct (state_ m) eqn:Hst.
    + right. left. done.
    + unfold handle_recovering_state. rewrite seen_next, seen_pending.
      destruct (s =? next_expected_seq_ m) eqn:E1.
      { left. cbn [snd set_next_expected pending_gaps_]. rewrite seen_pending.
        destruct (pending_gaps_ m) eqn:Hp; [by destruct (Hreq Hst)|].
        simpl. by rewrite seen_state. }
      destruct (next_expected_seq_ m <? s) eqn:E2.
      { left. simpl. by rewrite buffer_if_data_state, seen_state. }
      destruct (find_gap s (pending_gaps_ m)) as [g|]; simpl;
        [|left; by rewrite seen_state].
      destruct (s =? end_seq g); [|left; by rewrite seen_state].
      destruct (process_gap_fill_live (start_seq g) (end_seq g) (seen s m))
        as [He|(_ & Hl & Hp)].
      * left. by rewrite He, seen_state.
      * right. right. right. apply Z.eqb_neq in E1. apply Z.ltb_ge in E2.
        repeat split; [lia|done|done].
    + unfold handle_live_state. rewrite seen_next.
      destruct (s =? next_expected_seq_ m) eqn:E1;
        [left; simpl; by rewrite seen_state|].
      destruct (s <? next_expected_seq_ m) eqn:E2;
        [left; simpl; by rewrite seen_state|].
      right. right. left. apply Z.eqb_neq in E1. apply Z.ltb_ge in E2.
      split; [done|]. split; [lia|].
      destruct (MAX_GAP_SIZE <? _); [by right|left].
      simpl. by rewrite buffer_if_data_state.
    + left. simpl. by rewrite seen_state.
  - left. apply drain_loop_state.
  - destruct (process_gap_fill_live s e m) as [He|Hl]; [by left|by right].
  - unfold periodic_maintenance.
    pose proof (maintenance_loop_state t (pending_gaps_ m) m) as Hs.
    destruct (maintenance_loop _ _ _) as [gaps m1]. simpl in *.
    destruct Hs as [Hs|Hs]; [by left|].
    destruct (state_ m) eqn:Hst; try (right; split; [done|exact Hs]).
    left. exact Hs.
  - by right.
Qed.

(** X9. In every state reached from a fresh manager in which the feed is
    Recovering, a packet that arrives exactly at [next_expected] and is
    not in the duplicate window is delivered and advances
    [next_expected], but the feed stays Recovering with the same pending
    requests and the same [gaps_filled]: arrivals in sequence never end a
    recovery. *)
Theorem recovery_not_ended_in_sequence (cb : bool) (ops : list Op)
    (data : option (list byte)) (timestamp : Z) :
  let m := run_ops ops (init cb) in
  state_ m = RECOVERING ->
  is_duplicate m (next_expected_seq_ m) = false ->
  let r := process_packet (next_expected_seq_ m) data timestamp m in
  r.1 = true /\
  state_ r.2 = RECOVERING /\
  next_expected_seq_ r.2 = wrap64 (next_expected_seq_ m + 1) /\
  pending_gaps_ r.2 = pending_gaps_ m /\
  pending_gaps_ r.2 <> [] /\
  gaps_filled (PacketManager.stats_ r.2) = gaps_filled (PacketManager.stats_ m).
Proof.
  intros m Hst Hd r.
  pose proof (recovering_has_request_reachable cb ops Hst) as Hreq. fold m in Hreq.
  destruct (in_sequence_arrival_keeps_requests m data timestamp Hst Hd)
    as (Hok & Hp & Hg & Hrec).
  fold r in Hok, Hp, Hg, Hrec.
  split; [done|]. split; [by apply Hrec|].
  split; [|split; [exact Hp|split; [by rewrite Hp|exact Hg]]].
  subst r. rewrite process_packet_fresh, Hst by done.
  unfold handle_recovering_state. rewrite seen_next, Z.eqb_refl.
  match goal with
  | |- context [match ?x with [] => _ | _ :: _ => _ end] => destruct x
  end; reflexivity.
Qed.



End Transitions.

(** ** The wire format *)

Section WireFormat.

Lemma byte_val_of_Z z : Wire.byte_val (Wire.byte_of_Z z) = z mod 256.
Proof.
  unfold Wire.byte_val, Wire.byte_of_Z.
  pose proof (Z.mod_pos_bound z 256 ltac:(lia)) as Hb.
  destruct (Byte.of_N (Z.to_N (z mod 256))) as [b|] eqn:E.
  - apply Byte.to_of_N in E. rewrite E. lia.
  - apply Byte.of_N_None_iff in E. lia.
Qed.

Lemma decode_encode n : forall z,
  Wire.decode_le (Wire.encode_le n z) = z mod 256 ^ Z.of_nat n.
Proof.
  induction n as [|n IH]; intros z.
  - simpl. by rewrite Z.mod_1_r.
  - cbn [Wire.encode_le Wire.decode_le]. rewrite byte_val_of_Z, IH.
    rewrite Nat2Z.inj_succ, Z.pow_succ_r by lia.
    rewrite Z.rem_mul_r by lia. lia.
Qed.

Lemma decode_encode_small n z :
  0 <= z < 256 ^ Z.of_nat n -> Wire.decode_le (Wire.encode_le n z) = z.
Proof. intros Hz. rewrite decode_encode. by apply Z.mod_small. Qed.

Lemma length_encode n : forall z, length (Wire.encode_le n z) = n.
Proof. induction n as [|n IH]; intros z; simpl; [done|]. by rewrite IH. Qed.

Lemma length_packet ty ver sequence payload :
  Z.of_nat (length (Wire.packet ty ver sequence payload)) = Wire.sizeof_MarketDataPacket.
Proof.
  unfold Wire.packet.
  rewrite !length_app, !length_encode, length_take, length_app, length_replicate.
  unfold Wire.sizeof_MarketDataPacket, Wire.sizeof_header, Wire.sizeof_payload.
  unfold Wire.sizeof_TradeMessage, Wire.sizeof_QuoteMessage, Wire.sizeof_raw_data.
  lia.
Qed.

(** The header of a packet built by [Wire.packet]. *)
Lemma packet_header ty ver sequence payload :
  Wire.msg_type (Wire.packet ty ver sequence payload) = ty mod 256 /\
  Wire.version (Wire.packet ty ver sequence payload) = ver mod 256 /\
  Wire.payload_size (Wire.packet ty ver sequence payload) =
    Z.of_nat (length payload) mod 2 ^ 16 /\
  Wire.packet_sequence (Wire.packet ty ver sequence payload) = sequence mod 2 ^ 64.
Proof.
  split; [|split; [|split]].
  - change (Wire.msg_type (Wire.packet ty ver sequence payload))
      with (Wire.decode_le (Wire.encode_le 1 ty)).
    apply decode_encode.
  - change (Wire.version (Wire.packet ty ver sequence payload))
      with (Wire.decode_le (Wire.encode_le 1 ver)).
    apply decode_encode.
  - change (Wire.payload_size (Wire.packet ty ver sequence payload))
      with (Wire.decode_le (Wire.encode_le 2 (Z.of_nat (length payload)))).
    apply decode_encode.
  - change (Wire.packet_sequence (Wire.packet ty ver sequence payload))
      with (Wire.decode_le (Wire.encode_le 8 sequence)).
    apply decode_encode.
Qed.

(** The members of [payload.trade] of a packet that carries a
    [Wire.trade_payload]. *)
Lemma packet_trade ty ver sequence ts sq symbol trade_id price qty side :
  let d := Wire.packet ty ver sequence
             (Wire.trade_payload ts sq symbol trade_id price qty side) in
  Wire.trade_timestamp_ns d = ts mod 2 ^ 64 /\
  Wire.trade_sequence_num d = sq mod 2 ^ 64 /\
  Wire.trade_symbol_id d = symbol mod 2 ^ 32 /\
  Wire.trade_trade_id d = trade_id mod 2 ^ 32 /\
  Wire.trade_price d = price mod 2 ^ 64 /\
  Wire.trade_quantity d = qty mod 2 ^ 32 /\
  Wire.trade_side d = side mod 2 ^ 8.
Proof.
  intros d. subst d. repeat split.
  - change (Wire.trade_timestamp_ns _) with (Wire.decode_le (Wire.encode_le 8 ts)).
    apply decode_encode.
  - change (Wire.trade_sequence_num _) with (Wire.decode_le (Wire.encode_le 8 sq)).
    apply decode_encode.
  - change (Wire.trade_symbol_id _) with (Wire.decode_le (Wire.encode_le 4 symbol)).
    apply decode_encode.
  - change (Wire.trade_trade_id _) with (Wire.decode_le (Wire.encode_le 4 trade_id)).
    apply decode_encode.
  - change (Wire.trade_price _) with (Wire.decode_le (Wire.encode_le 8 price)).
    apply decode_encode.
  - change (Wire.trade_quantity _) with (Wire.decode_le (Wire.encode_le 4 qty)).
    apply decode_encode.
  - change (Wire.trade_side _) with (Wire.decode_le (Wire.encode_le 1 side)).
    apply decode_encode.
Qed.

(** X11. What the test generator writes, the feed handler reads back.
    The datagram of [create_market_packet] has exactly
    [sizeof(MarketDataPacket)] = 268 bytes, so it passes the size test of
    [process_packet]; its header reads as a TRADE of version 1 with
    [payload_size] 40 and the sequence it was built for; the sequence
    echoed in the payload is the same, while [trade_id], a 32-bit member,
    keeps only the low 32 bits of the sequence; and
    [parse_and_queue_packet] normalises it to a TRADE event of symbol
    12345 carrying the generator's time stamp, price, quantity and
    side. *)
Theorem generated_packet_round_trip (seq tsc r1 r2 r3 recv_tsc : Z) :
  is_u64 seq -> is_u64 tsc -> 0 <= r1 -> 0 <= r2 ->
  let d := TestFeedGenerator.create_market_packet seq tsc r1 r2 r3 in
  let price := 1500000 + r1 mod 10000 in
  let quantity := 100 + r2 mod 1000 in
  let side := if r3 mod 2 =? 0 then 66 else 83 in
  Z.of_nat (length d) = Wire.sizeof_MarketDataPacket /\
  Wire.msg_type d = Wire.TRADE /\
  Wire.version d = 1 /\
  Wire.payload_size d = Wire.sizeof_TradeMessage /\
  Wire.packet_sequence d = seq /\
  Wire.trade_sequence_num d = seq /\
  Wire.trade_trade_id d = seq mod 2 ^ 32 /\
  1500000 <= price < 1510000 /\ 100 <= quantity < 1100 /\
  FeedHandler.normalize d recv_tsc =
    Some {| FeedHandler.recv_timestamp_ns := recv_tsc;
            FeedHandler.exchange_timestamp_ns := tsc;
            FeedHandler.symbol_id := 12345;
            FeedHandler.type := Wire.TRADE;
            FeedHandler.data := FeedHandler.TradeData price quantity side |}.
Proof.
  intros Hseq Htsc Hr1 Hr2 d price quantity side.
  unfold is_u64, UINT64_MAX in *.
  pose proof (Z.mod_pos_bound r1 10000 ltac:(lia)) as Hp.
  pose proof (Z.mod_pos_bound r2 1000 ltac:(lia)) as Hq.
  assert (Hside : 0 <= side < 256) by (subst side; case_match; lia).
  destruct (packet_header Wire.TRADE 1 seq
              (Wire.trade_payload tsc seq 12345 seq price quantity side))
    as (Hty & Hver & Hsz & Hps).
  destruct (packet_trade Wire.TRADE 1 seq tsc seq 12345 seq price quantity side)
    as (Hts & Hsq & Hsym & Hid & Hpr & Hqt & Hsd).
  assert (Hd : d = Wire.packet Wire.TRADE 1 seq
                     (Wire.trade_payload tsc seq 12345 seq price quantity side))
    by reflexivity.
  clearbody d. subst d.
  rewrite Z.mod_small in Hps, Hts, Hsq, Hpr by lia.
  rewrite Z.mod_small in Hsym, Hqt, Hsd by lia.
  change (Wire.TRADE mod 256) with Wire.TRADE in Hty.
  split; [apply length_packet|]. split; [exact Hty|]. split; [exact Hver|].
  split; [exact Hsz|]. split; [exact Hps|]. split; [exact Hsq|].
  split; [exact Hid|]. split; [subst price; lia|]. split; [subst quantity; lia|].
  unfold FeedHandler.normalize. rewrite Hty, Hts, Hsym, Hpr, Hqt, Hsd. reflexivity.
Qed.

End WireFormat.

(** ** The handler's accounting *)

Section Accounting.

Variable rdtsc : nat -> Z.
Variable tsc_to_ns : Z -> Z.

Local Abbreviation Handler := FeedHandler.Handler.
Local Abbreviation MarketEvent := FeedHandler.MarketEvent.
Local Abbreviation parse_and_queue_packet :=
  (FeedHandler.parse_and_queue_packet rdtsc tsc_to_ns).
Local Abbreviation on_datagram := (FeedHandler.on_datagram rdtsc tsc_to_ns).
Local Abbreviation maintenance := FeedHandler.maintenance.
Local Abbreviation run_loop := (FeedHandler.run_loop rdtsc tsc_to_ns).
Local Abbreviation QUEUE_SIZE := FeedHandler.QUEUE_SIZE.
Local Abbreviation qcontents :=
  (@SPSCQueue.contents FeedHandler.MarketEvent _ FeedHandler.QUEUE_SIZE).
Local Abbreviation qinv :=
  (@SPSCQueue.ring_inv FeedHandler.MarketEvent FeedHandler.QUEUE_SIZE).
Local Abbreviation qpush :=
  (@SPSCQueue.try_push FeedHandler.MarketEvent FeedHandler.QUEUE_SIZE).
Local Abbreviation in_order_inv := FeedHandler.in_order_inv.

Implicit Types (h : Handler) (m : Mgr) (ev : MarketEvent) (evs : list MarketEvent).

Lemma QUEUE_SIZE_pow2 : QUEUE_SIZE = 2 ^ 16.
Proof. reflexivity. Qed.

Lemma queue_push_contents (q : SPSCQueue.Queue MarketEvent) ev :
  qinv q ->
  qcontents (qpush ev q).2 =
    if (qpush ev q).1 then qcontents q ++ [ev] else qcontents q.
Proof. apply (try_push_contents QUEUE_SIZE 16); [lia|exact QUEUE_SIZE_pow2]. Qed.

Lemma queue_push_full (q : SPSCQueue.Queue MarketEvent) ev :
  qinv q ->
  (qpush ev q).1 = false <-> QUEUE_SIZE <= Z.of_nat (length (qcontents q)).
Proof.
  intros Hinv. rewrite (try_push_full_iff QUEUE_SIZE q ev Hinv).
  rewrite (contents_length QUEUE_SIZE 16 ltac:(lia) q Hinv). done.
Qed.

(** X12. The accounting of [parse_and_queue_packet].  A heartbeat or an
    unknown message type changes nothing.  A TRADE or QUOTE is counted
    exactly once: when the queue holds fewer than 65536 events the event
    is appended behind those already queued, [packets_processed] goes up
    by one and the time-stamp counter is read once more for the latency;
    when the queue is full its contents are left as they are,
    [packets_dropped] goes up by one, and neither the clock nor the
    latency statistics are touched.  In no case are the packet manager,
    [packets_received] or [sequence_gaps] changed. *)
Theorem parse_and_queue_accounting (packet : list byte) (recv_tsc : Z) (h : Handler) :
  qinv (FeedHandler.event_queue_ h) ->
  let h' := parse_and_queue_packet packet recv_tsc h in
  let q := FeedHandler.event_queue_ h in
  let q' := FeedHandler.event_queue_ h' in
  let st := FeedHandler.stats_ h in
  let st' := FeedHandler.stats_ h' in
  FeedHandler.packet_manager_ h' = FeedHandler.packet_manager_ h /\
  FeedHandler.packets_received st' = FeedHandler.packets_received st /\
  FeedHandler.sequence_gaps st' = FeedHandler.sequence_gaps st /\
  match FeedHandler.normalize packet recv_tsc with
  | None => h' = h
  | Some event =>
      if QUEUE_SIZE <=? Z.of_nat (length (qcontents q)) then
        qcontents q' = qcontents q /\
        FeedHandler.packets_dropped st' = wrap64 (FeedHandler.packets_dropped st + 1) /\
        FeedHandler.packets_processed st' = FeedHandler.packets_processed st /\
        FeedHandler.tsc_reads h' = FeedHandler.tsc_reads h /\
        FeedHandler.total_latency_ns st' = FeedHandler.total_latency_ns st /\
        FeedHandler.min_latency_ns st' = FeedHandler.min_latency_ns st /\
        FeedHandler.max_latency_ns st' = FeedHandler.max_latency_ns st
      else
        qcontents q' = qcontents q ++ [event] /\
        FeedHandler.packets_processed st' = wrap64 (FeedHandler.packets_processed st + 1) /\
        FeedHandler.packets_dropped st' = FeedHandler.packets_dropped st /\
        FeedHandler.tsc_reads h' = S (FeedHandler.tsc_reads h) /\
        FeedHandler.total_latency_ns st' =
          wrap64 (FeedHandler.total_latency_ns st +
                  tsc_to_ns (wrap64 (rdtsc (FeedHandler.tsc_reads h) - recv_tsc)))
  end.
Proof.
  intros Hinv h' q q' st st'. subst h' q' st'.
  unfold FeedHandler.parse_and_queue_packet, FeedHandler.read_tsc.
  destruct (FeedHandler.normalize packet recv_tsc) as [event|]; [|done].
  pose proof (queue_push_contents q event Hinv) as Hc.
  pose proof (queue_push_full q event Hinv) as Hf.
  fold q. destruct (qpush event q) as [ok q1]. cbn [fst snd] in Hc, Hf.
  destruct ok.
  - assert ((QUEUE_SIZE <=? Z.of_nat (length (qcontents q))) = false) as ->.
    { apply Z.leb_gt. destruct (Z_lt_ge_dec (Z.of_nat (length (qcontents q))) QUEUE_SIZE)
        as [Hlt|Hge]; [done|]. assert (true = false) by (apply Hf; lia). done. }
    simpl. rewrite Hc. done.
  - assert ((QUEUE_SIZE <=? Z.of_nat (length (qcontents q))) = true) as ->.
    { apply Z.leb_le. by apply Hf. }
    simpl. rewrite Hc. done.
Qed.

Lemma foldr_min_comm a b ls : foldr Z.min (Z.min a b) ls = Z.min a (foldr Z.min b ls).
Proof. induction ls as [|l ls IH]; simpl; [done|]. rewrite IH. lia. Qed.

Lemma foldr_max_comm a b ls : foldr Z.max (Z.max a b) ls = Z.max a (foldr Z.max b ls).
Proof. induction ls as [|l ls IH]; simpl; [done|]. rewrite IH. lia. Qed.

Lemma update_latencies_fold ls : forall s,
  is_u64 (FeedHandler.total_latency_ns s) ->
  FeedHandler.total_latency_ns (FeedHandler.update_latencies ls s) =
    wrap64 (FeedHandler.total_latency_ns s + foldr Z.add 0 ls) /\
  FeedHandler.min_latency_ns (FeedHandler.update_latencies ls s) =
    foldr Z.min (FeedHandler.min_latency_ns s) ls /\
  FeedHandler.max_latency_ns (FeedHandler.update_latencies ls s) =
    foldr Z.max (FeedHandler.max_latency_ns s) ls.
Proof.
  unfold FeedHandler.update_latencies.
  induction ls as [|l ls IH]; intros s Hs.
  - simpl. rewrite Z.add_0_r, wrap64_small by exact Hs. done.
  - cbn [fold_left foldr].
    destruct (IH (FeedHandler.update_latency l s)) as (I1 & I2 & I3).
    { simpl. apply wrap64_range. }
    rewrite I1, I2, I3. cbn [FeedHandler.update_latency FeedHandler.total_latency_ns
      FeedHandler.min_latency_ns FeedHandler.max_latency_ns].
    split; [|split].
    + rewrite wrap64_add_l. f_equal. lia.
    + rewrite <- foldr_min_comm. f_equal. case_match; lia.
    + rewrite <- foldr_max_comm. f_equal. case_match; lia.
Qed.

Lemma foldr_min_spec a ls :
  (forall l, l ∈ ls -> foldr Z.min a ls <= l) /\ foldr Z.min a ls <= a /\
  (foldr Z.min a ls = a \/ foldr Z.min a ls ∈ ls).
Proof.
  induction ls as [|x ls (I1 & I2 & I3)]; simpl.
  - split; [by intros l ?%elem_of_nil|]. split; [lia|by left].
  - split; [|split].
    + intros l [->|Hin]%elem_of_cons; [lia|]. specialize (I1 l Hin). lia.
    + lia.
    + destruct (Z.min_spec x (foldr Z.min a ls)) as [[_ ->]|[_ ->]].
      * right. left.
      * destruct I3 as [?|?]; [by left|right; by right].
Qed.

Lemma foldr_max_spec a ls :
  (forall l, l ∈ ls -> l <= foldr Z.max a ls) /\ a <= foldr Z.max a ls /\
  (foldr Z.max a ls = a \/ foldr Z.max a ls ∈ ls).
Proof.
  induction ls as [|x ls (I1 & I2 & I3)]; simpl.
  - split; [by intros l ?%elem_of_nil|]. split; [lia|by left].
  - split; [|split].
    + intros l [->|Hin]%elem_of_cons; [lia|]. specialize (I1 l Hin). lia.
    + lia.
    + destruct (Z.max_spec x (foldr Z.max a ls)) as [[_ ->]|[_ ->]].
      * destruct I3 as [?|?]; [by left|right; by right].
      * right. left.
Qed.

(** X13. The latency statistics that [update_latency] keeps.  Starting
    from the initial statistics ([min_latency_ns] = UINT64_MAX,
    [max_latency_ns] = 0), after any number of 64-bit latencies
    [total_latency_ns] is their sum modulo 2^64, every one of them lies
    between [min_latency_ns] and [max_latency_ns], and both bounds are
    latencies that were recorded. *)
Theorem latency_statistics (ls : list Z) :
  Forall is_u64 ls ->
  let s := FeedHandler.update_latencies ls FeedHandler.fh_stats0 in
  FeedHandler.total_latency_ns s = wrap64 (foldr Z.add 0 ls) /\
  (forall l, l ∈ ls ->
     FeedHandler.min_latency_ns s <= l <= FeedHandler.max_latency_ns s) /\
  (ls <> [] ->
     FeedHandler.min_latency_ns s ∈ ls /\ FeedHandler.max_latency_ns s ∈ ls) /\
  (ls = [] ->
     FeedHandler.min_latency_ns s = UINT64_MAX /\ FeedHandler.max_latency_ns s = 0).
Proof.
  intros Hls s.
  destruct (update_latencies_fold ls FeedHandler.fh_stats0) as (H1 & H2 & H3).
  { simpl. unfold is_u64. lia. }
  fold s in H1, H2, H3. cbn [FeedHandler.fh_stats0 FeedHandler.total_latency_ns
    FeedHandler.min_latency_ns FeedHandler.max_latency_ns] in H1, H2, H3.
  rewrite H1, H2, H3.
  destruct (foldr_min_spec UINT64_MAX ls) as (M1 & M2 & M3).
  destruct (foldr_max_spec 0 ls) as (X1 & X2 & X3).
  split; [done|]. split; [|split].
  - intros l Hin. split; [by apply M1|by apply X1].
  - intros Hne. destruct ls as [|x ls]; [done|].
    apply Forall_cons in Hls as [Hx _]. unfold is_u64 in Hx.
    split.
    + destruct M3 as [He|?]; [|done].
      specialize (M1 x ltac:(left)). rewrite He in M1 |- *.
      unfold UINT64_MAX in *. assert (x = 2 ^ 64 - 1) as <- by lia. left.
    + destruct X3 as [He|?]; [|done].
      specialize (X1 x ltac:(left)). rewrite He in X1 |- *.
      assert (x = 0) as <- by lia. left.
  - intros ->. done.
Qed.

Lemma process_packet_in_sequence s data ts m :
  state_ m = INITIAL \/ (state_ m = LIVE /\ next_expected_seq_ m = s) ->
  (forall x, x ∈ recent_seq_set_ m -> x < s) ->
  0 <= s -> s + 1 < 2 ^ 64 ->
  let r := process_packet s data ts m in
  r.1 = true /\ state_ r.2 = LIVE /\ next_expected_seq_ r.2 = s + 1 /\
  pending_gaps_ r.2 = pending_gaps_ m /\
  resequence_buffer_ r.2 = resequence_buffer_ m /\
  (forall x, x ∈ recent_seq_set_ r.2 -> x < s + 1) /\
  duplicates (PacketManager.stats_ r.2) = duplicates (PacketManager.stats_ m) /\
  callback_trace r.2 = callback_trace m.
Proof.
  intros Hst Hlt H0 Hb r.
  assert (Hd : is_duplicate m s = false).
  { apply is_duplicate_not_elem. intros Hin. specialize (Hlt s Hin). lia. }
  assert (Hset : forall x, x ∈ recent_seq_set_ r.2 -> x < s + 1).
  { intros x Hx. destruct (process_packet_set_subset s data ts m x Hx) as [->|Hin]; [lia|].
    specialize (Hlt x Hin). lia. }
  revert Hset. subst r. rewrite process_packet_fresh by done. intros Hset.
  destruct Hst as [Hst|[Hst Hn]]; rewrite Hst in Hset |- *.
  - cbn [handle_initial_state fst snd state_ set_state set_next_expected
         next_expected_seq_ pending_gaps_ resequence_buffer_ PacketManager.stats_
         callback_trace] in Hset |- *.
    rewrite seen_pending, seen_buffer, seen_duplicates, seen_trace.
    rewrite wrap64_small by lia. done.
  - unfold handle_live_state in Hset |- *. rewrite seen_next, Hn, Z.eqb_refl in Hset |- *.
    cbn [fst snd state_ set_state set_next_expected
         next_expected_seq_ pending_gaps_ resequence_buffer_ PacketManager.stats_
         callback_trace] in Hset |- *.
    rewrite seen_state, seen_pending, seen_buffer, seen_duplicates, seen_trace.
    rewrite wrap64_small by lia. done.
Qed.

Lemma periodic_maintenance_idle t m :
  pending_gaps_ m = [] ->
  let m' := periodic_maintenance t m in
  state_ m' = state_ m /\ next_expected_seq_ m' = next_expected_seq_ m /\
  pending_gaps_ m' = [] /\ resequence_buffer_ m' = resequence_buffer_ m /\
  recent_seq_set_ m' = recent_seq_set_ m /\
  PacketManager.stats_ m' = PacketManager.stats_ m /\
  callback_trace m' = callback_trace m.
Proof. intros Hp. unfold periodic_maintenance. rewrite Hp. done. Qed.

Lemma maintenance_in_order t s evs h :
  in_order_inv s evs h ->
  in_order_inv s evs (maintenance t h) /\
  FeedHandler.tsc_reads (maintenance t h) = FeedHandler.tsc_reads h.
Proof.
  intros (I1 & I2 & I3 & I4 & I5 & I6 & I7). unfold FeedHandler.maintenance.
  destruct (FeedHandler.MAINTENANCE_INTERVAL_NS <? _); [|done].
  destruct (periodic_maintenance_idle t (FeedHandler.packet_manager_ h) I2)
    as (P1 & P2 & P3 & P4 & P5 & P6 & P7).
  assert (in_order_inv s evs
            (FeedHandler.set_manager
               (periodic_maintenance t (FeedHandler.packet_manager_ h)) h)) as Hinv.
  { unfold FeedHandler.in_order_inv. cbn [FeedHandler.set_manager
      FeedHandler.packet_manager_ FeedHandler.event_queue_ FeedHandler.stats_].
    rewrite P1, P2, P3, P4, P5, P6, P7. done. }
  destruct (FeedHandler.LOG_INTERVAL_NS <? _); done.
Qed.

Lemma read_tsc_in_order s evs h :
  in_order_inv s evs h ->
  in_order_inv s evs (FeedHandler.read_tsc rdtsc h).2 /\
  (FeedHandler.read_tsc rdtsc h).1 = rdtsc (FeedHandler.tsc_reads h) /\
  FeedHandler.tsc_reads (FeedHandler.read_tsc rdtsc h).2 = S (FeedHandler.tsc_reads h).
Proof. done. Qed.

Local Ltac fh_simpl :=
  cbn [FeedHandler.event_queue_ FeedHandler.stats_ FeedHandler.packet_manager_
       FeedHandler.last_maintenance_time_ FeedHandler.last_log_time_
       FeedHandler.tsc_reads FeedHandler.cerr
       FeedHandler.set_queue FeedHandler.set_fh_stats FeedHandler.set_manager
       FeedHandler.set_last_maintenance FeedHandler.set_last_log
       FeedHandler.read_tsc fst snd] in *.

(** One in-sequence TRADE or QUOTE datagram through [on_datagram]. *)
Lemma on_datagram_in_order s evs ev d h :
  in_order_inv s evs h ->
  0 <= s -> s + 1 < 2 ^ 64 ->
  Z.of_nat (length evs) < QUEUE_SIZE ->
  Wire.sizeof_MarketDataPacket <= Z.of_nat (length d) ->
  Wire.packet_sequence d = s ->
  FeedHandler.normalize d (rdtsc (FeedHandler.tsc_reads h)) = Some ev ->
  in_order_inv (s + 1) (evs ++ [ev]) (on_datagram d h) /\
  state_ (FeedHandler.packet_manager_ (on_datagram d h)) = LIVE /\
  next_expected_seq_ (FeedHandler.packet_manager_ (on_datagram d h)) = s + 1 /\
  FeedHandler.tsc_reads (on_datagram d h) = S (S (FeedHandler.tsc_reads h)).
Proof.
  unfold FeedHandler.in_order_inv.
  destruct h as [q st m tm tl reads err]. fh_simpl.
  intros (I1 & I2 & I3 & I4 & I5 & I6 & I7 & I8 & I9 & I10 & I11 & I12 & I13)
    H0 Hb Hroom Hlen Hseq Hnorm.
  unfold FeedHandler.on_datagram. fh_simpl.
  unfold FeedHandler.process_packet.
  rewrite (proj2 (Z.ltb_ge _ _) Hlen). rewrite Hseq. fh_simpl.
  pose proof (process_packet_in_sequence s (Some d) (rdtsc reads) m I1 I4 H0 Hb)
    as (P1 & P2 & P3 & P4 & P5 & P6 & P7 & P8).
  destruct (process_packet s (Some d) (rdtsc reads) m) as [ok m1].
  fh_simpl. subst ok. unfold get_stats.
  rewrite P7, I5. change (0 <? 0) with false. cbv iota.
  unfold FeedHandler.parse_and_queue_packet. rewrite Hnorm. fh_simpl.
  pose proof (queue_push_contents q ev I7) as Hc.
  pose proof (queue_push_full q ev I7) as Hf.
  pose proof (try_push_positions QUEUE_SIZE q ev I7) as [Hr Hw].
  pose proof (contents_length QUEUE_SIZE 16 ltac:(lia) q I7) as Hcl.
  rewrite I8, I9 in Hcl.
  assert (Hw2 : SPSCQueue.write_pos_ q + 2 < 2 ^ 64).
  { unfold FeedHandler.QUEUE_SIZE in Hroom. lia. }
  pose proof (try_push_inv QUEUE_SIZE q ev I7 Hw2) as Hi.
  destruct (qpush ev q) as [ok q1]. fh_simpl.
  destruct ok; [|rewrite I8 in Hf; destruct Hf as [Hf _]; specialize (Hf eq_refl); lia].
  fh_simpl.
  unfold get_ready_packets. rewrite P5, I3, map_size_empty. cbn [drain_loop fold_left].
  fh_simpl.
  cbn [FeedHandler.update_latency FeedHandler.add_processed FeedHandler.add_received
       FeedHandler.packets_received FeedHandler.packets_processed
       FeedHandler.packets_dropped FeedHandler.sequence_gaps].
  rewrite P2, P3, P4, P5, P7, P8, I2, I3, I5, I6, Hc, I8, Hr, I9, I10, I11, I12, I13.
  unfold FeedHandler.QUEUE_SIZE in Hroom.
  rewrite length_app, !wrap64_small by (simpl; lia).
  split; [|done].
  split; [right; done|]. repeat (split; [done|]).
  split; [simpl; lia|]. split; [simpl; lia|]. done.
Qed.

Lemma normalize_some d t :
  Wire.msg_type d = Wire.TRADE \/ Wire.msg_type d = Wire.QUOTE ->
  is_Some (FeedHandler.normalize d t).
Proof. unfold FeedHandler.normalize. intros [->| ->]; simpl; by eexists. Qed.

Lemma receive_datagram d :
  0 < Z.of_nat (length d) <= 65536 ->
  UDPReceiver.receive_internal (UDPReceiver.Datagram d) = (Z.of_nat (length d), Some d).
Proof.
  intros Hd. unfold UDPReceiver.receive_internal, UDPReceiver.receive.
  rewrite take_ge by (unfold UDPReceiver.RECV_BUFFER_SIZE; lia).
  by rewrite (proj2 (Z.ltb_lt _ _) (proj1 Hd)).
Qed.

Lemma run_loop_in_order ds : forall s evs h sc,
  in_order_inv s evs h ->
  0 <= s -> s + Z.of_nat (length ds) < 2 ^ 64 ->
  Z.of_nat (length evs) + Z.of_nat (length ds) <= QUEUE_SIZE ->
  (forall i d, ds !! i = Some d ->
     Wire.sizeof_MarketDataPacket <= Z.of_nat (length d) <= 65536 /\
     Wire.packet_sequence d = s + Z.of_nat i /\
     (Wire.msg_type d = Wire.TRADE \/ Wire.msg_type d = Wire.QUOTE)) ->
  exists h' evs',
    run_loop ((fun d => (true, UDPReceiver.Datagram d)) <$> ds) sc h = (None, h') /\
    in_order_inv (s + Z.of_nat (length ds)) (evs ++ evs') h' /\
    Some <$> evs' =
      imap (fun i d => FeedHandler.normalize d
                         (rdtsc (FeedHandler.tsc_reads h + 3 * i + 1)%nat)) ds /\
    (ds <> [] ->
     state_ (FeedHandler.packet_manager_ h') = LIVE /\
     next_expected_seq_ (FeedHandler.packet_manager_ h') = s + Z.of_nat (length ds)).
Proof.
  induction ds as [|d ds IH]; intros s evs h sc Hinv H0 Hb Hroom Hds.
  - exists h, []. simpl. rewrite Z.add_0_r, app_nil_r. done.
  - destruct (Hds 0%nat d eq_refl) as ((Hlen & Hmax) & Hseq & Hty).
    rewrite Z.add_0_r in Hseq. cbn [length] in Hb, Hroom.
    cbn [fmap list_fmap FeedHandler.run_loop negb].
    destruct (read_tsc_in_order s evs h Hinv) as (Hinv1 & Ht & Hr1).
    destruct (FeedHandler.read_tsc rdtsc h) as [current_time h1]. cbn [fst snd] in *.
    destruct (maintenance_in_order current_time s evs h1 Hinv1) as [Hinv2 Hr2].
    rewrite receive_datagram
      by (unfold Wire.sizeof_MarketDataPacket, Wire.sizeof_header, Wire.sizeof_payload,
            Wire.sizeof_TradeMessage, Wire.sizeof_QuoteMessage, Wire.sizeof_raw_data in Hlen;
          lia).
    assert ((0 <? Z.of_nat (length d)) = true) as ->.
    { apply Z.ltb_lt.
      unfold Wire.sizeof_MarketDataPacket, Wire.sizeof_header, Wire.sizeof_payload,
        Wire.sizeof_TradeMessage, Wire.sizeof_QuoteMessage, Wire.sizeof_raw_data in Hlen.
      lia. }
    cbn [default].
    set (h2 := maintenance current_time h1) in *.
    destruct (normalize_some d (rdtsc (FeedHandler.tsc_reads h2)) Hty) as [ev Hev].
    destruct (on_datagram_in_order s evs ev d h2 Hinv2 H0 ltac:(lia) ltac:(lia)
                Hlen Hseq Hev) as (Hinv3 & Hst3 & Hn3 & Hr3).
    destruct (IH (s + 1) (evs ++ [ev]) (on_datagram d h2) sc Hinv3)
      as (h' & evs' & Hrun & Hinv' & Hevs' & Hlive).
    + lia.
    + lia.
    + rewrite length_app. simpl. lia.
    + intros i d' Hd'. destruct (Hds (S i) d' Hd') as (? & ? & ?).
      split; [done|]. split; [lia|done].
    + exists h', (ev :: evs'). split; [exact Hrun|]. split; [|split].
      * replace (s + Z.of_nat (length (d :: ds))) with (s + 1 + Z.of_nat (length ds))
          by (simpl; lia).
        rewrite <- app_assoc in Hinv'. exact Hinv'.
      * rewrite fmap_cons, imap_cons, Hevs'. f_equal.
        -- rewrite <- Hev. do 2 f_equal. lia.
        -- apply imap_ext. intros i x _. simpl. do 2 f_equal. lia.
      * intros _. destruct ds as [|d' ds].
        -- simpl in Hrun. injection Hrun as <-. split; [done|]. simpl. lia.
        -- destruct Hlive as [Hl1 Hl2]; [done|]. split; [done|].
           rewrite Hl2. simpl. lia.
Qed.

(** X14. In-order delivery, end to end.  [run] on a fresh handler, with
    [g_running] set throughout and the socket delivering up to 65536
    full-size TRADE or QUOTE datagrams whose sequences are consecutive,
    passes every one of them to the queue: the events in the queue are
    the normalised datagrams, in arrival order; the [i]-th of them is
    stamped with the value of the [3i+2]-nd read of the time-stamp
    counter (one read before the loop, then three per iteration);
    [packets_received] and [packets_processed] both equal the number of
    datagrams and nothing is dropped; the manager is Live at the sequence
    after the last; no retransmission or snapshot is requested; and the
    loop has not been left when the inputs end. *)
Theorem in_order_datagrams_reach_queue (s : Z) (ds : list (list byte)) :
  0 <= s -> s + Z.of_nat (length ds) < 2 ^ 64 ->
  Z.of_nat (length ds) <= QUEUE_SIZE ->
  (forall i d, ds !! i = Some d ->
     Wire.sizeof_MarketDataPacket <= Z.of_nat (length d) <= 65536 /\
     Wire.packet_sequence d = s + Z.of_nat i /\
     (Wire.msg_type d = Wire.TRADE \/ Wire.msg_type d = Wire.QUOTE)) ->
  let r := FeedHandler.run rdtsc tsc_to_ns
             ((fun d => (true, UDPReceiver.Datagram d)) <$> ds)
             (FeedHandler.new (SPSCQueue.empty_queue QUEUE_SIZE) FeedHandler.fh_stats0) in
  r.1 = None /\
  Some <$> qcontents (FeedHandler.event_queue_ r.2) =
    imap (fun i d => FeedHandler.normalize d (rdtsc (3 * i + 2)%nat)) ds /\
  FeedHandler.packets_received (FeedHandler.stats_ r.2) = Z.of_nat (length ds) /\
  FeedHandler.packets_processed (FeedHandler.stats_ r.2) = Z.of_nat (length ds) /\
  FeedHandler.packets_dropped (FeedHandler.stats_ r.2) = 0 /\
  FeedHandler.sequence_gaps (FeedHandler.stats_ r.2) = 0 /\
  (ds <> [] ->
   state_ (FeedHandler.packet_manager_ r.2) = LIVE /\
   next_expected_seq_ (FeedHandler.packet_manager_ r.2) = s + Z.of_nat (length ds)) /\
  FeedHandler.recovery_calls r.2 = [].
Proof.
  intros H0 Hb Hroom Hds r. subst r. unfold FeedHandler.run.
  set (h0 := FeedHandler.new (SPSCQueue.empty_queue QUEUE_SIZE) FeedHandler.fh_stats0).
  assert (Hinv0 : in_order_inv s [] h0).
  { unfold FeedHandler.in_order_inv, h0, FeedHandler.new. fh_simpl.
    split; [by left|]. do 2 (split; [done|]).
    split; [by intros x ?%elem_of_empty|]. do 2 (split; [done|]).
    split; [apply ring_inv_empty; done|]. done. }
  destruct (read_tsc_in_order s [] h0 Hinv0) as (Hinv1 & _ & Hr1).
  destruct (FeedHandler.read_tsc rdtsc h0) as [t h1]. fh_simpl.
  assert (Hinv2 : in_order_inv s []
                    (FeedHandler.set_last_log t (FeedHandler.set_last_maintenance t h1)))
    by exact Hinv1.
  destruct (run_loop_in_order ds s [] _ 0 Hinv2 H0 Hb ltac:(simpl; lia) Hds)
    as (h' & evs' & Hrun & Hinv' & Hevs' & Hlive).
  rewrite Hrun. fh_simpl. 
  destruct Hinv' as (I1 & I2 & I3 & I4 & I5 & I6 & I7 & I8 & I9 & I10 & I11 & I12 & I13).
  simpl in I8, I10, I11.
  assert (Hlen : length evs' = length ds).
  { apply (f_equal length) in Hevs'. by rewrite length_fmap, length_imap in Hevs'. }
  rewrite I10, I11, I12, I13, I8, Hlen, Hevs'.
  split; [done|]. split.
  { apply imap_ext. intros i x _. simpl. rewrite Hr1. do 2 f_equal.
    change (FeedHandler.tsc_reads h0) with 0%nat. lia. }
  repeat (split; [done|]).
  unfold FeedHandler.recovery_calls. by rewrite I6.
Qed.

End Accounting.

(** ** The memory pool *)

Section Pool.

Local Abbreviation Pool := MemoryPool.Pool.
Local Abbreviation chain := MemoryPool.chain.
Local Abbreviation blocks := MemoryPool.blocks.
Local Abbreviation allocate := MemoryPool.allocate.
Local Abbreviation deallocate := MemoryPool.deallocate.
Local Abbreviation align_size := MemoryPool.align_size.

Implicit Types (p : Pool) (held free : list Z) (mem : gmap Z Z).

Lemma land_high_mask x :
  0 <= x < 2 ^ 64 -> Z.land x (2 ^ 64 - 64) = 64 * (x / 64).
Proof.
  intros Hx.
  assert (Hm : 2 ^ 64 - 64 = Z.ldiff (Z.ones 64) (Z.ones 6)) by reflexivity.
  assert (He : Z.land x (Z.ldiff (Z.ones 64) (Z.ones 6)) =
               Z.ldiff (Z.land x (Z.ones 64)) (Z.ones 6)).
  { apply Z.bits_inj'. intros n Hn.
    rewrite Z.land_spec, !Z.ldiff_spec, Z.land_spec. by rewrite andb_assoc. }
  rewrite Hm, He, Z.land_ones by lia. rewrite Z.mod_small by lia.
  rewrite Z.ldiff_ones_r by lia.
  rewrite Z.shiftl_mul_pow2, Z.shiftr_div_pow2 by lia.
  change (2 ^ 6) with 64. lia.
Qed.

Lemma align_size_eq size :
  0 <= size -> size + 63 < 2 ^ 64 -> align_size size = 64 * ((size + 63) / 64).
Proof.
  intros H0 Hb. unfold MemoryPool.align_size, MemoryPool.alignment.
  change (wrap64 (Z.lnot (64 - 1))) with (2 ^ 64 - 64).
  rewrite wrap64_small by lia. replace (size + 64 - 1) with (size + 63) by lia.
  apply land_high_mask. lia.
Qed.

Lemma align_size_bounds size :
  0 <= size -> size + 63 < 2 ^ 64 ->
  align_size size mod 64 = 0 /\ size <= align_size size < size + 64.
Proof.
  intros H0 Hb. rewrite (align_size_eq size H0 Hb).
  pose proof (Z.div_mod (size + 63) 64 ltac:(lia)) as Hdm.
  pose proof (Z.mod_pos_bound (size + 63) 64 ltac:(lia)) as Hmb.
  split; [by rewrite Z.mul_comm, Z.mod_mul by lia|lia].
Qed.

(** X15. [align_size] rounds a size up to the next multiple of the cache
    line: the result is a multiple of 64, not less than the size and
    less than 64 above it; so the [aligned_size_] of a pool is a positive
    multiple of 64 that holds both a [T] and a [FreeNode]. *)
Theorem align_size_rounds_up (size : Z) :
  0 <= size -> size + 63 < 2 ^ 64 ->
  align_size size mod 64 = 0 /\
  size <= align_size size < size + 64 /\
  (size mod 64 = 0 -> align_size size = size) /\
  align_size (align_size size) = align_size size.
Proof.
  intros H0 Hb.
  assert (Hr : forall s, 0 <= s -> s + 63 < 2 ^ 64 ->
            align_size s mod 64 = 0 /\ s <= align_size s < s + 64 /\
            (s mod 64 = 0 -> align_size s = s)).
  { intros s Hs Hsb. rewrite (align_size_eq s Hs Hsb).
    pose proof (Z.div_mod (s + 63) 64 ltac:(lia)) as Hdm.
    pose proof (Z.mod_pos_bound (s + 63) 64 ltac:(lia)) as Hmb.
    split; [by rewrite Z.mul_comm, Z.mod_mul by lia|]. split; [lia|].
    intros Hmod. pose proof (Z.div_mod s 64 ltac:(lia)) as Hs64.
    rewrite Hmod, Z.add_0_r in Hs64.
    replace (s + 63) with (s / 64 * 64 + 63) by lia.
    rewrite Z.div_add_l by lia. change (63 / 64) with 0. lia. }
  destruct (Hr size H0 Hb) as (R1 & R2 & R3).
  split; [done|]. split; [done|]. split; [done|].
  pose proof (align_size_eq size H0 Hb) as He.
  pose proof (Z.div_mod (size + 63) 64 ltac:(lia)) as Hdm.
  pose proof (Z.mod_pos_bound (size + 63) 64 ltac:(lia)) as Hmb.
  destruct (Hr (align_size size)) as (_ & _ & R3'); [lia|lia|].
  by apply R3'.
Qed.

Lemma chain_insert mem a v l : forall head,
  a ∉ l -> chain (<[a := v]> mem) head l <-> chain mem head l.
Proof.
  induction l as [|b l IH]; intros head Hnot; simpl; [done|].
  apply not_elem_of_cons in Hnot as [Hab Hl].
  rewrite lookup_insert_ne by done. rewrite IH by done. done.
Qed.

Lemma chain_head mem head l : chain mem head l -> (head = 0 <-> l = []).
Proof.
  destruct l as [|a l]; simpl; [done|].
  intros (-> & Hnz & _). unfold MemoryPool.nullptr in Hnz. done.
Qed.

Lemma elem_of_blocks b a i n x :
  x ∈ blocks b a i n <-> exists j, (i <= j < i + n)%nat /\ x = b + Z.of_nat j * a.
Proof.
  unfold MemoryPool.blocks. rewrite list_elem_of_fmap. split.
  - intros (j & -> & Hj%elem_of_seq). by exists j.
  - intros (j & Hj & ->). exists j. split; [done|]. by apply elem_of_seq.
Qed.

Lemma NoDup_blocks b a i n : 0 < a -> NoDup (blocks b a i n).
Proof.
  intros Ha. apply NoDup_fmap_2; [|apply NoDup_seq].
  intros j1 j2 He. nia.
Qed.

Lemma blocks_cons b a i n : blocks b a i (S n) = (b + Z.of_nat i * a) :: blocks b a (S i) n.
Proof. reflexivity. Qed.

Lemma blocks_snoc b a i n :
  blocks b a i (S n) = blocks b a i n ++ [b + Z.of_nat (i + n) * a].
Proof.
  unfold MemoryPool.blocks. rewrite seq_S, fmap_app. done.
Qed.

(** The loop of [initialize_free_list] links the blocks below [i] in
    front of the list it starts from, in address order. *)
Lemma link_blocks_chain b a i : forall head mem l,
  0 < b -> 0 < a -> Z.of_nat i * a < 2 ^ 64 ->
  chain mem head l ->
  (forall x, x ∈ l -> b + Z.of_nat i * a <= x) ->
  let r := MemoryPool.link_blocks i b a head mem in
  chain r.2 r.1 (blocks b a 0 i ++ l).
Proof.
  induction i as [|i IH]; intros head mem l Hb Ha Hov Hch Hl; [done|].
  cbn [MemoryPool.link_blocks]. rewrite wrap64_small by nia.
  rewrite blocks_snoc, <- app_assoc. simpl.
  apply IH; [done|done|nia| |].
  - simpl. split; [done|]. split; [unfold MemoryPool.nullptr; nia|].
    rewrite lookup_insert_eq. simpl. apply chain_insert; [|done].
    intros Hin. specialize (Hl _ Hin). nia.
  - intros x [->|Hin]%elem_of_cons; [nia|]. specialize (Hl _ Hin). nia.
Qed.

Lemma init_fields sizeof_T PoolSize block :
  let a := align_size (Z.max sizeof_T MemoryPool.sizeof_FreeNode) in
  let r := MemoryPool.link_blocks PoolSize block a MemoryPool.nullptr ∅ in
  let p := MemoryPool.init sizeof_T PoolSize block in
  MemoryPool.memory_block_ p = block /\
  MemoryPool.aligned_size_ p = a /\
  MemoryPool.total_size_ p = wrap64 (a * Z.of_nat PoolSize) /\
  MemoryPool.free_list_ p = r.1 /\ MemoryPool.memory p = r.2 /\
  MemoryPool.allocations_ p = 0 /\ MemoryPool.deallocations_ p = 0 /\
  MemoryPool.alloc_failures_ p = 0.
Proof.
  intros a r p. subst p r. unfold MemoryPool.init. fold a.
  by destruct (MemoryPool.link_blocks _ _ _ _ _).
Qed.

(** [allocate] on a free list that is not empty. *)
Lemma allocate_chain p x free :
  chain (MemoryPool.memory p) (MemoryPool.free_list_ p) (x :: free) ->
  exists p',
    allocate p = (x, p') /\
    chain (MemoryPool.memory p') (MemoryPool.free_list_ p') free /\
    MemoryPool.memory p' = MemoryPool.memory p /\
    MemoryPool.allocations_ p' = wrap64 (MemoryPool.allocations_ p + 1) /\
    MemoryPool.deallocations_ p' = MemoryPool.deallocations_ p /\
    MemoryPool.alloc_failures_ p' = MemoryPool.alloc_failures_ p /\
    MemoryPool.memory_block_ p' = MemoryPool.memory_block_ p /\
    MemoryPool.aligned_size_ p' = MemoryPool.aligned_size_ p /\
    MemoryPool.total_size_ p' = MemoryPool.total_size_ p.
Proof.
  simpl. intros (Hh & Hnz & Hch). unfold MemoryPool.allocate.
  cbn [MemoryPool.inc_allocations MemoryPool.free_list_]. rewrite Hh.
  rewrite (proj2 (Z.eqb_neq x MemoryPool.nullptr) Hnz).
  eexists. split; [reflexivity|]. done.
Qed.

(** [allocate] on an empty free list. *)
Lemma allocate_exhausted p :
  MemoryPool.free_list_ p = 0 ->
  allocate p = (0, MemoryPool.inc_alloc_failures (MemoryPool.inc_allocations p)).
Proof.
  intros Hh. unfold MemoryPool.allocate.
  cbn [MemoryPool.inc_allocations MemoryPool.free_list_]. by rewrite Hh.
Qed.

Lemma pool_inv_NoDup PoolSize p free held :
  0 < MemoryPool.aligned_size_ p ->
  free ++ held ≡ₚ blocks (MemoryPool.memory_block_ p) (MemoryPool.aligned_size_ p) 0 PoolSize ->
  NoDup (free ++ held).
Proof. intros Ha ->. by apply NoDup_blocks. Qed.

Local Ltac mp_simpl :=
  cbn [MemoryPool.memory_block_ MemoryPool.free_list_ MemoryPool.memory
       MemoryPool.allocations_ MemoryPool.deallocations_ MemoryPool.alloc_failures_
       MemoryPool.object_size_ MemoryPool.aligned_size_ MemoryPool.total_size_
       MemoryPool.set_free_list MemoryPool.store MemoryPool.inc_allocations
       MemoryPool.inc_deallocations MemoryPool.inc_alloc_failures fst snd] in *.

Lemma step_inv PoolSize n c p held :
  0 < MemoryPool.memory_block_ p -> 0 < MemoryPool.aligned_size_ p ->
  0 <= n -> n + 1 < 2 ^ 64 ->
  MemoryPool.pool_inv PoolSize n (p, held) ->
  MemoryPool.pool_inv PoolSize (n + 1) (MemoryPool.step c (p, held)) /\
  MemoryPool.memory_block_ (MemoryPool.step c (p, held)).1 = MemoryPool.memory_block_ p /\
  MemoryPool.aligned_size_ (MemoryPool.step c (p, held)).1 = MemoryPool.aligned_size_ p /\
  MemoryPool.total_size_ (MemoryPool.step c (p, held)).1 = MemoryPool.total_size_ p.
Proof.
  intros Hb Ha H0 Hn (free & Hch & Hperm & HF & HD & HA & Hcount).
  pose proof (pool_inv_NoDup PoolSize p free held Ha Hperm) as Hnd.
  assert (Halloc : forall x free', free = x :: free' ->
            exists p', allocate p = (x, p') /\ x <> 0 /\ (x ∉ free') /\
              MemoryPool.memory p' = MemoryPool.memory p /\
              MemoryPool.memory_block_ p' = MemoryPool.memory_block_ p /\
              MemoryPool.aligned_size_ p' = MemoryPool.aligned_size_ p /\
              MemoryPool.total_size_ p' = MemoryPool.total_size_ p /\
              chain (MemoryPool.memory p') (MemoryPool.free_list_ p') free' /\
              free' ++ x :: held ≡ₚ
                blocks (MemoryPool.memory_block_ p') (MemoryPool.aligned_size_ p') 0 PoolSize /\
              0 <= MemoryPool.alloc_failures_ p' /\ 0 <= MemoryPool.deallocations_ p' /\
              MemoryPool.allocations_ p' <= n + 1 /\
              MemoryPool.allocations_ p' - MemoryPool.alloc_failures_ p' -
                MemoryPool.deallocations_ p' = Z.of_nat (length (x :: held))).
  { intros x free' ->. pose proof Hch as (_ & Hnz & _).
    destruct (allocate_chain p x free' Hch)
      as (p' & Hal & Hch' & Hm & HA' & HD' & HF' & Hb' & Ha' & Ht').
    exists p'. split; [done|]. split; [done|].
    split; [by apply NoDup_app in Hnd as [[? _]%NoDup_cons _]|].
    rewrite Hm in Hch' |- *. rewrite Hb', Ha', Ht', HF', HD', HA'.
    rewrite wrap64_small by lia. do 4 (split; [done|]). split; [exact Hch'|].
    split; [by rewrite <- Permutation_middle|]. do 3 (split; [lia|]). simpl. lia. }
  destruct c as [|v|i]; cbn [MemoryPool.step].
  - destruct free as [|x free'].
    + simpl in Hch. rewrite (allocate_exhausted p Hch). simpl.
      split; [|done]. exists []. simpl in *.
      rewrite !wrap64_small by lia. rewrite Hch. repeat (split; [done || lia|]). lia.
    + destruct (Halloc x free' eq_refl)
        as (p' & Hal & Hnz & _ & Hm & Hb' & Ha' & Ht' & Hrest).
      rewrite Hal. rewrite (proj2 (Z.eqb_neq x MemoryPool.nullptr) Hnz).
      split; [|done]. by exists free'.
  - unfold MemoryPool.construct. destruct free as [|x free'].
    + simpl in Hch. rewrite (allocate_exhausted p Hch). simpl.
      split; [|done]. exists []. simpl in *.
      rewrite !wrap64_small by lia. rewrite Hch. repeat (split; [done || lia|]). lia.
    + destruct (Halloc x free' eq_refl)
        as (p' & Hal & Hnz & Hnot & Hm & Hb' & Ha' & Ht' & Hch' & Hrest).
      rewrite Hal. rewrite (proj2 (Z.eqb_neq x MemoryPool.nullptr) Hnz).
      rewrite (proj2 (Z.eqb_neq x MemoryPool.nullptr) Hnz).
      split; [|done]. exists free'. cbn [MemoryPool.store MemoryPool.memory
        MemoryPool.free_list_ MemoryPool.memory_block_ MemoryPool.aligned_size_
        MemoryPool.alloc_failures_ MemoryPool.deallocations_ MemoryPool.allocations_].
      split; [by apply chain_insert|]. exact Hrest.
  - destruct (held !! i) as [ptr|] eqn:Hi.
    + assert (Hin : ptr ∈ free ++ held).
      { apply elem_of_app. right. by eapply list_elem_of_lookup_2. }
      assert (Hnz : ptr <> 0).
      { rewrite Hperm in Hin. apply elem_of_blocks in Hin as (j & _ & ->). nia. }
      assert (Hnot : ptr ∉ free).
      { apply NoDup_app in Hnd as (_ & Hdis & _). intros Hf.
        apply (Hdis ptr Hf). by eapply list_elem_of_lookup_2. }
      unfold MemoryPool.destroy, MemoryPool.deallocate.
      rewrite (proj2 (Z.eqb_neq ptr MemoryPool.nullptr) Hnz).
      mp_simpl. split; [|done]. exists (ptr :: free). mp_simpl.
      assert (Hlen : (0 < length held)%nat) by (apply lookup_lt_Some in Hi; lia).
      rewrite wrap64_small by lia.
      split; [|split; [|split; [lia|split; [lia|split; [lia|]]]]].
      * simpl. split; [done|]. split; [done|]. rewrite lookup_insert_eq. simpl.
        by apply chain_insert.
      * rewrite <- Hperm. simpl. rewrite Permutation_middle.
        apply Permutation_app_head. symmetry. by apply delete_Permutation.
      * rewrite length_delete by done. lia.
    + split; [|done]. exists free. repeat (split; [done || lia|]). done.
Qed.

Lemma run_inv PoolSize cs : forall n p held,
  0 < MemoryPool.memory_block_ p -> 0 < MemoryPool.aligned_size_ p ->
  0 <= n -> n + Z.of_nat (length cs) < 2 ^ 64 ->
  MemoryPool.pool_inv PoolSize n (p, held) ->
  let st := MemoryPool.run cs (p, held) in
  MemoryPool.pool_inv PoolSize (n + Z.of_nat (length cs)) st /\
  MemoryPool.memory_block_ st.1 = MemoryPool.memory_block_ p /\
  MemoryPool.aligned_size_ st.1 = MemoryPool.aligned_size_ p /\
  MemoryPool.total_size_ st.1 = MemoryPool.total_size_ p.
Proof.
  unfold MemoryPool.run.
  induction cs as [|c cs IH]; intros n p held Hb Ha H0 Hn Hinv.
  - simpl. rewrite Z.add_0_r. done.
  - cbn [fold_left length] in *.
    destruct (step_inv PoolSize n c p held Hb Ha H0 ltac:(lia) Hinv)
      as (Hinv1 & Hb1 & Ha1 & Ht1).
    destruct (MemoryPool.step c (p, held)) as [p1 held1]. cbn [fst snd] in *.
    destruct (IH (n + 1) p1 held1) as (Hinv2 & Hb2 & Ha2 & Ht2);
      [lia|lia|lia|lia|done|].
    replace (n + Z.of_nat (S (length cs))) with (n + 1 + Z.of_nat (length cs)) by lia.
    rewrite Hb2, Ha2, Ht2. done.
Qed.

Lemma init_inv sizeof_T PoolSize block :
  0 < block -> 0 <= sizeof_T -> sizeof_T + 63 < 2 ^ 64 ->
  Z.of_nat PoolSize * align_size (Z.max sizeof_T MemoryPool.sizeof_FreeNode) < 2 ^ 64 ->
  let p := MemoryPool.init sizeof_T PoolSize block in
  MemoryPool.pool_inv PoolSize 0 (p, []) /\
  chain (MemoryPool.memory p) (MemoryPool.free_list_ p)
        (blocks block (MemoryPool.aligned_size_ p) 0 PoolSize) /\
  Z.max sizeof_T 8 <= MemoryPool.aligned_size_ p.
Proof.
  intros Hb Hs Hsb Hov p.
  destruct (init_fields sizeof_T PoolSize block)
    as (F1 & F2 & F3 & F4 & F5 & F6 & F7 & F8).
  fold p in F1, F2, F3, F4, F5, F6, F7, F8.
  unfold MemoryPool.sizeof_FreeNode in *.
  destruct (align_size_bounds (Z.max sizeof_T 8)) as [Hr1 Hr2]; [lia|lia|].
  assert (Hch : chain (MemoryPool.memory p) (MemoryPool.free_list_ p)
                  (blocks block (MemoryPool.aligned_size_ p) 0 PoolSize)).
  { rewrite F4, F5, F2.
    pose proof (link_blocks_chain block (align_size (Z.max sizeof_T 8)) PoolSize
                  MemoryPool.nullptr ∅ [] Hb ltac:(lia) Hov eq_refl) as Hl.
    rewrite app_nil_r in Hl. apply Hl. by intros x ?%elem_of_nil. }
  split; [|split; [done|rewrite F2; lia]].
  exists (blocks block (MemoryPool.aligned_size_ p) 0 PoolSize).
  rewrite app_nil_r, F1, F6, F7, F8. done.
Qed.

(** X16. The pool never hands out a block twice.  A client makes any
    sequence of [allocate], [construct] and [destroy] calls on a fresh
    pool, returning only pointers it holds.  Then the pointers it holds
    are pairwise different blocks of the pool: each is non-null, owned,
    a whole number of [aligned_size_] steps from [memory_block_], and
    its [aligned_size_] bytes, enough for a [T], lie inside the pool and
    overlap no other held block.  The counters satisfy [allocations -
    failures - deallocations] = number of blocks held, so [in_use] of
    [get_stats] is the number of blocks held plus the number of failed
    allocations.  The next [allocate] returns the null pointer exactly
    when all [PoolSize] blocks are held, and otherwise a block that is
    not held. *)
Theorem pool_blocks_are_exclusive (sizeof_T : Z) (PoolSize : nat) (block : Z)
    (cs : list MemoryPool.Call) :
  0 < block -> 0 <= sizeof_T -> sizeof_T + 63 < 2 ^ 64 ->
  Z.of_nat PoolSize * align_size (Z.max sizeof_T MemoryPool.sizeof_FreeNode) < 2 ^ 64 ->
  Z.of_nat (length cs) + 1 < 2 ^ 64 ->
  let st := MemoryPool.run cs (MemoryPool.init sizeof_T PoolSize block, []) in
  let p := st.1 in
  let held := st.2 in
  let a := MemoryPool.aligned_size_ p in
  NoDup held /\
  (forall ptr, ptr ∈ held ->
     ptr <> MemoryPool.nullptr /\ MemoryPool.owns ptr p = true /\
     block <= ptr /\ ptr + a <= block + MemoryPool.total_size_ p /\
     (ptr - block) mod a = 0) /\
  (forall i j x y, i <> j -> held !! i = Some x -> held !! j = Some y ->
     x + a <= y \/ y + a <= x) /\
  sizeof_T <= a /\
  (length held <= PoolSize)%nat /\
  MemoryPool.allocations_ p - MemoryPool.alloc_failures_ p -
    MemoryPool.deallocations_ p = Z.of_nat (length held) /\
  MemoryPool.in_use (MemoryPool.get_stats p) =
    Z.of_nat (length held) + MemoryPool.alloc_failures_ p /\
  ((allocate p).1 = MemoryPool.nullptr <-> length held = PoolSize) /\
  ((allocate p).1 <> MemoryPool.nullptr -> (allocate p).1 ∉ held).
Proof.
  intros Hb Hs Hsb Hov Hn st p held a.
  destruct (init_inv sizeof_T PoolSize block Hb Hs Hsb Hov) as (Hinv0 & _ & Hsz).
  destruct (init_fields sizeof_T PoolSize block) as (F1 & F2 & F3 & _).
  destruct (run_inv PoolSize cs 0 (MemoryPool.init sizeof_T PoolSize block) [])
    as (Hinv & Hb' & Ha' & Ht'); [lia|lia|lia|lia|done|].
  fold st in Hinv, Hb', Ha', Ht'. fold p in Hb', Ha', Ht'. fold a in Ha'.
  rewrite F1 in Hb'. rewrite F2 in Ha'. rewrite F3 in Ht'.
  assert (Hst : st = (p, held)) by (by destruct st).
  rewrite Hst in Hinv. destruct Hinv as (free & Hch & Hperm & HF & HD & HA & Hcount).
  fold a in Hperm. rewrite Hb' in Hperm.
  unfold MemoryPool.sizeof_FreeNode in *.
  assert (Ha : 0 < a) by lia.
  assert (Hnd : NoDup (free ++ held)) by (rewrite Hperm; by apply NoDup_blocks).
  assert (Hlen : (length free + length held = PoolSize)%nat).
  { apply Permutation_length in Hperm. rewrite length_app in Hperm.
    unfold MemoryPool.blocks in Hperm. by rewrite length_fmap, length_seq in Hperm. }
  assert (Hblock : forall x, x ∈ held ->
            exists j, (j < PoolSize)%nat /\ x = block + Z.of_nat j * a).
  { intros x Hx. assert (x ∈ free ++ held) as Hin by (apply elem_of_app; by right).
    rewrite Hperm in Hin. apply elem_of_blocks in Hin as (j & Hj & ->).
    exists j. split; [lia|done]. }
  assert (Htot : MemoryPool.total_size_ p = a * Z.of_nat PoolSize).
  { rewrite Ht', <- Ha'. apply wrap64_small. rewrite Ha'. nia. }
  split; [by apply NoDup_app in Hnd as (_ & _ & ?)|].
  split; [|split; [|split; [lia|split; [lia|split; [done|split; [|split]]]]]].
  - intros ptr Hin. destruct (Hblock ptr Hin) as (j & Hj & ->).
    unfold MemoryPool.owns, MemoryPool.nullptr. rewrite Hb', Htot.
    split; [nia|]. split; [|split; [nia|split; [nia|]]].
    + apply andb_true_iff. split; [apply Z.leb_le; nia|apply Z.ltb_lt; nia].
    + replace (block + Z.of_nat j * a - block) with (Z.of_nat j * a) by lia.
      by apply Z.mod_mul; lia.
  - intros i j x y Hij Hi Hj.
    assert (x <> y) as Hxy.
    { intros ->. apply Hij. apply NoDup_app in Hnd as (_ & _ & Hndh).
      by eapply NoDup_lookup. }
    destruct (Hblock x) as (jx & _ & ->); [by eapply list_elem_of_lookup_2|].
    destruct (Hblock y) as (jy & _ & ->); [by eapply list_elem_of_lookup_2|].
    assert (jx <> jy) by (intros ->; done). nia.
  - unfold MemoryPool.get_stats. cbn [MemoryPool.in_use].
    rewrite wrap64_small by lia. lia.
  - pose proof (chain_head _ _ _ Hch) as Hh.
    destruct free as [|x free'].
    + rewrite allocate_exhausted by (by apply Hh).
      simpl in *. unfold MemoryPool.nullptr. split; [intros _; lia|done].
    + destruct (allocate_chain p x free' Hch) as (p' & -> & _).
      pose proof Hch as (_ & Hnz & _). simpl in *. split; [done|lia].
  - destruct free as [|x free'].
    + rewrite allocate_exhausted by (by apply (chain_head _ _ _ Hch)). done.
    + destruct (allocate_chain p x free' Hch) as (p' & -> & _). simpl.
      intros _ Hin. apply NoDup_app in Hnd as (_ & Hdis & _).
      apply (Hdis x); [left|done].
Qed.

Lemma run_allocate l1 : forall p held l2,
  chain (MemoryPool.memory p) (MemoryPool.free_list_ p) (l1 ++ l2) ->
  MemoryPool.allocations_ p + Z.of_nat (length l1) < 2 ^ 64 ->
  0 <= MemoryPool.allocations_ p ->
  let st := MemoryPool.run (replicate (length l1) MemoryPool.Allocate) (p, held) in
  st.2 = reverse l1 ++ held /\
  chain (MemoryPool.memory st.1) (MemoryPool.free_list_ st.1) l2 /\
  MemoryPool.allocations_ st.1 = MemoryPool.allocations_ p + Z.of_nat (length l1) /\
  MemoryPool.alloc_failures_ st.1 = MemoryPool.alloc_failures_ p /\
  MemoryPool.deallocations_ st.1 = MemoryPool.deallocations_ p.
Proof.
  unfold MemoryPool.run.
  induction l1 as [|x l1 IH]; intros p held l2 Hch Hov H0.
  - simpl. rewrite Z.add_0_r. done.
  - cbn [length replicate fold_left MemoryPool.step] in *.
    destruct (allocate_chain p x (l1 ++ l2) Hch)
      as (p' & -> & Hch' & Hm & HA' & HD' & HF' & _).
    pose proof Hch as (_ & Hnz & _).
    rewrite (proj2 (Z.eqb_neq x MemoryPool.nullptr) Hnz).
    rewrite wrap64_small in HA' by lia.
    destruct (IH p' (x :: held) l2 Hch') as (I1 & I2 & I3 & I4 & I5); [lia|lia|].
    rewrite I1, I3, I4, I5, HA', HD', HF'.
    split; [by rewrite reverse_cons, <- app_assoc|]. split; [done|]. lia.
Qed.

(** X17. A fresh pool hands its blocks out in address order: the [n]-th
    allocation, counting from 0, returns [memory_block_ + n *
    aligned_size_], and none of the first [PoolSize] allocations fails.
    The allocation after the last block returns the null pointer and is
    counted both as an allocation and as a failure, so that [in_use] then
    reads [PoolSize + 1] with [PoolSize] blocks handed out. *)
Theorem fresh_pool_allocation_order (sizeof_T : Z) (PoolSize : nat) (block : Z) (n : nat) :
  0 < block -> 0 <= sizeof_T -> sizeof_T + 63 < 2 ^ 64 ->
  Z.of_nat PoolSize * align_size (Z.max sizeof_T MemoryPool.sizeof_FreeNode) < 2 ^ 64 ->
  Z.of_nat PoolSize + 1 < 2 ^ 64 ->
  (n <= PoolSize)%nat ->
  let p0 := MemoryPool.init sizeof_T PoolSize block in
  let st := MemoryPool.run (replicate n MemoryPool.Allocate) (p0, []) in
  st.2 = reverse (blocks block (MemoryPool.aligned_size_ p0) 0 n) /\
  MemoryPool.allocations_ st.1 = Z.of_nat n /\
  MemoryPool.alloc_failures_ st.1 = 0 /\
  ((n < PoolSize)%nat ->
     (allocate st.1).1 = block + Z.of_nat n * MemoryPool.aligned_size_ p0) /\
  (n = PoolSize ->
     (allocate st.1).1 = MemoryPool.nullptr /\
     MemoryPool.failures (MemoryPool.get_stats (allocate st.1).2) = 1 /\
     MemoryPool.in_use (MemoryPool.get_stats (allocate st.1).2) = Z.of_nat PoolSize + 1).
Proof.
  intros Hb Hs Hsb Hov Hps Hn p0 st.
  destruct (init_inv sizeof_T PoolSize block Hb Hs Hsb Hov) as (_ & Hch & _).
  destruct (init_fields sizeof_T PoolSize block) as (_ & _ & _ & _ & _ & F6 & F7 & F8).
  fold p0 in Hch, F6, F7, F8.
  set (a := MemoryPool.aligned_size_ p0) in *.
  assert (Hsplit : blocks block a 0 PoolSize =
                   blocks block a 0 n ++ blocks block a n (PoolSize - n)).
  { unfold MemoryPool.blocks. rewrite <- fmap_app. f_equal.
    replace PoolSize with (n + (PoolSize - n))%nat at 1 by lia.
    by rewrite seq_app. }
  rewrite Hsplit in Hch.
  assert (Hl : length (blocks block a 0 n) = n)
    by (unfold MemoryPool.blocks; by rewrite length_fmap, length_seq).
  pose proof (run_allocate (blocks block a 0 n) p0 [] _ Hch) as Hrun.
  rewrite Hl, F6 in Hrun. fold st in Hrun.
  destruct Hrun as (R1 & R2 & R3 & R4 & R5); [lia|lia|].
  rewrite app_nil_r in R1. rewrite F7 in R5. rewrite F8 in R4.
  split; [done|]. split; [lia|]. split; [done|]. split.
  - intros Hlt. destruct (PoolSize - n)%nat as [|k] eqn:Hk; [lia|].
    rewrite blocks_cons in R2.
    by destruct (allocate_chain st.1 _ _ R2) as (p' & -> & _).
  - intros ->. rewrite Nat.sub_diag in R2. simpl in R2.
    rewrite allocate_exhausted by done.
    unfold MemoryPool.get_stats. mp_simpl. cbn [MemoryPool.failures MemoryPool.in_use].
    rewrite R3, R4, R5. rewrite (wrap64_small (0 + 1)) by lia.
    rewrite (wrap64_small (0 + Z.of_nat PoolSize + 1)) by lia.
    rewrite wrap64_small by lia.
    unfold MemoryPool.nullptr. split; [done|]. split; [done|lia].
Qed.

(** X18. The free list is last-in, first-out: after [deallocate] of a
    non-null pointer the next [allocate] returns that very pointer, and
    the head of the free list is back to what it was before the pair of
    calls. *)
Theorem deallocate_then_allocate (ptr : Z) (p : Pool) :
  ptr <> MemoryPool.nullptr ->
  let p1 := deallocate ptr p in
  (allocate p1).1 = ptr /\
  MemoryPool.free_list_ (allocate p1).2 = MemoryPool.free_list_ p /\
  MemoryPool.memory (allocate p1).2 = <[ptr := MemoryPool.free_list_ p]> (MemoryPool.memory p) /\
  MemoryPool.alloc_failures_ (allocate p1).2 = MemoryPool.alloc_failures_ p.
Proof.
  intros Hnz p1. subst p1. unfold MemoryPool.deallocate, MemoryPool.allocate.
  rewrite (proj2 (Z.eqb_neq ptr MemoryPool.nullptr) Hnz). mp_simpl.
  rewrite (proj2 (Z.eqb_neq ptr MemoryPool.nullptr) Hnz). mp_simpl.
  unfold MemoryPool.load. mp_simpl. rewrite lookup_insert_eq. done.
Qed.

(** The pool after [k] more allocations. *)
Local Abbreviation allocations k p := (Nat.iter k (fun q => (allocate q).2) p).

(** X19. A double free is not detected and corrupts the free list: after
    [deallocate] is called twice on the same non-null pointer, the block
    links to itself, and every later [allocate], however many there are,
    returns that same pointer and never the null pointer. *)
Theorem double_free_repeats_block (ptr : Z) (p : Pool) (k : nat) :
  ptr <> MemoryPool.nullptr ->
  let p2 := deallocate ptr (deallocate ptr p) in
  MemoryPool.free_list_ p2 = ptr /\
  MemoryPool.load ptr p2 = ptr /\
  (allocate (allocations k p2)).1 = ptr /\
  MemoryPool.alloc_failures_ (allocations k p2) = MemoryPool.alloc_failures_ p.
Proof.
  intros Hnz p2.
  assert (Hloop : forall q, MemoryPool.free_list_ q = ptr -> MemoryPool.load ptr q = ptr ->
            (allocate q).1 = ptr /\
            MemoryPool.free_list_ (allocate q).2 = ptr /\
            MemoryPool.load ptr (allocate q).2 = ptr /\
            MemoryPool.alloc_failures_ (allocate q).2 = MemoryPool.alloc_failures_ q).
  { intros q Hh Hl. unfold MemoryPool.allocate. mp_simpl. rewrite Hh.
    rewrite (proj2 (Z.eqb_neq ptr MemoryPool.nullptr) Hnz). mp_simpl.
    unfold MemoryPool.load in *. mp_simpl. rewrite Hl. done. }
  assert (H2 : MemoryPool.free_list_ p2 = ptr /\ MemoryPool.load ptr p2 = ptr /\
               MemoryPool.alloc_failures_ p2 = MemoryPool.alloc_failures_ p).
  { subst p2. unfold MemoryPool.deallocate.
    rewrite (proj2 (Z.eqb_neq ptr MemoryPool.nullptr) Hnz). mp_simpl.
    unfold MemoryPool.load. mp_simpl. rewrite lookup_insert_eq. done. }
  destruct H2 as (Hh & Hl & Hf). split; [done|]. split; [done|].
  assert (Hk : MemoryPool.free_list_ (allocations k p2) = ptr /\
               MemoryPool.load ptr (allocations k p2) = ptr /\
               MemoryPool.alloc_failures_ (allocations k p2) = MemoryPool.alloc_failures_ p).
  { induction k as [|k (I1 & I2 & I3)]; [done|]. simpl.
    destruct (Hloop _ I1 I2) as (_ & L2 & L3 & L4). rewrite L4. done. }
  destruct Hk as (K1 & K2 & K3). split; [|done].
  by destruct (Hloop _ K1 K2) as (L1 & _).
Qed.

End Pool.

(** ** Recovery requests and the socket *)

Section Requests.

Variable rdtsc : nat -> Z.
Variable tsc_to_ns : Z -> Z.

Implicit Types (m : Mgr) (data : option (list byte)).

Lemma process_gap_fill_trace s e m :
  callback_trace (process_gap_fill s e m) = callback_trace m.
Proof. unfold process_gap_fill. simpl. repeat case_match; reflexivity. Qed.

Lemma drain_loop_trace fuel : forall m ready,
  callback_trace (drain_loop fuel m ready).2 = callback_trace m.
Proof.
  induction fuel as [|fuel IH]; intros m ready; simpl; [done|].
  repeat case_match; simpl; try done. by rewrite IH.
Qed.

Lemma process_packet_new_calls s data ts m :
  exists new,
    callback_trace (process_packet s data ts m).2 = callback_trace m ++ new /\
    (length new <= 1)%nat /\ Forall (fun c => c.2 = LIVE) new.
Proof.
  destruct (is_duplicate m s) eqn:Hd.
  { exists []. rewrite process_packet_duplicate, app_nil_r by done. simpl.
    split; [by destruct (highest_seq_seen_ m <? s)|]. split; [lia|done]. }
  rewrite process_packet_fresh by done.
  destruct (state_ m) eqn:Hst.
  - exists []. simpl. rewrite seen_trace, app_nil_r. split; [done|]. split; [lia|done].
  - exists []. rewrite app_nil_r. split; [|split; [simpl; lia|done]].
    unfold handle_recovering_state. repeat case_match; simpl;
      rewrite ?buffer_if_data_trace, ?process_gap_fill_trace, ?seen_trace; done.
  - unfold handle_live_state.
    destruct (s =? _); [|destruct (s <? _); [|destruct (MAX_GAP_SIZE <? _)]].
    + exists []. simpl. rewrite seen_trace, app_nil_r. split; [done|]. split; [lia|done].
    + exists []. simpl. rewrite seen_trace, app_nil_r. split; [done|]. split; [lia|done].
    + exists []. simpl. rewrite seen_trace, app_nil_r. split; [done|]. split; [lia|done].
    + eexists. cbn [snd]. rewrite buffer_if_data_trace.
      cbn [set_state callback_trace]. rewrite invoke_callback_trace.
      cbn [set_pending bump set_stats callback_trace gap_fill_callback_ state_].
      rewrite seen_trace, seen_state, Hst. split; [reflexivity|].
      destruct (gap_fill_callback_ _); simpl; split; try lia; repeat constructor.
  - exists []. simpl. rewrite seen_trace, app_nil_r. split; [done|]. split; [lia|done].
Qed.

Lemma maintenance_loop_new_calls t gaps : forall m,
  exists new,
    callback_trace (maintenance_loop t gaps m).2 = callback_trace m ++ new /\
    (length new <= length gaps)%nat /\
    Forall (fun c => c.2 = state_ m \/ c.2 = STALE) new.
Proof.
  induction gaps as [|g gaps IH]; intros m; cbn [maintenance_loop].
  { exists []. simpl. rewrite app_nil_r. split; [done|]. split; [lia|done]. }
  destruct (GAP_TIMEOUT_NS <? _); [destruct (retry_count g <? MAX_RETRIES)|].
  - match goal with |- context [maintenance_loop t gaps ?x] =>
      destruct (IH x) as (new & Ht & Hl & Hs) end.
    destruct (maintenance_loop _ _ _) as [rest m2]. cbn [fst snd] in *.
    rewrite invoke_callback_trace in Ht. rewrite invoke_callback_state in Hs.
    eexists. rewrite Ht, <- app_assoc. split; [reflexivity|].
    rewrite length_app. split; [destruct (gap_fill_callback_ m); simpl; lia|].
    apply Forall_app. split; [|done].
    destruct (gap_fill_callback_ m); repeat constructor.
  - destruct (IH (set_state STALE m)) as (new & Ht & Hl & Hs).
    destruct (maintenance_loop _ _ _) as [rest m2]. cbn [fst snd] in *.
    exists new. split; [done|]. split; [simpl; lia|].
    eapply Forall_impl; [exact Hs|]. simpl. tauto.
  - destruct (IH m) as (new & Ht & Hl & Hs).
    destruct (maintenance_loop _ _ _) as [rest m2]. cbn [fst snd] in *.
    exists new. split; [done|]. split; [simpl; lia|done].
Qed.

(** X20. Which calls can ask for a snapshot.  The gap-fill callback is
    invoked only by [process_packet], at most once per call and always
    while [get_state()] still returns Live (the state is set to
    Recovering after the callback returns), and by
    [periodic_maintenance], at most once per pending request, where it
    observes the state the call started in or Stale.  Since the handler
    requests a snapshot only when the callback observes Stale, no call
    other than [periodic_maintenance] ever leads to a snapshot request:
    not the packet that opens an oversized gap, and no gap fill, drain or
    resync. *)
Theorem snapshot_requested_only_by_maintenance (m : Mgr) (op : Op) :
  exists new,
    callback_trace (apply_op op m) = callback_trace m ++ new /\
    match op with
    | OpMaintenance _ =>
        (length new <= length (pending_gaps_ m))%nat /\
        Forall (fun c => c.2 = state_ m \/ c.2 = STALE) new
    | OpPacket _ _ _ =>
        (length new <= 1)%nat /\ Forall (fun c => c.2 = LIVE) new /\
        FeedHandler.request_snapshot ∉
          concat (FeedHandler.handle_gap_fill_request <$> new)
    | _ => new = []
    end.
Proof.
  destruct op as [s data ts| |s e|t|]; simpl.
  - destruct (process_packet_new_calls s data ts m) as (new & Ht & Hl & Hs).
    exists new. split; [done|]. split; [done|]. split; [done|].
    clear -Hs. induction Hs as [|[req st] new Hst _ IH]; simpl; [by intros ?%elem_of_nil|].
    simpl in Hst. subst st. simpl.
    intros [Hx|Hx]%elem_of_cons; [discriminate Hx|by apply IH].
  - exists []. rewrite app_nil_r. split; [apply drain_loop_trace|done].
  - exists []. rewrite app_nil_r. split; [apply process_gap_fill_trace|done].
  - unfold periodic_maintenance.
    destruct (maintenance_loop_new_calls t (pending_gaps_ m) m) as (new & Ht & Hl & Hs).
    destruct (maintenance_loop _ _ _) as [gaps m1]. by exists new.
  - exists []. by rewrite app_nil_r.
Qed.

Lemma process_packet_duplicates s data ts m :
  duplicates (PacketManager.stats_ (process_packet s data ts m).2) =
    if is_duplicate m s then wrap64 (duplicates (PacketManager.stats_ m) + 1)
    else duplicates (PacketManager.stats_ m).
Proof.
  destruct (is_duplicate m s) eqn:Hd.
  - rewrite process_packet_duplicate by done. simpl.
    by destruct (highest_seq_seen_ m <? s).
  - by destruct (process_packet_fresh_window s data ts m Hd) as (_ & _ & ->).
Qed.

(** X21. What [sequence_gaps] counts.  On every datagram of full size,
    [process_packet] of the handler adds to [sequence_gaps] the packet
    manager's running total of duplicates, as it stands after the
    datagram has been sequenced; that total goes up by one when the
    datagram is a duplicate and is otherwise unchanged.  So once one
    duplicate has been seen, every later datagram, duplicate or not,
    increases [sequence_gaps]; it is never incremented for a gap. *)
Theorem sequence_gaps_adds_duplicate_total (data : list byte) (recv_tsc : Z)
    (h : FeedHandler.Handler) :
  Wire.sizeof_MarketDataPacket <= Z.of_nat (length data) ->
  let h' := FeedHandler.process_packet rdtsc tsc_to_ns data recv_tsc h in
  let m := FeedHandler.packet_manager_ h in
  let d' := duplicates (PacketManager.stats_ (FeedHandler.packet_manager_ h')) in
  FeedHandler.sequence_gaps (FeedHandler.stats_ h') =
    (if 0 <? d'
     then wrap64 (FeedHandler.sequence_gaps (FeedHandler.stats_ h) + d')
     else FeedHandler.sequence_gaps (FeedHandler.stats_ h)) /\
  d' = (if is_duplicate m (Wire.packet_sequence data)
        then wrap64 (duplicates (PacketManager.stats_ m) + 1)
        else duplicates (PacketManager.stats_ m)) /\
  FeedHandler.packet_manager_ h' =
    (process_packet (Wire.packet_sequence data) (Some data) recv_tsc m).2.
Proof.
  intros Hlen h' m d'. subst h' d' m. unfold FeedHandler.process_packet.
  rewrite (proj2 (Z.ltb_ge _ _) Hlen).
  pose proof (process_packet_duplicates (Wire.packet_sequence data) (Some data)
                recv_tsc (FeedHandler.packet_manager_ h)) as Hd.
  destruct (process_packet _ _ _ _) as [ok m1]. cbn [snd] in Hd.
  destruct h as [q st m tm tl reads err].
  cbn [FeedHandler.set_manager FeedHandler.packet_manager_ FeedHandler.stats_
       FeedHandler.event_queue_ FeedHandler.set_fh_stats get_stats] in *.
  match goal with
  | |- context [FeedHandler.parse_and_queue_packet _ _ _ _ ?x] => set (h2 := x)
  end.
  assert (Hm2 : FeedHandler.packet_manager_ h2 = m1)
    by (subst h2; by destruct (0 <? _)).
  assert (Hs2 : FeedHandler.sequence_gaps (FeedHandler.stats_ h2) =
                if 0 <? duplicates (PacketManager.stats_ m1)
                then wrap64 (FeedHandler.sequence_gaps st + duplicates (PacketManager.stats_ m1))
                else FeedHandler.sequence_gaps st)
    by (subst h2; by destruct (0 <? _)).
  clearbody h2. destruct ok.
  - rewrite parse_and_queue_manager, Hm2.
    split; [|by split].
    rewrite <- Hs2. clear. unfold FeedHandler.parse_and_queue_packet, FeedHandler.read_tsc.
    destruct (FeedHandler.normalize _ _); [|done].
    destruct (SPSCQueue.try_push _ _ _) as [[] q1]; reflexivity.
  - rewrite Hm2. split; [done|by split].
Qed.

(** X22. What the receiver reports.  [receive_internal] returns between
    0 and 65536 bytes for any datagram, truncating a longer one to the
    buffer, and sets the buffer pointer exactly when the count is
    positive.  A datagram of length zero is therefore reported like an
    empty socket, and the ingest loop treats it as no data: it is not
    counted in [packets_received] and only [spin_count] advances. *)
Theorem empty_datagram_is_no_data (d : list byte)
    (rest : list FeedHandler.LoopInput) (spin_count : Z) (h : FeedHandler.Handler) :
  let r := UDPReceiver.receive_internal (UDPReceiver.Datagram d) in
  0 <= r.1 <= 65536 /\
  r.1 = Z.min (Z.of_nat (length d)) 65536 /\
  (r.2 = None <-> d = []) /\
  (d <> [] -> r.2 = Some (take (Z.to_nat 65536) d)) /\
  UDPReceiver.receive_internal (UDPReceiver.Datagram []) =
    UDPReceiver.receive_internal UDPReceiver.WouldBlock /\
  FeedHandler.run_loop rdtsc tsc_to_ns ((true, UDPReceiver.Datagram []) :: rest) spin_count h =
    FeedHandler.run_loop rdtsc tsc_to_ns ((true, UDPReceiver.WouldBlock) :: rest) spin_count h.
Proof.
  intros r. subst r. unfold UDPReceiver.receive_internal, UDPReceiver.receive,
    UDPReceiver.RECV_BUFFER_SIZE.
  cbn [fst snd]. rewrite length_take.
  split; [lia|]. split; [lia|]. split; [|split; [|split; reflexivity]].
  - destruct d as [|b d].
    + rewrite Nat.min_0_r. done.
    + split; [|done]. destruct (0 <? _) eqn:E; [done|].
      apply Z.ltb_ge in E. simpl length in E. lia.
  - intros Hne. destruct d as [|b d]; [done|].
    destruct (0 <? _) eqn:E; [done|].
    apply Z.ltb_ge in E. simpl length in E. lia.
Qed.

End Requests.

(** ** The trading engine *)

Section Engine.

Local Abbreviation MarketEvent := FeedHandler.MarketEvent.
Local Abbreviation Engine := TradingEngine.Engine.
Local Abbreviation QUEUE_SIZE := FeedHandler.QUEUE_SIZE.
Local Abbreviation qcontents :=
  (@SPSCQueue.contents FeedHandler.MarketEvent _ FeedHandler.QUEUE_SIZE).
Local Abbreviation qinv :=
  (@SPSCQueue.ring_inv FeedHandler.MarketEvent FeedHandler.QUEUE_SIZE).
Local Abbreviation qpop :=
  (@SPSCQueue.try_pop FeedHandler.MarketEvent _ FeedHandler.QUEUE_SIZE).
Local Abbreviation last_quote := TradingEngine.last_quote.

Implicit Types (e : Engine) (ev : MarketEvent) (evs : list MarketEvent).

Lemma normalize_well_typed d t ev :
  FeedHandler.normalize d t = Some ev -> TradingEngine.well_typed ev.
Proof.
  unfold FeedHandler.normalize, TradingEngine.well_typed.
  destruct (Wire.msg_type d =? Wire.TRADE) eqn:E1;
    [|destruct (Wire.msg_type d =? Wire.QUOTE) eqn:E2; [|done]];
    intros [= <-]; simpl.
  - apply Z.eqb_eq in E1. rewrite E1. split; [by eexists _, _, _|done].
  - apply Z.eqb_eq in E2. rewrite E2. split; [done|by eexists _, _, _, _].
Qed.

Lemma process_event_well_typed ev e :
  TradingEngine.well_typed ev ->
  exists e',
    TradingEngine.process_event ev e = Some e' /\
    TradingEngine.event_queue_ e' = TradingEngine.event_queue_ e /\
    (TradingEngine.last_bid_ e', TradingEngine.last_ask_ e') =
      if TradingEngine.is_quote ev then TradingEngine.quote_prices ev
      else (TradingEngine.last_bid_ e, TradingEngine.last_ask_ e).
Proof.
  intros [Ht Hq]. unfold TradingEngine.process_event, TradingEngine.is_quote.
  destruct (FeedHandler.type ev =? Wire.TRADE) eqn:E1.
  - apply Z.eqb_eq in E1. destruct (Ht E1) as (pr & qt & sd & Hd).
    rewrite E1. change (Wire.TRADE =? Wire.QUOTE) with false.
    unfold TradingEngine.handle_trade. rewrite Hd. by exists e.
  - destruct (FeedHandler.type ev =? Wire.QUOTE) eqn:E2; [|by exists e].
    apply Z.eqb_eq in E2. destruct (Hq E2) as (b & a & bs & az & Hd).
    unfold TradingEngine.handle_quote, TradingEngine.quote_prices. rewrite Hd.
    by eexists.
Qed.

Lemma last_quote_cons ev evs start :
  last_quote (ev :: evs) start =
    last_quote evs (if TradingEngine.is_quote ev then TradingEngine.quote_prices ev
                    else start).
Proof.
  unfold TradingEngine.last_quote. simpl.
  destruct (TradingEngine.is_quote ev); [|done].
  rewrite last_cons. by destruct (last _).
Qed.

(** The loop on an empty queue only spins. *)
Lemma run_loop_idle n : forall c e,
  qinv (TradingEngine.event_queue_ e) ->
  qcontents (TradingEngine.event_queue_ e) = [] ->
  exists e',
    TradingEngine.run_loop (replicate n true) c e = TradingEngine.Iterating c e' /\
    qinv (TradingEngine.event_queue_ e') /\
    qcontents (TradingEngine.event_queue_ e') = [] /\
    TradingEngine.last_bid_ e' = TradingEngine.last_bid_ e /\
    TradingEngine.last_ask_ e' = TradingEngine.last_ask_ e.
Proof.
  induction n as [|n IH]; intros c e Hinv Hc; [by exists e|].
  cbn [replicate TradingEngine.run_loop negb].
  pose proof (try_pop_contents QUEUE_SIZE 16 ltac:(lia) eq_refl _ Hinv) as Hp.
  pose proof (try_pop_inv QUEUE_SIZE _ Hinv) as Hi.
  destruct (qpop (TradingEngine.event_queue_ e)) as [[ev|] q]; cbn [fst snd] in *.
  - rewrite Hc in Hp. done.
  - destruct Hp as [_ Hq].
    destruct (IH c (TradingEngine.set_queue q e) Hi Hq) as (e' & Hr & ? & ? & ? & ?).
    by exists e'.
Qed.

Lemma run_loop_drains evs : forall n c e,
  qinv (TradingEngine.event_queue_ e) ->
  qcontents (TradingEngine.event_queue_ e) = evs ->
  Forall TradingEngine.well_typed evs ->
  (length evs <= n)%nat ->
  0 <= c -> c + Z.of_nat (length evs) < 2 ^ 64 ->
  exists e',
    TradingEngine.run_loop (replicate n true) c e =
      TradingEngine.Iterating (c + Z.of_nat (length evs)) e' /\
    qcontents (TradingEngine.event_queue_ e') = [] /\
    (TradingEngine.last_bid_ e', TradingEngine.last_ask_ e') =
      last_quote evs (TradingEngine.last_bid_ e, TradingEngine.last_ask_ e).
Proof.
  induction evs as [|ev evs IH]; intros n c e Hinv Hc Hwt Hn H0 Hb.
  - destruct (run_loop_idle n c e Hinv Hc) as (e' & Hr & _ & Hq & Hbid & Hask).
    exists e'. rewrite Hr, Hbid, Hask. simpl. rewrite Z.add_0_r. done.
  - destruct n as [|n]; [simpl in Hn; lia|].
    cbn [replicate TradingEngine.run_loop negb].
    pose proof (try_pop_contents QUEUE_SIZE 16 ltac:(lia) eq_refl _ Hinv) as Hp.
    pose proof (try_pop_inv QUEUE_SIZE _ Hinv) as Hi.
    destruct (qpop (TradingEngine.event_queue_ e)) as [[x|] q]; cbn [fst snd] in *;
      rewrite Hc in Hp; [|by destruct Hp].
    injection Hp as <- Hq. apply Forall_cons in Hwt as [Hev Hwt].
    destruct (process_event_well_typed ev (TradingEngine.set_queue q e) Hev)
      as (e1 & -> & Hq1 & Hprices).
    cbn [length] in *. rewrite wrap64_small by lia.
    destruct (IH n (c + 1) e1) as (e' & Hr & Hq' & Hl);
      [by rewrite Hq1|by rewrite Hq1|done|lia|lia|lia|].
    exists e'. rewrite Hr. split; [f_equal; lia|]. split; [done|].
    rewrite Hl, Hprices, last_quote_cons. done.
Qed.

(** X23. The trading engine consumes what is queued, in order and
    completely.  On a queue holding events whose data member matches
    their type (as every event built by [parse_and_queue_packet] does),
    a run of at least as many iterations as there are events never reads
    the wrong member of the union, pops every event, leaves the queue
    empty, counts exactly the events that were queued in
    [events_processed], and ends with [last_bid_] and [last_ask_] set to
    the prices of the last QUOTE event, or unchanged when there was
    none; trades and other events never change them. *)
Theorem trading_engine_drains_queue (e : Engine) (n : nat) :
  qinv (TradingEngine.event_queue_ e) ->
  Forall TradingEngine.well_typed (qcontents (TradingEngine.event_queue_ e)) ->
  (length (qcontents (TradingEngine.event_queue_ e)) <= n)%nat ->
  let evs := qcontents (TradingEngine.event_queue_ e) in
  (forall d t ev, FeedHandler.normalize d t = Some ev -> TradingEngine.well_typed ev) /\
  exists e',
    TradingEngine.run (replicate n true) e =
      TradingEngine.Iterating (Z.of_nat (length evs)) e' /\
    qcontents (TradingEngine.event_queue_ e') = [] /\
    (TradingEngine.last_bid_ e', TradingEngine.last_ask_ e') =
      last_quote evs (TradingEngine.last_bid_ e, TradingEngine.last_ask_ e) /\
    (Forall (fun ev => TradingEngine.is_quote ev = false) evs ->
     TradingEngine.last_bid_ e' = TradingEngine.last_bid_ e /\
     TradingEngine.last_ask_ e' = TradingEngine.last_ask_ e).
Proof.
  intros Hinv Hwt Hn evs. split; [apply normalize_well_typed|].
  pose proof (contents_length QUEUE_SIZE 16 ltac:(lia) _ Hinv) as Hlen.
  pose proof Hinv as (Hc & Hr & Hcw & Hw & Hl).
  destruct (run_loop_drains evs n 0 e Hinv eq_refl Hwt Hn) as (e' & Hrun & Hq & Hp);
    [lia|fold evs in Hlen; lia|].
  exists e'. unfold TradingEngine.run. rewrite Hrun.
  split; [done|]. split; [done|]. split; [done|].
  intros Hnq. unfold TradingEngine.last_quote in Hp.
  assert (List.filter TradingEngine.is_quote evs = []) as Hf.
  { clear -Hnq. induction Hnq as [|ev evs' Hx _ IH]; simpl; [done|]. by rewrite Hx. }
  rewrite Hf in Hp. simpl in Hp. by injection Hp as -> ->.
Qed.

End Engine.

(** ** Instances of the further properties *)

Section FurtherInstances.

Import Examples.

(** X1 at a ring of four integers: three pushes and two pops. *)
Lemma spsc_fifo_witness :
  let '(pushed, popped, q') :=
    SPSCQueue.run_log 4
      [SPSCQueue.Push 10; SPSCQueue.Push 20; SPSCQueue.Pop; SPSCQueue.Push 30; SPSCQueue.Pop]
      (SPSCQueue.empty_queue 4) in
  pushed = popped ++ SPSCQueue.contents 4 q' /\
  Z.of_nat (length (SPSCQueue.contents 4 q')) <= 4.
Proof.
  assert (H1 : 0 <= 2) by lia.
  assert (H2 : 4 = 2 ^ 2) by reflexivity.
  apply (spsc_fifo (T := Z) 4 2 H1 H2). simpl. lia.
Defined.

(** X2 at the same ring. *)
Lemma spsc_observers_witness :
  SPSCQueue.size
    (SPSCQueue.run_qops 4 [SPSCQueue.Push 10; SPSCQueue.Push 20; SPSCQueue.Pop]
       (SPSCQueue.empty_queue 4)) =
  Z.of_nat (length (SPSCQueue.contents 4
    (SPSCQueue.run_qops 4 [SPSCQueue.Push 10; SPSCQueue.Push 20; SPSCQueue.Pop]
       (SPSCQueue.empty_queue 4)))).
Proof.
  assert (H1 : 0 <= 2) by lia.
  assert (H2 : 4 = 2 ^ 2) by reflexivity.
  assert (H3 : Z.of_nat (length [SPSCQueue.Push 10; SPSCQueue.Push 20;
                                 @SPSCQueue.Pop Z]) + 2 < 2 ^ 64)
    by (simpl; lia).
  pose proof (spsc_observers (T := Z) 4 2 H1 H2 _ H3) as Hw.
  cbv zeta in Hw. exact (proj1 Hw).
Defined.

(** X6 at a fresh manager: 7, then 8 and a drain. *)
Lemma duplicate_recognised_for_9999_calls_witness :
  is_duplicate
    (run_ops [OpPacket 8 None 0; OpDrain] (process_packet 7 None 0 (init true)).2) 7 = true.
Proof.
  assert (H1 : is_duplicate (init true) 7 = false) by reflexivity.
  assert (H2 : forallb (fun op => negb (is_resync op)) [OpPacket 8 None 0; OpDrain] = true)
    by reflexivity.
  assert (H3 : Z.of_nat (length [OpPacket 8 None 0; OpDrain]) < DUPLICATE_WINDOW_SIZE)
    by reflexivity.
  pose proof (duplicate_recognised_for_9999_calls (init true) 7 None 0
                [OpPacket 8 None 0; OpDrain] (window_ok_init true) H1 H2 H3) as Hw.
  cbv zeta in Hw. exact (proj1 Hw).
Defined.

(** X7 at the sequences 1, 2, 3. *)
Lemma in_order_stream_is_delivered_witness :
  (process_all (fun _ => None) (fun _ => 0) (consecutive 1 3) (init true)).1 =
    [true; true; true] /\
  state_ (process_all (fun _ => None) (fun _ => 0) (consecutive 1 3) (init true)).2 = LIVE.
Proof.
  assert (H1 : 0 <= 1) by lia.
  assert (H2 : 1 + Z.of_nat 2 + 1 < 2 ^ 64) by (simpl; lia).
  pose proof (in_order_stream_is_delivered true (fun _ => None) (fun _ => 0) 1 2 H1 H2)
    as Hw.
  cbv zeta in Hw. destruct Hw as (Ha & Hb & _). split; [exact Ha|exact Hb].
Defined.

(** X9 at the manager that has seen 1, 2 and 5: the arrival of 3. *)
Lemma recovery_not_ended_in_sequence_witness :
  state_
    (process_packet
       (next_expected_seq_
          (run_ops [OpPacket 1 None 0; OpPacket 2 None 0; OpPacket 5 None 0] (init true)))
       None 0
       (run_ops [OpPacket 1 None 0; OpPacket 2 None 0; OpPacket 5 None 0] (init true))).2 =
  RECOVERING.
Proof.
  assert (H1 : state_ (run_ops [OpPacket 1 None 0; OpPacket 2 None 0; OpPacket 5 None 0]
                         (init true)) = RECOVERING)
    by (vm_compute; reflexivity).
  assert (H2 : is_duplicate
                 (run_ops [OpPacket 1 None 0; OpPacket 2 None 0; OpPacket 5 None 0]
                    (init true))
                 (next_expected_seq_
                    (run_ops [OpPacket 1 None 0; OpPacket 2 None 0; OpPacket 5 None 0]
                       (init true))) = false)
    by (vm_compute; reflexivity).
  destruct (recovery_not_ended_in_sequence true
              [OpPacket 1 None 0; OpPacket 2 None 0; OpPacket 5 None 0] None 0 H1 H2)
    as (_ & Hst & _).
  exact Hst.
Defined.

(** X11 at sequence 5. *)
Lemma generated_packet_round_trip_witness :
  Wire.packet_sequence (TestFeedGenerator.create_market_packet 5 1000 12345 678 1) = 5 /\
  Wire.trade_sequence_num (TestFeedGenerator.create_market_packet 5 1000 12345 678 1) = 5.
Proof.
  assert (H1 : is_u64 5) by (unfold is_u64; lia).
  assert (H2 : is_u64 1000) by (unfold is_u64; lia).
  assert (H3 : 0 <= 12345) by lia.
  assert (H4 : 0 <= 678) by lia.
  pose proof (generated_packet_round_trip 5 1000 12345 678 1 2000 H1 H2 H3 H4) as Hw.
  cbv zeta in Hw. destruct Hw as (_ & _ & _ & _ & Ha & Hb & _).
  split; [exact Ha|exact Hb].
Defined.

(** X12 at a fresh handler and a trade packet. *)
Lemma parse_and_queue_accounting_witness :
  FeedHandler.packet_manager_
    (FeedHandler.parse_and_queue_packet (fun k => Z.of_nat k) (fun t => t / 3)
       (Wire.trade_packet 5) 0 fresh_handler) =
  FeedHandler.packet_manager_ fresh_handler.
Proof.
  assert (H1 : SPSCQueue.ring_inv FeedHandler.QUEUE_SIZE
                 (FeedHandler.event_queue_ fresh_handler)).
  { apply ring_inv_empty. unfold FeedHandler.QUEUE_SIZE. lia. }
  pose proof (parse_and_queue_accounting (fun k => Z.of_nat k) (fun t => t / 3)
                (Wire.trade_packet 5) 0 fresh_handler H1) as Hw.
  cbv zeta in Hw. exact (proj1 Hw).
Defined.

(** X13 at the latencies 30, 10, 20. *)
Lemma latency_statistics_witness :
  FeedHandler.total_latency_ns
    (FeedHandler.update_latencies [30; 10; 20] FeedHandler.fh_stats0) =
  wrap64 (foldr Z.add 0 [30; 10; 20]).
Proof.
  assert (H1 : Forall is_u64 [30; 10; 20])
    by (repeat constructor; unfold is_u64; lia).
  pose proof (latency_statistics [30; 10; 20] H1) as Hw.
  cbv zeta in Hw. exact (proj1 Hw).
Defined.

(** X14 at two packets of the test generator, sequences 7 and 8. *)
Lemma in_order_datagrams_reach_queue_witness :
  FeedHandler.packets_processed
    (FeedHandler.stats_
       (FeedHandler.run (fun k => Z.of_nat k) (fun t => t / 3)
          ((fun d => (true, UDPReceiver.Datagram d)) <$>
             [TestFeedGenerator.create_market_packet 7 0 1 2 3;
              TestFeedGenerator.create_market_packet 8 0 4 5 6])
          (FeedHandler.new (SPSCQueue.empty_queue FeedHandler.QUEUE_SIZE)
             FeedHandler.fh_stats0)).2) = 2.
Proof.
  assert (H1 : 0 <= 7) by lia.
  assert (H2 : 7 + Z.of_nat (length [TestFeedGenerator.create_market_packet 7 0 1 2 3;
                 TestFeedGenerator.create_market_packet 8 0 4 5 6]) < 2 ^ 64)
    by (simpl; lia).
  assert (H3 : Z.of_nat (length [TestFeedGenerator.create_market_packet 7 0 1 2 3;
                 TestFeedGenerator.create_market_packet 8 0 4 5 6]) <=
               FeedHandler.QUEUE_SIZE)
    by (unfold FeedHandler.QUEUE_SIZE; simpl; lia).
  assert (H4 : forall i d,
             [TestFeedGenerator.create_market_packet 7 0 1 2 3;
              TestFeedGenerator.create_market_packet 8 0 4 5 6] !! i = Some d ->
             Wire.sizeof_MarketDataPacket <= Z.of_nat (length d) <= 65536 /\
             Wire.packet_sequence d = 7 + Z.of_nat i /\
             (Wire.msg_type d = Wire.TRADE \/ Wire.msg_type d = Wire.QUOTE)).
  { intros i d Hd. destruct i as [|[|i]]; simpl in Hd; [| |discriminate Hd];
      injection Hd as <-.
    - split; [split; vm_compute; intros H; discriminate H|].
      split; [reflexivity|left; reflexivity].
    - split; [split; vm_compute; intros H; discriminate H|].
      split; [reflexivity|left; reflexivity]. }
  pose proof (in_order_datagrams_reach_queue (fun k => Z.of_nat k) (fun t => t / 3) 7
                _ H1 H2 H3 H4) as Hw.
  cbv zeta in Hw. destruct Hw as (_ & _ & _ & Hp & _). exact Hp.
Defined.

(** X15 at the 40 bytes of a trade message. *)
Lemma align_size_rounds_up_witness :
  MemoryPool.align_size 40 mod 64 = 0 /\
  40 <= MemoryPool.align_size 40 < 40 + 64.
Proof.
  assert (H1 : 0 <= 40) by lia.
  assert (H2 : 40 + 63 < 2 ^ 64) by lia.
  destruct (align_size_rounds_up 40 H1 H2) as (Ha & Hb & _).
  split; [exact Ha|exact Hb].
Defined.

(** X16 at a pool of four 40-byte objects at address 4096. *)
Lemma pool_blocks_are_exclusive_witness :
  NoDup (MemoryPool.run
           [MemoryPool.Allocate; MemoryPool.Construct 7; MemoryPool.Release 0;
            MemoryPool.Allocate]
           (MemoryPool.init 40 4 4096, [])).2.
Proof.
  assert (H1 : 0 < 4096) by lia.
  assert (H2 : 0 <= 40) by lia.
  assert (H3 : 40 + 63 < 2 ^ 64) by lia.
  assert (H4 : Z.of_nat 4 * MemoryPool.align_size (Z.max 40 MemoryPool.sizeof_FreeNode)
               < 2 ^ 64) by reflexivity.
  assert (H5 : Z.of_nat (length [MemoryPool.Allocate; MemoryPool.Construct 7;
                 MemoryPool.Release 0; MemoryPool.Allocate]) + 1 < 2 ^ 64)
    by (simpl; lia).
  pose proof (pool_blocks_are_exclusive 40 4 4096 _ H1 H2 H3 H4 H5) as Hw.
  cbv zeta in Hw. exact (proj1 Hw).
Defined.

(** X17 at the same pool, exhausted. *)
Lemma fresh_pool_allocation_order_witness :
  (MemoryPool.run (replicate 4 MemoryPool.Allocate) (MemoryPool.init 40 4 4096, [])).2 =
    reverse (MemoryPool.blocks 4096
               (MemoryPool.aligned_size_ (MemoryPool.init 40 4 4096)) 0 4).
Proof.
  assert (H1 : 0 < 4096) by lia.
  assert (H2 : 0 <= 40) by lia.
  assert (H3 : 40 + 63 < 2 ^ 64) by lia.
  assert (H4 : Z.of_nat 4 * MemoryPool.align_size (Z.max 40 MemoryPool.sizeof_FreeNode)
               < 2 ^ 64) by reflexivity.
  assert (H5 : Z.of_nat 4 + 1 < 2 ^ 64) by (simpl; lia).
  assert (H6 : (4 <= 4)%nat) by lia.
  pose proof (fresh_pool_allocation_order 40 4 4096 4 H1 H2 H3 H4 H5 H6) as Hw.
  cbv zeta in Hw. exact (proj1 Hw).
Defined.

(** X18 at the first block of that pool. *)
Lemma deallocate_then_allocate_witness :
  (MemoryPool.allocate (MemoryPool.deallocate 4096 (MemoryPool.init 40 4 4096))).1 = 4096.
Proof.
  assert (H1 : 4096 <> MemoryPool.nullptr) by (unfold MemoryPool.nullptr; lia).
  pose proof (deallocate_then_allocate 4096 (MemoryPool.init 40 4 4096) H1) as Hw.
  cbv zeta in Hw. exact (proj1 Hw).
Defined.

(** X19 at the same block: the fourth allocation after the double free. *)
Lemma double_free_repeats_block_witness :
  (MemoryPool.allocate
     (Nat.iter 3 (fun q => (MemoryPool.allocate q).2)
        (MemoryPool.deallocate 4096
           (MemoryPool.deallocate 4096 (MemoryPool.init 40 4 4096))))).1 = 4096.
Proof.
  assert (H1 : 4096 <> MemoryPool.nullptr) by (unfold MemoryPool.nullptr; lia).
  pose proof (double_free_repeats_block 4096 (MemoryPool.init 40 4 4096) 3 H1) as Hw.
  cbv zeta in Hw. destruct Hw as (_ & _ & Ha & _). exact Ha.
Defined.

(** X21 at a fresh handler and a trade packet. *)
Lemma sequence_gaps_adds_duplicate_total_witness :
  FeedHandler.packet_manager_
    (FeedHandler.process_packet (fun k => Z.of_nat k) (fun t => t / 3)
       (Wire.trade_packet 5) 0 fresh_handler) =
  (process_packet (Wire.packet_sequence (Wire.trade_packet 5))
     (Some (Wire.trade_packet 5)) 0 (FeedHandler.packet_manager_ fresh_handler)).2.
Proof.
  assert (H1 : Wire.sizeof_MarketDataPacket <= Z.of_nat (length (Wire.trade_packet 5)))
    by (vm_compute; intros H; discriminate H).
  pose proof (sequence_gaps_adds_duplicate_total (fun k => Z.of_nat k) (fun t => t / 3)
                (Wire.trade_packet 5) 0 fresh_handler H1) as Hw.
  cbv zeta in Hw. exact (proj2 (proj2 Hw)).
Defined.

(** X23 at an engine whose queue holds one quote. *)
Lemma trading_engine_drains_queue_witness :
  exists e',
    TradingEngine.run (replicate 3 true) engine_with_quote =
      TradingEngine.Iterating
        (Z.of_nat (length (SPSCQueue.contents FeedHandler.QUEUE_SIZE
                             (TradingEngine.event_queue_ engine_with_quote)))) e' /\
    SPSCQueue.contents FeedHandler.QUEUE_SIZE (TradingEngine.event_queue_ e') = [].
Proof.
  assert (Hc : SPSCQueue.contents FeedHandler.QUEUE_SIZE
                 (TradingEngine.event_queue_ engine_with_quote) = [quote_event])
    by (vm_compute; reflexivity).
  assert (H1 : SPSCQueue.ring_inv FeedHandler.QUEUE_SIZE
                 (TradingEngine.event_queue_ engine_with_quote)).
  { apply try_push_inv.
    - apply ring_inv_empty. unfold FeedHandler.QUEUE_SIZE. lia.
    - vm_compute. reflexivity. }
  assert (H2 : Forall TradingEngine.well_typed
                 (SPSCQueue.contents FeedHandler.QUEUE_SIZE
                    (TradingEngine.event_queue_ engine_with_quote))).
  { rewrite Hc. constructor; [|constructor]. split.
    - intros Ht. discriminate Ht.
    - intros _. exists 100, 101, 5, 5. reflexivity. }
  assert (H3 : (length (SPSCQueue.contents FeedHandler.QUEUE_SIZE
                          (TradingEngine.event_queue_ engine_with_quote)) <= 3)%nat)
    by (rewrite Hc; simpl; lia).
  destruct (trading_engine_drains_queue engine_with_quote 3 H1 H2 H3)
    as (_ & e' & Hrun & Hq & _).
  exists e'. split; [exact Hrun|exact Hq].
Defined.

End FurtherInstances.
